(** * Puck.js BLE interface (js/puck.js): connection, write queue, façade

    A shallow embedding of [connect], [connection.write] / [writeChunk],
    [connection.close] and the convenience [write] of js/puck.js.

    JavaScript is single threaded: every piece of code of the library runs
    to completion as the reaction to one event (a call by the user, a DOM
    event, the settlement of a promise, a timer).  The embedding is
    therefore a labelled transition system: a [World] holds the variables
    of the [connect] closure, the properties of the connection object, the
    module-level state of the façade and the reactions that are still
    pending (promises, listeners, timers); [step] runs the reaction to one
    [Event] and returns the new world and what the reaction did ([Obs]).

    Closures are defunctionalised: a callback is a constructor that names
    the closure of the source it stands for ([OnWritten], [PuckConnected],
    [PuckData]) or an opaque function of the user ([UserCb], ...).  A user
    function is observed when it is called; it returns normally, and
    whatever it calls on the connection is a later [Event]. *)

From Stdlib Require Import ZArith Lia Sorted.
From Equations Require Import Equations.
From stdpp Require Import base numbers list.

Set Default Proof Using "Type".

(** ** Data *)

(** A JavaScript string: its UTF-16 code units. *)
Abbreviation jsstring := (list N).

(** [str2ab]: one byte per code unit, stored through a [Uint8Array]
    (modulo 256). *)
Definition str2ab (str : jsstring) : list N := map (fun c => (c mod 256)%N) str.

(** [ab2str]: one code unit per byte. *)
Definition ab2str (buf : list N) : jsstring := map (fun b => b) buf.

Definition CHUNKSIZE : nat := 16.

(** The second argument of [connection.write]: a function of the user, or
    the [onWritten] closure of the façade, which captured the [callback]
    argument of that call of [write] (possibly [undefined]). *)
Inductive Cb :=
| UserCb (id : nat)
| OnWritten (callback : option nat).

(** The argument of [connect]: a function of the user, or the function the
    façade passes at line 203, which captured [data] and [callback]. *)
Inductive ConnCb :=
| UserConnCb (id : nat)
| PuckConnected (data : jsstring) (callback : option nat).

(** What [connection.on] installed: a function of the user, or the ['data']
    handler of the façade (line 209). *)
Inductive Handler :=
| UserHandler (id : nat)
| PuckData.

Inductive Evt := EvOpen | EvData | EvClose.

#[global] Instance Evt_eq_dec : EqDecision Evt.
Proof. solve_decision. Defined.

(** An element of [txDataQueue]: [{data:data, callback:callback}].  [data]
    becomes [undefined] ([None]) when its last chunk is taken; [callback]
    is [undefined] when the caller passed none. *)
Record TxItem := { data : option jsstring; callback : option Cb }.

(** Where the promise chain of [connect] stands: the request it waits on,
    or [Settled] once its last reaction or its [catch] has run. *)
Inductive Stage :=
| AwaitDevice | AwaitGatt | AwaitService | AwaitRx | AwaitNotify | AwaitTx
| Settled.

(** The closure [timeout] of [onWritten] with its variable [maxTime] and
    the [callback] it captured. *)
Record Timer := { maxTime : Z; timer_callback : nat }.

(** The connection object and the variables of the [connect] closure.
    Object handles of the browser are opaque: a variable that holds one is
    [true], [undefined] is [false].  Queue elements are references into
    [items], because [writeChunk] and the promise reactions share and
    mutate the same object. *)
Record Connection := {
  isOpen : bool;
  onopen : option Handler;
  ondata : option Handler;
  onclose : option Handler;
  connect_callback : ConnCb;
  btServer : bool;
  btService : bool;
  txCharacteristic : bool;
  rxCharacteristic : bool;
  txDataQueue : list nat;
  txInProgress : bool;
  items : list TxItem;
  stage : Stage;
  disconnectListener : bool;
  valueListener : bool;
  pendingTx : list nat
}.

(** The façade: is the module-level variable [connection] bound to this
    connection, the properties [received] and [hadData] it keeps on the
    object, and the timers it has armed.  [received] is [None] as long as
    the property has not been assigned on the object ([undefined]); an
    unassigned [hadData] is [false], as it is only tested. *)
Record Puck := {
  connection : bool;
  received : option jsstring;
  hadData : bool;
  timers : list Timer
}.

Record World := { conn : Connection; puck : Puck }.

(** What a reaction does, in order. *)
Inductive Obs :=
| ODisconnect                                  (* btServer.disconnect() *)
| OPush (r : nat) (d : jsstring) (cb : option Cb)  (* txDataQueue.push *)
| OWriteValue (r : nat) (chunk : jsstring)     (* writeValue(str2ab(chunk)) *)
| OAck (r : nat) (ok : bool)                   (* that promise settled *)
| OCallback (r : nat) (cb : Cb)                (* txItem.callback() *)
| OConnected (c : bool)                        (* callback(connection|null) *)
| OEmit (evt : Evt) (arg : option jsstring)    (* connection.emit(evt,arg) *)
| OHandler (id : nat) (evt : Evt) (arg : option jsstring)
| OUser (id : nat) (arg : option jsstring)     (* callback(null|received):
                                                  [None] is no string *)
| OSetTimeout (ms : Z)                         (* setTimeout(timeout, ms) *)
| OTypeError                                   (* a TypeError is thrown *)
| OUncaught.                                   (* and nothing catches it *)

Inductive Event :=
| EWrite (d : jsstring) (cb : option nat)      (* connection.write(d, cb) *)
| EClose                                       (* connection.close() *)
| EOn (evt : Evt) (id : nat)                   (* connection.on(evt, f) *)
| EGattDisconnected                            (* 'gattserverdisconnected' *)
| ENotify (value : list N)                     (* 'characteristicvaluechanged' *)
| EChain (ok : bool)                           (* the awaited request settles *)
| ETx (k : nat) (ok : bool)                    (* a writeValue promise settles *)
| EPuck (d : jsstring) (cb : option nat)       (* Puck.write, connection open *)
| ETimer (k : nat).                            (* an armed timer fires *)

(** ** Field updates *)

Definition set_isOpen v c := {| isOpen := v; onopen := onopen c; ondata := ondata c; onclose := onclose c; connect_callback := connect_callback c; btServer := btServer c; btService := btService c; txCharacteristic := txCharacteristic c; rxCharacteristic := rxCharacteristic c; txDataQueue := txDataQueue c; txInProgress := txInProgress c; items := items c; stage := stage c; disconnectListener := disconnectListener c; valueListener := valueListener c; pendingTx := pendingTx c |}.
Definition set_onopen v c := {| isOpen := isOpen c; onopen := v; ondata := ondata c; onclose := onclose c; connect_callback := connect_callback c; btServer := btServer c; btService := btService c; txCharacteristic := txCharacteristic c; rxCharacteristic := rxCharacteristic c; txDataQueue := txDataQueue c; txInProgress := txInProgress c; items := items c; stage := stage c; disconnectListener := disconnectListener c; valueListener := valueListener c; pendingTx := pendingTx c |}.
Definition set_ondata v c := {| isOpen := isOpen c; onopen := onopen c; ondata := v; onclose := onclose c; connect_callback := connect_callback c; btServer := btServer c; btService := btService c; txCharacteristic := txCharacteristic c; rxCharacteristic := rxCharacteristic c; txDataQueue := txDataQueue c; txInProgress := txInProgress c; items := items c; stage := stage c; disconnectListener := disconnectListener c; valueListener := valueListener c; pendingTx := pendingTx c |}.
Definition set_onclose v c := {| isOpen := isOpen c; onopen := onopen c; ondata := ondata c; onclose := v; connect_callback := connect_callback c; btServer := btServer c; btService := btService c; txCharacteristic := txCharacteristic c; rxCharacteristic := rxCharacteristic c; txDataQueue := txDataQueue c; txInProgress := txInProgress c; items := items c; stage := stage c; disconnectListener := disconnectListener c; valueListener := valueListener c; pendingTx := pendingTx c |}.
Definition set_btServer v c := {| isOpen := isOpen c; onopen := onopen c; ondata := ondata c; onclose := onclose c; connect_callback := connect_callback c; btServer := v; btService := btService c; txCharacteristic := txCharacteristic c; rxCharacteristic := rxCharacteristic c; txDataQueue := txDataQueue c; txInProgress := txInProgress c; items := items c; stage := stage c; disconnectListener := disconnectListener c; valueListener := valueListener c; pendingTx := pendingTx c |}.
Definition set_btService v c := {| isOpen := isOpen c; onopen := onopen c; ondata := ondata c; onclose := onclose c; connect_callback := connect_callback c; btServer := btServer c; btService := v; txCharacteristic := txCharacteristic c; rxCharacteristic := rxCharacteristic c; txDataQueue := txDataQueue c; txInProgress := txInProgress c; items := items c; stage := stage c; disconnectListener := disconnectListener c; valueListener := valueListener c; pendingTx := pendingTx c |}.
Definition set_txCharacteristic v c := {| isOpen := isOpen c; onopen := onopen c; ondata := ondata c; onclose := onclose c; connect_callback := connect_callback c; btServer := btServer c; btService := btService c; txCharacteristic := v; rxCharacteristic := rxCharacteristic c; txDataQueue := txDataQueue c; txInProgress := txInProgress c; items := items c; stage := stage c; disconnectListener := disconnectListener c; valueListener := valueListener c; pendingTx := pendingTx c |}.
Definition set_rxCharacteristic v c := {| isOpen := isOpen c; onopen := onopen c; ondata := ondata c; onclose := onclose c; connect_callback := connect_callback c; btServer := btServer c; btService := btService c; txCharacteristic := txCharacteristic c; rxCharacteristic := v; txDataQueue := txDataQueue c; txInProgress := txInProgress c; items := items c; stage := stage c; disconnectListener := disconnectListener c; valueListener := valueListener c; pendingTx := pendingTx c |}.
Definition set_txDataQueue v c := {| isOpen := isOpen c; onopen := onopen c; ondata := ondata c; onclose := onclose c; connect_callback := connect_callback c; btServer := btServer c; btService := btService c; txCharacteristic := txCharacteristic c; rxCharacteristic := rxCharacteristic c; txDataQueue := v; txInProgress := txInProgress c; items := items c; stage := stage c; disconnectListener := disconnectListener c; valueListener := valueListener c; pendingTx := pendingTx c |}.
Definition set_txInProgress v c := {| isOpen := isOpen c; onopen := onopen c; ondata := ondata c; onclose := onclose c; connect_callback := connect_callback c; btServer := btServer c; btService := btService c; txCharacteristic := txCharacteristic c; rxCharacteristic := rxCharacteristic c; txDataQueue := txDataQueue c; txInProgress := v; items := items c; stage := stage c; disconnectListener := disconnectListener c; valueListener := valueListener c; pendingTx := pendingTx c |}.
Definition set_items v c := {| isOpen := isOpen c; onopen := onopen c; ondata := ondata c; onclose := onclose c; connect_callback := connect_callback c; btServer := btServer c; btService := btService c; txCharacteristic := txCharacteristic c; rxCharacteristic := rxCharacteristic c; txDataQueue := txDataQueue c; txInProgress := txInProgress c; items := v; stage := stage c; disconnectListener := disconnectListener c; valueListener := valueListener c; pendingTx := pendingTx c |}.
Definition set_stage v c := {| isOpen := isOpen c; onopen := onopen c; ondata := ondata c; onclose := onclose c; connect_callback := connect_callback c; btServer := btServer c; btService := btService c; txCharacteristic := txCharacteristic c; rxCharacteristic := rxCharacteristic c; txDataQueue := txDataQueue c; txInProgress := txInProgress c; items := items c; stage := v; disconnectListener := disconnectListener c; valueListener := valueListener c; pendingTx := pendingTx c |}.
Definition set_disconnectListener v c := {| isOpen := isOpen c; onopen := onopen c; ondata := ondata c; onclose := onclose c; connect_callback := connect_callback c; btServer := btServer c; btService := btService c; txCharacteristic := txCharacteristic c; rxCharacteristic := rxCharacteristic c; txDataQueue := txDataQueue c; txInProgress := txInProgress c; items := items c; stage := stage c; disconnectListener := v; valueListener := valueListener c; pendingTx := pendingTx c |}.
Definition set_valueListener v c := {| isOpen := isOpen c; onopen := onopen c; ondata := ondata c; onclose := onclose c; connect_callback := connect_callback c; btServer := btServer c; btService := btService c; txCharacteristic := txCharacteristic c; rxCharacteristic := rxCharacteristic c; txDataQueue := txDataQueue c; txInProgress := txInProgress c; items := items c; stage := stage c; disconnectListener := disconnectListener c; valueListener := v; pendingTx := pendingTx c |}.
Definition set_pendingTx v c := {| isOpen := isOpen c; onopen := onopen c; ondata := ondata c; onclose := onclose c; connect_callback := connect_callback c; btServer := btServer c; btService := btService c; txCharacteristic := txCharacteristic c; rxCharacteristic := rxCharacteristic c; txDataQueue := txDataQueue c; txInProgress := txInProgress c; items := items c; stage := stage c; disconnectListener := disconnectListener c; valueListener := valueListener c; pendingTx := v |}.

Definition set_connection v p := {| connection := v; received := received p; hadData := hadData p; timers := timers p |}.
Definition set_received v p := {| connection := connection p; received := v; hadData := hadData p; timers := timers p |}.
Definition set_hadData v p := {| connection := connection p; received := received p; hadData := v; timers := timers p |}.
Definition set_timers v p := {| connection := connection p; received := received p; hadData := hadData p; timers := v |}.

(** ** Reactions: state, observations and exceptions *)

Inductive Res (A : Type) := Ok (a : A) | Throw.
Arguments Ok {A} a.
Arguments Throw {A}.

Definition M (A : Type) : Type := World -> Res A * World * list Obs.

Definition ret {A} (a : A) : M A := fun w => (Ok a, w, []).

Definition bind {A B} (m : M A) (k : A -> M B) : M B :=
  fun w =>
    match m w with
    | (Ok a, w', o) => let '(r, w'', o') := k a w' in (r, w'', o ++ o')
    | (Throw, w', o) => (Throw, w', o)
    end.

Declare Scope js_scope.
Delimit Scope js_scope with js.
Notation "x <- m ;; k" := (bind m (fun x => k))
  (at level 100, m at next level, right associativity) : js_scope.
Notation "m ;; k" := (bind m (fun _ => k))
  (at level 100, right associativity) : js_scope.
Local Open Scope js_scope.

(** Reading a property of [undefined], or calling [undefined]. *)
Definition throw {A} : M A := fun w => (Throw, w, [OTypeError]).

(** [m.catch(h)] / [.then(m).catch(h)]: [h] runs where [m] threw. *)
Definition catch (m h : M unit) : M unit :=
  fun w =>
    match m w with
    | (Ok a, w', o) => (Ok a, w', o)
    | (Throw, w', o) => let '(r, w'', o') := h w' in (r, w'', o ++ o')
    end.

Definition out (o : Obs) : M unit := fun w => (Ok tt, w, [o]).
Definition getc {A} (f : Connection -> A) : M A := fun w => (Ok (f (conn w)), w, []).
Definition getp {A} (f : Puck -> A) : M A := fun w => (Ok (f (puck w)), w, []).
Definition modc (f : Connection -> Connection) : M unit :=
  fun w => (Ok tt, {| conn := f (conn w); puck := puck w |}, []).
Definition modp (f : Puck -> Puck) : M unit :=
  fun w => (Ok tt, {| conn := conn w; puck := f (puck w) |}, []).

(** JavaScript's [!x] for [x] a string or [undefined]. *)
Definition falsy (x : option jsstring) : bool :=
  match x with
  | None => true
  | Some [] => true
  | Some (_ :: _) => false
  end.

(** ** The write queue (lines 100 to 133) *)

Definition writeChunk : M unit :=
  q <- getc txDataQueue ;;
  match q with
  | [] => throw                       (* txDataQueue[0] is undefined *)
  | r :: _ =>
    its <- getc items ;;
    match its !! r with
    | None => throw
    | Some txItem =>
      match data txItem with
      | None => throw                 (* undefined.length *)
      | Some d =>
        let short := (length d <=? CHUNKSIZE) in
        let chunk := if short then d else take CHUNKSIZE d in
        modc (set_items (<[r := {| data := if short then None else Some (drop CHUNKSIZE d);
                                   callback := callback txItem |}]> its)) ;;
        modc (set_txInProgress true) ;;
        tx <- getc txCharacteristic ;;
        if tx : bool
        then out (OWriteValue r chunk) ;; modc (fun c => set_pendingTx (pendingTx c ++ [r]) c)
        else throw                    (* undefined.writeValue *)
      end
    end
  end.

Definition connection_write (d : jsstring) (cb : option Cb) : M unit :=
  tx <- getc txCharacteristic ;;
  if negb tx then ret tt else
  its <- getc items ;;
  let r := length its in
  modc (set_items (its ++ [{| data := Some d; callback := cb |}])) ;;
  modc (fun c => set_txDataQueue (txDataQueue c ++ [r]) c) ;;
  out (OPush r d cb) ;;
  ip <- getc txInProgress ;;
  if ip : bool then ret tt else writeChunk.

(** ** The façade's closures (lines 182 to 196 and 203 to 214) *)

(** What [+=] makes of [undefined] on its left. *)
Definition js_undefined : jsstring := [117; 110; 100; 101; 102; 105; 110; 101; 100]%N.

Definition setTimeout (t : Timer) (ms : Z) : M unit :=
  out (OSetTimeout ms) ;; modp (fun p => set_timers (timers p ++ [t]) p).

Definition onWritten (callback : option nat) : M unit :=
  match callback with
  | Some u => setTimeout {| maxTime := 10; timer_callback := u |} 250
  | None =>
    g <- getp connection ;;
    if g : bool then modp (set_received (Some [])) else throw
  end.

Definition timeout (t : Timer) : M unit :=
  g <- getp connection ;;
  if negb g then throw else
  hd <- getp hadData ;;
  (if hd && negb (maxTime t =? 0)%Z
   then setTimeout {| maxTime := maxTime t - 1; timer_callback := timer_callback t |} 250
   else
     rx <- getp received ;;
     out (OUser (timer_callback t) rx) ;;
     modp (set_received (Some []))) ;;
  modp (set_hadData false).

Definition puck_ondata (d : jsstring) : M unit :=
  g <- getp connection ;;
  if negb g then throw else
  modp (fun p => set_received (Some (default js_undefined (received p) ++ d)) p) ;;
  modp (set_hadData true).

Definition puck_connected (d : jsstring) (callback : option nat) (p : bool) : M unit :=
  (if p then ret tt
   else
     modp (set_connection false) ;;
     match callback with
     | None => throw                  (* undefined(null) *)
     | Some u => out (OUser u None)
     end) ;;
  g <- getp connection ;;
  if negb g then throw else          (* undefined.received = "" *)
  modp (set_received (Some [])) ;;
  modc (set_ondata (Some PuckData)) ;;
  connection_write d (Some (OnWritten callback)).

(** ** Calling back *)

(** [txItem.callback()] *)
Definition call_callback (r : nat) (cb : option Cb) : M unit :=
  match cb with
  | None => throw
  | Some c =>
    out (OCallback r c) ;;
    match c with
    | UserCb _ => ret tt
    | OnWritten u => onWritten u
    end
  end.

(** [callback(connection)] and [callback(null)] inside [connect] *)
Definition call_connected (p : bool) : M unit :=
  cb <- getc connect_callback ;;
  out (OConnected p) ;;
  match cb with
  | UserConnCb _ => ret tt
  | PuckConnected d u => puck_connected d u p
  end.

Definition handler_of (evt : Evt) : Connection -> option Handler :=
  match evt with EvOpen => onopen | EvData => ondata | EvClose => onclose end.

(** [connection.emit(evt, data)] *)
Definition emit (evt : Evt) (arg : option jsstring) : M unit :=
  out (OEmit evt arg) ;;
  h <- getc (handler_of evt) ;;
  match h with
  | None => ret tt
  | Some (UserHandler id) => out (OHandler id evt arg)
  | Some PuckData => puck_ondata (default [] arg)
  end.

(** [connection.on(evt, cb)] *)
Definition on (evt : Evt) (h : Handler) : M unit :=
  modc (match evt with
        | EvOpen => set_onopen (Some h)
        | EvData => set_ondata (Some h)
        | EvClose => set_onclose (Some h)
        end).

(** ** [connection.close] (lines 87 to 98) *)

Definition close : M unit :=
  b <- getc btServer ;;
  if b : bool then
    out ODisconnect ;;
    modc (set_btServer false) ;;
    modc (set_txCharacteristic false) ;;
    modc (set_rxCharacteristic false) ;;
    o <- getc isOpen ;;
    if o : bool then modc (set_isOpen false) ;; emit EvClose None
    else call_connected false
  else ret tt.

(** ** The reactions to [writeValue] (lines 118 to 131) *)

Definition tx_then (r : nat) : M unit :=
  its <- getc items ;;
  match its !! r with
  | None => throw
  | Some txItem =>
    (if falsy (data txItem)
     then modc (fun c => set_txDataQueue (tail (txDataQueue c)) c) ;;
          call_callback r (callback txItem)
     else ret tt) ;;
    modc (set_txInProgress false) ;;
    q <- getc txDataQueue ;;
    match q with
    | [] => ret tt
    | _ :: _ => writeChunk
    end
  end.

Definition tx_catch : M unit :=
  modc (set_txDataQueue []) ;; close.

Definition tx_settle (r : nat) (ok : bool) : M unit :=
  out (OAck r ok) ;;
  if ok then catch (tx_then r) tx_catch else tx_catch.

(** ** The promise chain of [connect] (lines 135 to 174)

    One reaction per awaited request.  The reactions at lines 162 and 165
    follow each other with no request in between and are one step. *)

Definition chain_then (st : Stage) : M unit :=
  match st with
  | AwaitDevice =>
    modc (set_disconnectListener true) ;; modc (set_stage AwaitGatt)
  | AwaitGatt =>
    modc (set_btServer true) ;; modc (set_stage AwaitService)
  | AwaitService =>
    modc (set_btService true) ;; modc (set_stage AwaitRx)
  | AwaitRx =>
    modc (set_rxCharacteristic true) ;; modc (set_valueListener true) ;;
    modc (set_stage AwaitNotify)
  | AwaitNotify => modc (set_stage AwaitTx)
  | AwaitTx =>
    modc (set_stage Settled) ;;
    modc (set_txCharacteristic true) ;;
    modc (set_txDataQueue []) ;;
    modc (set_txInProgress false) ;;
    modc (set_isOpen true) ;;
    call_connected true ;;
    emit EvOpen None
  | Settled => ret tt
  end.

Definition chain_catch : M unit :=
  modc (set_stage Settled) ;; close.

Definition chain_settle (ok : bool) : M unit :=
  st <- getc stage ;;
  match st with
  | Settled => ret tt
  | _ => if ok then catch (chain_then st) chain_catch else chain_catch
  end.

(** [connect(callback)]: the state when [connect] returns, the device
    request pending. *)
Definition connect (callback : ConnCb) (p : Puck) : World :=
  {| conn := {| isOpen := false; onopen := None; ondata := None; onclose := None;
                connect_callback := callback;
                btServer := false; btService := false;
                txCharacteristic := false; rxCharacteristic := false;
                txDataQueue := []; txInProgress := false; items := [];
                stage := AwaitDevice; disconnectListener := false;
                valueListener := false; pendingTx := [] |};
     puck := p |}.

(** ** One event *)

Definition handle (e : Event) : M unit :=
  match e with
  | EWrite d cb => connection_write d (UserCb <$> cb)
  | EClose => close
  | EOn evt id => on evt (UserHandler id)
  | EGattDisconnected =>
    l <- getc disconnectListener ;;
    if l : bool then close else ret tt
  | ENotify value =>
    l <- getc valueListener ;;
    if l : bool then emit EvData (Some (ab2str value)) else ret tt
  | EChain ok => chain_settle ok
  | ETx k ok =>
    p <- getc pendingTx ;;
    match p !! k with
    | None => ret tt
    | Some r => modc (set_pendingTx (delete k p)) ;; tx_settle r ok
    end
  | EPuck d cb =>
    g <- getp connection ;;
    o <- getc isOpen ;;
    if g && o
    then modp (set_received (Some [])) ;; connection_write d (Some (OnWritten cb))
    else ret tt
  | ETimer k =>
    ts <- getp timers ;;
    match ts !! k with
    | None => ret tt
    | Some t => modp (set_timers (delete k ts)) ;; timeout t
    end
  end.

Definition step (e : Event) (w : World) : World * list Obs :=
  match handle e w with
  | (Ok _, w', o) => (w', o)
  | (Throw, w', o) => (w', o ++ [OUncaught])
  end.

Definition run_from (st : World * list Obs) (es : list Event) : World * list Obs :=
  fold_left (fun st e => let '(w', o) := step e (fst st) in (w', snd st ++ o)) es st.

Definition run (w : World) (es : list Event) : World * list Obs := run_from (w, []) es.

Definition idle : Puck :=
  {| connection := false; received := None; hadData := false; timers := [] |}.

(** [Puck.write(data, callback)] (lines 181 to 215), seen from the
    connection the façade holds: with an open connection it is the event
    [EPuck]; otherwise it replaces the connection by a new one, an object
    on which neither [received] nor [hadData] is assigned yet.  The timers
    armed before stay armed: their closure reads the variable
    [connection], hence the new object. *)
Definition Puck_write (d : jsstring) (callback : option nat) (w : World) : World * list Obs :=
  if connection (puck w) && isOpen (conn w)
  then step (EPuck d callback) w
  else (connect (PuckConnected d callback)
                (set_connection true (set_received None (set_hadData false (puck w)))), []).

(** The events of a negotiation in which every request succeeds. *)
Definition opening : list Event := replicate 6 (EChain true).


(** ** Chunking

    The chunks [writeChunk] takes from one payload, in order: the branch of
    lines 109 to 115, repeated until [data] is [undefined]. *)
Equations? splitIntoChunks (d : jsstring) : list jsstring by wf (length d) lt :=
  splitIntoChunks d with decide (length d <= CHUNKSIZE) := {
    | left _ := [d];
    | right _ := take CHUNKSIZE d :: splitIntoChunks (drop CHUNKSIZE d) }.
Proof. rewrite length_drop. unfold CHUNKSIZE in *. lia. Qed.


(** ** What a reaction establishes

    [wp m w Q]: run from [w], the reaction [m] ends with a result, a world
    and observations that satisfy [Q]. *)
Definition wp {A} (m : M A) (w : World) (Q : Res A -> World -> list Obs -> Prop) : Prop :=
  Q (m w).1.1 (m w).1.2 (m w).2.

(** ** Reading a trace *)

(** The chunks handed to [writeValue] for the request [r], in order. *)
Fixpoint written (r : nat) (tr : list Obs) : list jsstring :=
  match tr with
  | [] => []
  | OWriteValue r' c :: tr' => if decide (r' = r) then c :: written r tr' else written r tr'
  | _ :: tr' => written r tr'
  end.

(** All chunks handed to [writeValue], in order. *)
Fixpoint chunks_of (tr : list Obs) : list jsstring :=
  match tr with
  | [] => []
  | OWriteValue _ c :: tr' => c :: chunks_of tr'
  | _ :: tr' => chunks_of tr'
  end.

(** A connection just opened by the user's [connect(f)]. *)
Definition opened : World :=
  {| conn := {| isOpen := true; onopen := None; ondata := None; onclose := None;
                connect_callback := UserConnCb 0;
                btServer := true; btService := true;
                txCharacteristic := true; rxCharacteristic := true;
                txDataQueue := []; txInProgress := false; items := [];
                stage := Settled; disconnectListener := true;
                valueListener := true; pendingTx := [] |};
     puck := idle |}.

(** The chunk [writeChunk] takes from [d], and what it leaves in
    [txItem.data]. *)
Definition first_chunk (d : jsstring) : jsstring :=
  if length d <=? CHUNKSIZE then d else take CHUNKSIZE d.

Definition after_chunk (d : jsstring) : option jsstring :=
  if length d <=? CHUNKSIZE then None else Some (drop CHUNKSIZE d).

(** [connection.write(d, u)] on [opened], every [writeValue] succeeding:
    the events, and what the transport is handed. *)
Definition write_events (d : jsstring) (u : option nat) : list Event :=
  EWrite d u :: replicate (S (length d)) (ETx 0 true).

Definition emitted (d : jsstring) : list jsstring :=
  chunks_of (snd (run opened (write_events d (Some 0)))).

(** The worlds [opened] goes through meanwhile: a chunk in flight and
    [rem] left in [txItem.data]; then idle again, or closed by the
    [catch] of line 127. *)
Definition draining (u : option nat) (rem : option jsstring) : World :=
  {| conn := {| isOpen := true; onopen := None; ondata := None; onclose := None;
                connect_callback := UserConnCb 0;
                btServer := true; btService := true;
                txCharacteristic := true; rxCharacteristic := true;
                txDataQueue := [0]; txInProgress := true;
                items := [{| data := rem; callback := UserCb <$> u |}];
                stage := Settled; disconnectListener := true;
                valueListener := true; pendingTx := [0] |};
     puck := idle |}.

Definition drained (u : option nat) : World :=
  match u with
  | Some _ =>
    {| conn := {| isOpen := true; onopen := None; ondata := None; onclose := None;
                  connect_callback := UserConnCb 0;
                  btServer := true; btService := true;
                  txCharacteristic := true; rxCharacteristic := true;
                  txDataQueue := []; txInProgress := false;
                  items := [{| data := None; callback := UserCb <$> u |}];
                  stage := Settled; disconnectListener := true;
                  valueListener := true; pendingTx := [] |};
       puck := idle |}
  | None =>
    {| conn := {| isOpen := false; onopen := None; ondata := None; onclose := None;
                  connect_callback := UserConnCb 0;
                  btServer := false; btService := true;
                  txCharacteristic := false; rxCharacteristic := false;
                  txDataQueue := []; txInProgress := true;
                  items := [{| data := None; callback := None |}];
                  stage := Settled; disconnectListener := true;
                  valueListener := true; pendingTx := [] |};
       puck := idle |}
  end.

(** What the reaction to the last acknowledgement does. *)
Definition finish (u : option nat) : list Obs :=
  match u with
  | Some i => [OAck 0 true; OCallback 0 (UserCb i)]
  | None => [OAck 0 true; OTypeError; ODisconnect; OEmit EvClose None]
  end.

(** What the reactions to the acknowledgements before do. *)
Definition sending (rem : option jsstring) : list Obs :=
  match rem with
  | None => []
  | Some x => flat_map (fun c => [OAck 0 true; OWriteValue 0 c]) (splitIntoChunks x)
  end.

(** ** The façade's wait for the response *)

(** The calls of the façade caller's [callback], with their argument. *)
Fixpoint users (tr : list Obs) : list (nat * option jsstring) :=
  match tr with
  | [] => []
  | OUser u arg :: tr' => (u, arg) :: users tr'
  | _ :: tr' => users tr'
  end.

(** One window of 250 ms: the notifications [vs] arrive, then the timer
    fires.  A poll is a sequence of windows. *)
Definition window_events (vs : list (list N)) : list Event :=
  map ENotify vs ++ [ETimer 0].

Definition poll_events (ws : list (list (list N))) : list Event :=
  concat (map window_events ws).

(** [connection.hadData] when the timer fires: it was set before the
    window, or a notification arrived in it. *)
Definition heard (h : bool) (vs : list (list N)) : bool :=
  h || negb (bool_decide (vs = [])).

Fixpoint heard_all (h : bool) (ws : list (list (list N))) : bool :=
  match ws with
  | [] => true
  | vs :: ws' => heard h vs && heard_all false ws'
  end.

(** [h] at the start of the window after [ws]. *)
Definition flag_after (h : bool) (ws : list (list (list N))) : bool :=
  match ws with [] => h | _ :: _ => false end.

(** The façade waits for the response to one [write(data, u)]: one timer
    is armed with [m] left in [maxTime], the receive buffer holds [buf],
    the had-data flag is [h], and notifications reach the façade. *)
Record polling (w : World) (u : nat) (buf : jsstring) (h : bool) (m : Z) : Prop := {
  polling_connection : connection (puck w) = true;
  polling_timers : timers (puck w) = [{| maxTime := m; timer_callback := u |}];
  polling_received : received (puck w) = Some buf;
  polling_hadData : hadData (puck w) = h;
  polling_ondata : ondata (conn w) = Some PuckData;
  polling_listener : valueListener (conn w) = true
}.

(** The façade has delivered and waits for nothing. *)
Record delivered (w : World) : Prop := {
  delivered_timers : timers (puck w) = [];
  delivered_received : received (puck w) = Some [];
  delivered_hadData : hadData (puck w) = false
}.

(** ** Negotiation and closing *)

(** The arguments of the calls of [connect]'s [callback]: [true] for the
    connection, [false] for [null]. *)
Fixpoint connecteds (tr : list Obs) : list bool :=
  match tr with
  | [] => []
  | OConnected c :: tr' => c :: connecteds tr'
  | _ :: tr' => connecteds tr'
  end.

(** How often [evt] was emitted. *)
Fixpoint emits (evt : Evt) (tr : list Obs) : nat :=
  match tr with
  | [] => 0
  | OEmit evt' _ :: tr' =>
    (if decide (evt' = evt) then 1 else 0) + emits evt tr'
  | _ :: tr' => emits evt tr'
  end.

(** The negotiation is over and no GATT session is held: the state
    [close] leaves behind. *)
Record dead (c : Connection) : Prop := {
  dead_stage : stage c = Settled;
  dead_btServer : btServer c = false;
  dead_txCharacteristic : txCharacteristic c = false;
  dead_isOpen : isOpen c = false
}.

(** ** Kinds of observations *)

(** Observations that count for none of the properties below: the calls
    of handlers and of the façade caller's function, timers, exceptions. *)
Definition silent (o : Obs) : bool :=
  match o with
  | OHandler _ _ _ | OUser _ _ | OSetTimeout _ | OTypeError | OUncaught => true
  | _ => false
  end.

(** Observations that do not concern the write queue. *)
Definition quiet (o : Obs) : bool :=
  match o with
  | OPush _ _ _ | OWriteValue _ _ | OAck _ _ | OCallback _ _ => false
  | _ => true
  end.

(** The connection after the body of [close] (lines 89 to 94). *)
Definition closed_conn (c : Connection) : Connection :=
  set_isOpen false
    (set_rxCharacteristic false (set_txCharacteristic false (set_btServer false c))).

(** The connection after [txDataQueue.push] for a new request. *)
Definition pushed_conn (d : jsstring) (cb : option Cb) (c : Connection) : Connection :=
  set_txDataQueue (txDataQueue c ++ [length (items c)])
    (set_items (items c ++ [{| data := Some d; callback := cb |}]) c).

(** The connection after [writeChunk] took a chunk of [d] from the item
    [r], before [writeValue] is called. *)
Definition chunked_conn (r : nat) (d : jsstring) (cb : option Cb) (c : Connection) : Connection :=
  set_txInProgress true
    (set_items (<[r := {| data := after_chunk d; callback := cb |}]> (items c)) c).

(** ... and after [writeValue] returned its promise. *)
Definition sent_conn (r : nat) (d : jsstring) (cb : option Cb) (c : Connection) : Connection :=
  set_pendingTx (pendingTx c ++ [r]) (chunked_conn r d cb c).

(** ** The write queue and its trace *)

(** The requests pushed, in order. *)
Fixpoint pushed (tr : list Obs) : list nat :=
  match tr with
  | [] => []
  | OPush r _ _ :: tr' => r :: pushed tr'
  | _ :: tr' => pushed tr'
  end.

(** How many chunks of [r] the transport reported written, how many it
    reported failed, and the calls of the callback of [r]. *)
Fixpoint acks (r : nat) (tr : list Obs) : nat :=
  match tr with
  | [] => 0
  | OAck r' true :: tr' => (if decide (r' = r) then 1 else 0) + acks r tr'
  | _ :: tr' => acks r tr'
  end.

Fixpoint nacks (r : nat) (tr : list Obs) : nat :=
  match tr with
  | [] => 0
  | OAck r' false :: tr' => (if decide (r' = r) then 1 else 0) + nacks r tr'
  | _ :: tr' => nacks r tr'
  end.

Fixpoint callbacks (r : nat) (tr : list Obs) : list Cb :=
  match tr with
  | [] => []
  | OCallback r' c :: tr' => if decide (r' = r) then c :: callbacks r tr' else callbacks r tr'
  | _ :: tr' => callbacks r tr'
  end.

(** The chunks still to take from a [txItem.data]. *)
Definition rest (rem : option jsstring) : list jsstring :=
  match rem with
  | None => []
  | Some x => splitIntoChunks x
  end.

(** What the write queue reads of a connection. *)
Record QV := {
  vq : list nat;
  vp : list nat;
  vip : bool;
  vitems : list TxItem;
  vstage : Stage;
  vtx : bool
}.

Definition qv (c : Connection) : QV :=
  {| vq := txDataQueue c; vp := pendingTx c; vip := txInProgress c;
     vitems := items c; vstage := stage c; vtx := txCharacteristic c |}.

(** The observations [o] say nothing about the request [r]. *)
Definition untouched (r : nat) (o : list Obs) : Prop :=
  written r o = [] /\ acks r o = 0 /\ nacks r o = 0 /\ callbacks r o = [].

(** A queued request no chunk of which has been taken. *)
Definition fresh (its : list TxItem) (tr : list Obs) (r : nat) : Prop :=
  exists d cb,
    OPush r d cb ∈ tr /\
    its !! r = Some {| data := Some d; callback := cb |} /\
    untouched r tr.

(** The request at the head of the queue with a chunk in flight: all
    chunks handed over so far but the last are acknowledged, and [data]
    holds what is still to send. *)
Definition heading (its : list TxItem) (tr : list Obs) (r : nat) : Prop :=
  exists d cb rem,
    OPush r d cb ∈ tr /\
    its !! r = Some {| data := rem; callback := cb |} /\
    rem <> Some [] /\
    written r tr ++ rest rem = splitIntoChunks d /\
    S (acks r tr) = length (written r tr) /\
    nacks r tr = 0 /\ callbacks r tr = [].

(** Either nothing is in flight, and the queue is empty unless
    [txInProgress] was left set; or the head of the queue is in flight. *)
Definition shape (v : QV) (tr : list Obs) : Prop :=
  (vp v = [] /\ (vip v = false -> vq v = []) /\ Forall (fresh (vitems v) tr) (vq v)) \/
  (exists r q', vp v = [r] /\ vq v = r :: q' /\ vip v = true /\
                heading (vitems v) tr r /\ Forall (fresh (vitems v) tr) q').

(** A request that left the queue: sent and acknowledged in full, its
    callback (if any) called once; or dropped with the queue, which leaves
    [txInProgress] set and nothing in flight. *)
Definition finished (tr : list Obs) (r : nat) (d : jsstring) (cb : option Cb) : Prop :=
  written r tr = splitIntoChunks d /\
  acks r tr = length (splitIntoChunks d) /\
  nacks r tr = 0 /\
  callbacks r tr = option_list cb.

Definition abandoned (v : QV) (tr : list Obs) (r : nat) (d : jsstring) : Prop :=
  vp v = [] /\ vip v = true /\
  written r tr `prefix_of` splitIntoChunks d /\
  acks r tr < length (splitIntoChunks d) /\
  callbacks r tr = [].

(** What must hold of the trace [pre] when [x] is observed. *)
Definition allowed (pre : list Obs) (x : Obs) : Prop :=
  match x with
  | OCallback r c =>
    exists d, OPush r d (Some c) ∈ pre /\
              written r pre = splitIntoChunks d /\
              acks r pre = length (splitIntoChunks d) /\
              nacks r pre = 0 /\ callbacks r pre = []
  | OWriteValue r c =>
    (exists d cb, OPush r d cb ∈ pre /\
                  (written r pre ++ [c]) `prefix_of` splitIntoChunks d) /\
    (forall r' d' cb', r' < r -> OPush r' d' cb' ∈ pre ->
                       written r' pre = splitIntoChunks d')
  | _ => True
  end.

Fixpoint monitored (pre tr : list Obs) : Prop :=
  match tr with
  | [] => True
  | x :: tr' => allowed pre x /\ monitored (pre ++ [x]) tr'
  end.

Record QInv (v : QV) (tr : list Obs) : Prop := {
  q_pre : vstage v <> Settled ->
          vtx v = false /\ vitems v = [] /\ vq v = [] /\ vp v = [] /\ vip v = false;
  q_pushed : pushed tr = seq 0 (length (vitems v));
  q_known : forall r, length (vitems v) <= r -> untouched r tr;
  q_sorted : StronglySorted lt (vq v);
  q_shape : shape v tr;
  q_gone : forall r d cb, OPush r d cb ∈ tr -> r ∉ vq v ->
           finished tr r d cb \/ abandoned v tr r d;
  q_mon : monitored [] tr
}.

(** The effects a reaction can have on the write queue. *)
Inductive qtrans : QV -> list Obs -> QV -> Prop :=
| qt_noise v o v' :
    Forall quiet o ->
    vq v' = vq v -> vp v' = vp v -> vip v' = vip v -> vitems v' = vitems v ->
    (vstage v = Settled -> vstage v' = Settled) ->
    (vtx v' = true -> vtx v = true) ->
    qtrans v o v'
| qt_open v :
    vstage v <> Settled ->
    qtrans v []
      {| vq := []; vp := vp v; vip := false; vitems := vitems v;
         vstage := Settled; vtx := true |}
| qt_push v d cb :
    vtx v = true -> vip v = true ->
    qtrans v [OPush (length (vitems v)) d cb]
      {| vq := vq v ++ [length (vitems v)]; vp := vp v; vip := true;
         vitems := vitems v ++ [{| data := Some d; callback := cb |}];
         vstage := vstage v; vtx := true |}
| qt_push_start v d cb :
    vtx v = true -> vip v = false -> vq v = [] -> vp v = [] ->
    qtrans v [OPush (length (vitems v)) d cb;
              OWriteValue (length (vitems v)) (first_chunk d)]
      {| vq := [length (vitems v)]; vp := [length (vitems v)]; vip := true;
         vitems := vitems v ++ [{| data := after_chunk d; callback := cb |}];
         vstage := vstage v; vtx := true |}
| qt_abandon v r ok o v' :
    vp v = [r] ->
    ok = false \/
      (exists rem cb, vitems v !! r = Some {| data := rem; callback := cb |} /\
                      (rem <> None \/ cb = None)) ->
    Forall quiet o ->
    vq v' = [] -> vp v' = [] -> vip v' = true ->
    length (vitems v') = length (vitems v) ->
    vstage v' = vstage v ->
    qtrans v (OAck r ok :: o) v'
| qt_abandon_cb v r c o v' :
    vp v = [r] ->
    vitems v !! r = Some {| data := None; callback := Some c |} ->
    Forall quiet o ->
    vq v' = [] -> vp v' = [] -> vip v' = true ->
    length (vitems v') = length (vitems v) ->
    vstage v' = vstage v ->
    qtrans v (OAck r true :: OCallback r c :: o) v'
| qt_done v r c o :
    vp v = [r] -> vq v = [r] ->
    vitems v !! r = Some {| data := None; callback := Some c |} ->
    Forall quiet o ->
    qtrans v (OAck r true :: OCallback r c :: o)
      {| vq := []; vp := []; vip := false; vitems := vitems v;
         vstage := vstage v; vtx := vtx v |}
| qt_next v r c o r' q'' d' cb' :
    vp v = [r] -> vq v = r :: r' :: q'' ->
    vitems v !! r = Some {| data := None; callback := Some c |} ->
    vitems v !! r' = Some {| data := Some d'; callback := cb' |} ->
    vtx v = true ->
    Forall quiet o ->
    qtrans v (OAck r true :: OCallback r c :: o ++ [OWriteValue r' (first_chunk d')])
      {| vq := r' :: q''; vp := [r']; vip := true;
         vitems := <[r' := {| data := after_chunk d'; callback := cb' |}]> (vitems v);
         vstage := vstage v; vtx := true |}
| qt_more v r x cb :
    vp v = [r] -> hd_error (vq v) = Some r ->
    vitems v !! r = Some {| data := Some x; callback := cb |} ->
    x <> [] ->
    vtx v = true ->
    qtrans v [OAck r true; OWriteValue r (first_chunk x)]
      {| vq := vq v; vp := [r]; vip := true;
         vitems := <[r := {| data := after_chunk x; callback := cb |}]> (vitems v);
         vstage := vstage v; vtx := true |}
| qt_seq v1 o1 v2 o2 v3 :
    qtrans v1 o1 v2 -> qtrans v2 o2 v3 -> qtrans v1 (o1 ++ o2) v3.

(** The request an observation of the write queue is about. *)
Definition subject (x : Obs) : option nat :=
  match x with
  | OWriteValue r _ | OAck r _ | OCallback r _ => Some r
  | _ => None
  end.
(** ** The GATT session *)

(** How often [btServer.disconnect()] was called. *)
Fixpoint disconnects (tr : list Obs) : nat :=
  match tr with
  | [] => 0
  | ODisconnect :: tr' => S (disconnects tr')
  | _ :: tr' => disconnects tr'
  end.

(** The negotiation has gone past [device.gatt.connect()]: [btServer] has
    been assigned, or the chain has ended. *)
Definition past_gatt (s : Stage) : bool :=
  match s with
  | AwaitDevice | AwaitGatt => false
  | _ => true
  end.

(** The connection is closed: it holds no GATT session and none is still
    to come, it is not open and has no TX characteristic. *)
Record Closed (c : Connection) : Prop := {
  closed_btServer : btServer c = false;
  closed_stage : past_gatt (stage c) = true;
  closed_isOpen : isOpen c = false;
  closed_txCharacteristic : txCharacteristic c = false
}.

(** What Web Bluetooth promises of a GATT session that is down, which is
    what [btServer] being [undefined] past the GATT connect stands for: no
    ['characteristicvaluechanged'] is dispatched, and no request of the
    negotiation is fulfilled. *)
Definition admissible (e : Event) (c : Connection) : bool :=
  match e with
  | ENotify _ => btServer c
  | EChain true => negb (past_gatt (stage c)) || btServer c
  | _ => true
  end.

(** The transport keeps that promise all along the events [es]. *)
Fixpoint honest (w : World) (es : list Event) : bool :=
  match es with
  | [] => true
  | e :: es' => admissible e (conn w) && honest (fst (step e w)) es'
  end.

(** How the session and the trace hang together; [h] says whether the
    transport has kept its promise so far. *)
Record SInv (h : bool) (c : Connection) (tr : list Obs) : Prop := {
  s_server : btServer c = true -> past_gatt (stage c) = true;
  s_tx : txCharacteristic c = isOpen c;
  s_open : isOpen c = true -> stage c = Settled;
  s_listen : valueListener c = true -> past_gatt (stage c) = true;
  s_cleared : disconnects tr <> 0 -> btServer c = false /\ past_gatt (stage c) = true;
  s_once : disconnects tr <= 1;
  s_close : emits EvClose tr <= disconnects tr;
  s_opened : emits EvOpen tr <= 1;
  s_negotiating : stage c <> Settled -> emits EvOpen tr = 0 /\ emits EvClose tr = 0;
  s_data : valueListener c = false -> emits EvData tr = 0;
  s_session : h = true -> isOpen c = true -> btServer c = true
}.

(** The write queue has stopped for good: [txInProgress] is set with
    nothing in flight. *)
Definition halted (v : QV) : Prop :=
  vp v = [] /\ vip v = true /\ vstage v = Settled.

(** Observations that are no progress of the write queue. *)
Definition hush (o : Obs) : bool :=
  match o with
  | OWriteValue _ _ | OAck _ _ | OCallback _ _ => false
  | _ => true
  end.

(** ** The façade's [write] when the negotiation fails (lines 203 to 214) *)

(** [Puck.write(d, callback)] with no connection, [n] requests of the
    negotiation fulfilled and the next one rejected. *)
Definition failed_write (n : nat) (d : jsstring) (callback : option nat) : World * list Obs :=
  run (fst (Puck_write d callback (connect (UserConnCb 0) idle)))
      (replicate n (EChain true) ++ [EChain false]).
(** ** Calls of [connect]'s callback *)

(** How often [callback(connection)] and [callback(null)] were called. *)
Fixpoint handed (tr : list Obs) : nat :=
  match tr with
  | [] => 0
  | OConnected true :: tr' => S (handed tr')
  | _ :: tr' => handed tr'
  end.

Fixpoint refused (tr : list Obs) : nat :=
  match tr with
  | [] => 0
  | OConnected false :: tr' => S (refused tr')
  | _ :: tr' => refused tr'
  end.

(** How the calls of [callback] and the events hang together. *)
Record NInv (h : bool) (c : Connection) (tr : list Obs) : Prop := {
  n_handed : handed tr <= 1;
  n_reported : refused tr + emits EvClose tr = disconnects tr;
  n_close : emits EvClose tr <= handed tr;
  n_open : emits EvOpen tr <= handed tr;
  n_isOpen : isOpen c = true -> handed tr = 1;
  n_negotiating : stage c <> Settled -> handed tr = 0;
  n_pending : btServer c = true -> isOpen c = false -> handed tr = 0;
  n_honest : h = true -> handed tr + refused tr <= 1
}.

(** ** [Puck.eval] (line 223) *)

(** ['\x10Bluetooth.print(JSON.stringify('] and ['))\n'], as code units. *)
Definition eval_prefix : jsstring :=
  [16; 66; 108; 117; 101; 116; 111; 111; 116; 104; 46; 112; 114; 105; 110; 116;
   40; 74; 83; 79; 78; 46; 115; 116; 114; 105; 110; 103; 105; 102; 121; 40]%N.

Definition eval_suffix : jsstring := [41; 41; 10]%N.

Definition Puck_eval (expr : jsstring) (cb : option nat) (w : World) : World * list Obs :=
  Puck_write (eval_prefix ++ expr ++ eval_suffix) cb w.

(** ** A façade write from scratch *)

(** The world in which [Puck.write(d, callback)] with no connection has
    started a negotiation. *)
Definition deferred (d : jsstring) (callback : option nat) : World :=
  fst (Puck_write d callback (connect (UserConnCb 0) idle)).

(** The same, every request of the negotiation but the last fulfilled. *)
Definition negotiated (d : jsstring) (callback : option nat) : World :=
  {| conn := {| isOpen := false; onopen := None; ondata := None; onclose := None;
                connect_callback := PuckConnected d callback;
                btServer := true; btService := true;
                txCharacteristic := false; rxCharacteristic := true;
                txDataQueue := []; txInProgress := false; items := [];
                stage := AwaitTx; disconnectListener := true;
                valueListener := true; pendingTx := [] |};
     puck := {| connection := true; received := None; hadData := false; timers := [] |} |}.

(** ** A request in flight *)

(** A chunk of the request [r], the only one queued, is in flight; [rem]
    is what is left in [txItem.data]. *)
Record flying (w : World) (r : nat) (rem : option jsstring) (cbk : option Cb) : Prop := {
  fl_tx : txCharacteristic (conn w) = true;
  fl_pending : pendingTx (conn w) = [r];
  fl_queue : txDataQueue (conn w) = [r];
  fl_item : items (conn w) !! r = Some {| data := rem; callback := cbk |}
}.

(** The write queue is idle. *)
Record resting (w : World) : Prop := {
  re_progress : txInProgress (conn w) = false;
  re_pending : pendingTx (conn w) = [];
  re_queue : txDataQueue (conn w) = []
}.

(** All of a connection that the write queue leaves alone. *)
Definition around (c : Connection) : Connection :=
  set_txDataQueue [] (set_txInProgress false (set_items [] (set_pendingTx [] c))).

(** The acknowledgements of all chunks of [d], and what the transport
    sees of a request [r] with payload [d] meanwhile. *)
Definition acknowledgements (d : jsstring) : list Event :=
  replicate (length (splitIntoChunks d)) (ETx 0 true).

Definition transfer (r : nat) (d : jsstring) : list Obs :=
  OWriteValue r (first_chunk d) ::
  flat_map (fun c => [OAck r true; OWriteValue r c]) (rest (after_chunk d)) ++
  [OAck r true].

(** ** The order of the callbacks *)

(** The requests whose callback was called, in the order of the calls. *)
Fixpoint called (tr : list Obs) : list nat :=
  match tr with
  | [] => []
  | OCallback r _ :: tr' => r :: called tr'
  | _ :: tr' => called tr'
  end.

(** The calls so far are in the order of the pushes, and of requests
    pushed before those still queued. *)
Definition KInv (v : QV) (tr : list Obs) : Prop :=
  StronglySorted lt (called tr) /\
  Forall (fun r => Forall (lt r) (vq v)) (called tr).

(** ** The steps of the negotiation *)

Definition stage_index (s : Stage) : nat :=
  match s with
  | AwaitDevice => 0
  | AwaitGatt => 1
  | AwaitService => 2
  | AwaitRx => 3
  | AwaitNotify => 4
  | AwaitTx => 5
  | Settled => 6
  end.

(** How many requests of the negotiation the events fulfil. *)
Fixpoint fulfilled (es : list Event) : nat :=
  match es with
  | [] => 0
  | EChain true :: es' => S (fulfilled es')
  | _ :: es' => fulfilled es'
  end.

(** ** A callback that calls back into the connection

    The last reaction of the chain (lines 162 to 171), with what the
    function passed to [connect] does while it runs as a parameter: [k]
    is [ret tt] for a function that leaves the connection alone, as the
    transition system has it, and [close] for one that calls
    [connection.close()] before it returns. *)
Definition chain_open (k : M unit) : M unit :=
  modc (set_stage Settled) ;;
  modc (set_txCharacteristic true) ;;
  modc (set_txDataQueue []) ;;
  modc (set_txInProgress false) ;;
  modc (set_isOpen true) ;;
  out (OConnected true) ;;
  k ;;
  emit EvOpen None.

(** ** A request waiting behind another *)

(** A chunk of [r] is in flight while [r'], pushed after it with the
    payload [d'], waits in the queue, no chunk of it taken. *)
Record queued_behind (w : World) (r : nat) (rem : option jsstring) (cbk : option Cb)
       (r' : nat) (d' : jsstring) (cbk' : option Cb) : Prop := {
  qb_tx : txCharacteristic (conn w) = true;
  qb_progress : txInProgress (conn w) = true;
  qb_pending : pendingTx (conn w) = [r];
  qb_queue : txDataQueue (conn w) = [r; r'];
  qb_item : items (conn w) !! r = Some {| data := rem; callback := cbk |};
  qb_next : items (conn w) !! r' = Some {| data := Some d'; callback := cbk' |};
  qb_distinct : r <> r'
}.

(** ** Time and notifications *)

(** The delays of the timers armed, added up.  A timer of the façade is
    armed when the one before fires (or at the flush), so this is the time
    from the flush to the firing of the last timer armed. *)
Fixpoint armed_ms (tr : list Obs) : Z :=
  match tr with
  | [] => 0
  | OSetTimeout ms :: tr' => ms + armed_ms tr'
  | _ :: tr' => armed_ms tr'
  end.

(** How many notifications the events dispatch. *)
Fixpoint notified (es : list Event) : nat :=
  match es with
  | [] => 0
  | ENotify _ :: es' => S (notified es')
  | _ :: es' => notified es'
  end.

(** The last chunk of the request [r] of a [Puck.write(data, u)] is in
    flight: the receive buffer holds [buf], the had-data flag is [h], no
    timer is armed, and notifications reach the façade. *)
Record flushing (w : World) (r u : nat) (buf : jsstring) (h : bool) : Prop := {
  flushing_flying : flying w r None (Some (OnWritten (Some u)));
  flushing_connection : connection (puck w) = true;
  flushing_timers : timers (puck w) = [];
  flushing_received : received (puck w) = Some buf;
  flushing_hadData : hadData (puck w) = h;
  flushing_ondata : ondata (conn w) = Some PuckData;
  flushing_listener : valueListener (conn w) = true
}.
(** * Proofs *)

(** ** Runs *)

Lemma run_from_acc w tr es :
  run_from (w, tr) es = (fst (run w es), tr ++ snd (run w es)).
Proof.
  unfold run. revert w tr. induction es as [|e es IH]; intros w tr; simpl.
  - by rewrite app_nil_r.
  - destruct (step e w) as [w' o]. rewrite (IH w' (tr ++ o)), (IH w' o).
    simpl. by rewrite <- app_assoc.
Qed.

Lemma run_nil w : run w [] = (w, []).
Proof. reflexivity. Qed.

Lemma run_cons w e es :
  run w (e :: es) =
  (fst (run (fst (step e w)) es), snd (step e w) ++ snd (run (fst (step e w)) es)).
Proof.
  unfold run at 1. simpl. destruct (step e w) as [w' o]. simpl.
  apply run_from_acc.
Qed.

Lemma run_app w es1 es2 :
  run w (es1 ++ es2) =
  (fst (run (fst (run w es1)) es2), snd (run w es1) ++ snd (run (fst (run w es1)) es2)).
Proof.
  revert w. induction es1 as [|e es1 IH]; intros w.
  - rewrite run_nil. simpl. by destruct (run w es2).
  - simpl. rewrite !run_cons, IH. simpl. by rewrite <- app_assoc.
Qed.

Lemma run_snoc w es e :
  run w (es ++ [e]) =
  (fst (step e (fst (run w es))), snd (run w es) ++ snd (step e (fst (run w es)))).
Proof.
  rewrite run_app, run_cons, run_nil. simpl. by rewrite app_nil_r.
Qed.

Lemma chunks_of_app t1 t2 : chunks_of (t1 ++ t2) = chunks_of t1 ++ chunks_of t2.
Proof.
  induction t1 as [|o t1 IH]; [done|]. destruct o; simpl; by rewrite ?IH.
Qed.

Lemma written_app r t1 t2 : written r (t1 ++ t2) = written r t1 ++ written r t2.
Proof.
  induction t1 as [|o t1 IH]; [done|].
  destruct o; simpl; rewrite ?IH; try done. by destruct (decide _).
Qed.

(** ** Chunking *)

Lemma splitIntoChunks_short d :
  length d <= CHUNKSIZE -> splitIntoChunks d = [d].
Proof.
  intros H. simp splitIntoChunks.
  destruct (decide _); simp splitIntoChunks; [done|lia].
Qed.

Lemma splitIntoChunks_long d :
  CHUNKSIZE < length d ->
  splitIntoChunks d = take CHUNKSIZE d :: splitIntoChunks (drop CHUNKSIZE d).
Proof.
  intros H. simp splitIntoChunks.
  destruct (decide _); simp splitIntoChunks; [lia|done].
Qed.

Lemma splitIntoChunks_concat d : concat (splitIntoChunks d) = d.
Proof.
  funelim (splitIntoChunks d); simpl.
  - by rewrite app_nil_r.
  - rewrite H. apply take_drop.
Qed.

Lemma splitIntoChunks_bound d :
  Forall (fun c => length c <= CHUNKSIZE) (splitIntoChunks d).
Proof.
  funelim (splitIntoChunks d).
  - constructor; [done|constructor].
  - constructor; [|done]. rewrite length_take. lia.
Qed.

Lemma splitIntoChunks_nonempty d : splitIntoChunks d <> [].
Proof. funelim (splitIntoChunks d); done. Qed.

Lemma splitIntoChunks_full d i c :
  splitIntoChunks d !! i = Some c ->
  S i < length (splitIntoChunks d) ->
  length c = CHUNKSIZE.
Proof.
  revert i. funelim (splitIntoChunks d); intros i Hi Hlt.
  - simpl in Hlt. lia.
  - destruct i as [|i]; simpl in *.
    + inversion Hi. rewrite length_take. lia.
    + eapply H; [done|lia].
Qed.

Lemma str2ab_concat (cs : list jsstring) :
  concat (map str2ab cs) = str2ab (concat cs).
Proof.
  induction cs as [|c cs IH]; [done|]. simpl. rewrite IH.
  unfold str2ab. by rewrite map_app.
Qed.

(** ** A weakest-precondition calculus for reactions *)

Lemma wp_ret {A} (a : A) w Q : Q (Ok a) w [] -> wp (ret a) w Q.
Proof. done. Qed.

Lemma wp_throw {A} w (Q : Res A -> World -> list Obs -> Prop) :
  Q Throw w [OTypeError] -> wp throw w Q.
Proof. done. Qed.

Lemma wp_out o w Q : Q (Ok tt) w [o] -> wp (out o) w Q.
Proof. done. Qed.

Lemma wp_getc {A} (f : Connection -> A) w Q : Q (Ok (f (conn w))) w [] -> wp (getc f) w Q.
Proof. done. Qed.

Lemma wp_getp {A} (f : Puck -> A) w Q : Q (Ok (f (puck w))) w [] -> wp (getp f) w Q.
Proof. done. Qed.

Lemma wp_modc f w Q :
  Q (Ok tt) {| conn := f (conn w); puck := puck w |} [] -> wp (modc f) w Q.
Proof. done. Qed.

Lemma wp_modp f w Q :
  Q (Ok tt) {| conn := conn w; puck := f (puck w) |} [] -> wp (modp f) w Q.
Proof. done. Qed.

Lemma wp_bind {A B} (m : M A) (k : A -> M B) w Q :
  wp m w (fun r w1 o1 =>
    match r with
    | Ok a => wp (k a) w1 (fun r' w2 o2 => Q r' w2 (o1 ++ o2))
    | Throw => Q Throw w1 o1
    end) ->
  wp (bind m k) w Q.
Proof.
  unfold wp, bind. destruct (m w) as [[[a|] w1] o1]; simpl; [|done].
  by destruct (k a w1) as [[r w2] o2].
Qed.

Lemma wp_catch (m h : M unit) w Q :
  wp m w (fun r w1 o1 =>
    match r with
    | Ok a => Q (Ok a) w1 o1
    | Throw => wp h w1 (fun r' w2 o2 => Q r' w2 (o1 ++ o2))
    end) ->
  wp (catch m h) w Q.
Proof.
  unfold wp, catch. destruct (m w) as [[[a|] w1] o1]; simpl; [done|].
  by destruct (h w1) as [[r w2] o2].
Qed.

Lemma wp_mono {A} (m : M A) w (Q Q' : Res A -> World -> list Obs -> Prop) :
  wp m w Q -> (forall r w' o, Q r w' o -> Q' r w' o) -> wp m w Q'.
Proof. unfold wp. auto. Qed.

Lemma wp_bind_assoc {A B C} (m : M A) (k : A -> M B) (k' : B -> M C) w Q :
  wp (bind m (fun a => bind (k a) k')) w Q -> wp (bind (bind m k) k') w Q.
Proof.
  unfold wp, bind. destruct (m w) as [[[a|] w1] o1]; simpl; [|done].
  destruct (k a w1) as [[[b|] w2] o2]; simpl; [|done].
  destruct (k' b w2) as [[r w3] o3]; simpl. by rewrite app_assoc.
Qed.

Lemma wp_bind_ret {A B} (a : A) (k : A -> M B) w Q :
  wp (k a) w Q -> wp (bind (ret a) k) w Q.
Proof. intros H. apply wp_bind, wp_ret. exact H. Qed.

Lemma wp_bind_throw {A B} (k : A -> M B) w Q :
  Q Throw w [OTypeError] -> wp (bind throw k) w Q.
Proof. intros H. apply wp_bind, wp_throw. exact H. Qed.

Lemma wp_bind_out {B} o (k : unit -> M B) w Q :
  wp (k tt) w (fun r w' o' => Q r w' (o :: o')) -> wp (bind (out o) k) w Q.
Proof. intros H. apply wp_bind, wp_out. exact H. Qed.

Lemma wp_bind_getc {A B} (f : Connection -> A) (k : A -> M B) w Q :
  wp (k (f (conn w))) w Q -> wp (bind (getc f) k) w Q.
Proof. intros H. apply wp_bind, wp_getc. exact H. Qed.

Lemma wp_bind_getp {A B} (f : Puck -> A) (k : A -> M B) w Q :
  wp (k (f (puck w))) w Q -> wp (bind (getp f) k) w Q.
Proof. intros H. apply wp_bind, wp_getp. exact H. Qed.

Lemma wp_bind_modc {B} f (k : unit -> M B) w Q :
  wp (k tt) {| conn := f (conn w); puck := puck w |} Q -> wp (bind (modc f) k) w Q.
Proof. intros H. apply wp_bind, wp_modc. exact H. Qed.

Lemma wp_bind_modp {B} f (k : unit -> M B) w Q :
  wp (k tt) {| conn := conn w; puck := f (puck w) |} Q -> wp (bind (modp f) k) w Q.
Proof. intros H. apply wp_bind, wp_modp. exact H. Qed.

(** What [step] does follows from what [handle] does. *)
Lemma wp_step e w (P : World * list Obs -> Prop) :
  wp (handle e) w (fun r w' o =>
    match r with
    | Ok _ => P (w', o)
    | Throw => P (w', o ++ [OUncaught])
    end) ->
  P (step e w).
Proof.
  unfold wp, step. by destruct (handle e w) as [[[a|] w1] o1].
Qed.

(** Symbolic execution.  Reactions are run by the rules above, never by
    unfolding the monad. *)

Arguments wp : simpl never.
Arguments bind : simpl never.
Arguments catch : simpl never.
Arguments ret : simpl never.
Arguments throw : simpl never.
Arguments out : simpl never.
Arguments getc : simpl never.
Arguments getp : simpl never.
Arguments modc : simpl never.
Arguments modp : simpl never.
Arguments writeChunk : simpl never.
Arguments connection_write : simpl never.
Arguments setTimeout : simpl never.
Arguments onWritten : simpl never.
Arguments timeout : simpl never.
Arguments puck_ondata : simpl never.
Arguments puck_connected : simpl never.
Arguments call_callback : simpl never.
Arguments call_connected : simpl never.
Arguments emit : simpl never.
Arguments on : simpl never.
Arguments close : simpl never.
Arguments tx_then : simpl never.
Arguments tx_catch : simpl never.
Arguments tx_settle : simpl never.
Arguments chain_then : simpl never.
Arguments chain_catch : simpl never.
Arguments chain_settle : simpl never.
Arguments handle : simpl never.
Arguments step : simpl never.
Arguments ab2str : simpl never.
Arguments str2ab : simpl never.

Ltac head_of t :=
  lazymatch t with
  | ?f _ => head_of f
  | _ => t
  end.

(** Replace the scrutinee by what a hypothesis says it is, or split. *)
Ltac wp_case x :=
  first
    [ match goal with H : x = _ |- _ => rewrite H end
    | destruct x eqn:? ].

(** Specifications to use instead of unfolding; extended below. *)
Ltac wp_spec := fail.

Ltac wp_unfold m :=
  let h := head_of m in
  unfold h at 1.

Ltac wp_step1 :=
  lazymatch goal with
  | |- wp (bind (bind _ _) _) _ _ => apply wp_bind_assoc
  | |- wp (bind (ret _) _) _ _ => apply wp_bind_ret
  | |- wp (bind throw _) _ _ => apply wp_bind_throw
  | |- wp (bind (out _) _) _ _ => apply wp_bind_out
  | |- wp (bind (getc _) _) _ _ => apply wp_bind_getc
  | |- wp (bind (getp _) _) _ _ => apply wp_bind_getp
  | |- wp (bind (modc _) _) _ _ => apply wp_bind_modc
  | |- wp (bind (modp _) _) _ _ => apply wp_bind_modp
  | |- wp (bind (catch _ _) _) _ _ => apply wp_bind; apply wp_catch
  | |- wp (bind (if ?b then _ else _) _) _ _ => wp_case b
  | |- wp (bind (match ?x with _ => _ end) _) _ _ => wp_case x
  | |- wp (bind ?m _) _ _ => first [ wp_spec | wp_unfold m ]
  | |- wp (ret _) _ _ => apply wp_ret
  | |- wp throw _ _ => apply wp_throw
  | |- wp (out _) _ _ => apply wp_out
  | |- wp (getc _) _ _ => apply wp_getc
  | |- wp (getp _) _ _ => apply wp_getp
  | |- wp (modc _) _ _ => apply wp_modc
  | |- wp (modp _) _ _ => apply wp_modp
  | |- wp (catch _ _) _ _ => apply wp_catch
  | |- wp (if ?b then _ else _) _ _ => wp_case b
  | |- wp (match ?x with _ => _ end) _ _ => wp_case x
  | |- wp ?m _ _ => first [ wp_spec | wp_unfold m ]
  end.

(** Use what is known: rewrite with the equations of the context. *)
Ltac wp_rew :=
  repeat match goal with
         | H : ?a = _ |- context [?a] =>
           first [ is_var a; fail 1 | rewrite H ]
         end.

(** Further rewriting, extended below. *)
Ltac wp_extra := idtac.

Ltac wp_simpl := cbn; wp_rew; wp_extra; cbn.

Ltac wp_run := wp_simpl; repeat (wp_step1; wp_simpl).

(** For reactions whose control flow is determined: unfold and compute. *)
Ltac js_unfold :=
  unfold step, handle, chain_settle, chain_catch, chain_then, tx_settle,
    tx_catch, tx_then, close, on, emit, handler_of, call_connected,
    call_callback, puck_connected, puck_ondata, timeout, onWritten,
    setTimeout, connection_write, writeChunk, catch, bind, ret, throw, out,
    getc, getp, modc, modp.

(** ** One request on a fresh connection *)

Lemma opened_reached : fst (run (connect (UserConnCb 0) idle) opening) = opened.
Proof. vm_compute. reflexivity. Qed.

Lemma step_write_opened d u :
  step (EWrite d u) opened =
  (draining u (after_chunk d),
   [OPush 0 d (UserCb <$> u); OWriteValue 0 (first_chunk d)]).
Proof.
  unfold first_chunk, after_chunk, draining, opened.
  js_unfold. unfold CHUNKSIZE. cbn.
  by destruct (length d <=? 16).
Qed.

Lemma step_ack_draining_some u x :
  x <> [] ->
  step (ETx 0 true) (draining u (Some x)) =
  (draining u (after_chunk x), [OAck 0 true; OWriteValue 0 (first_chunk x)]).
Proof.
  intros Hx. unfold first_chunk, after_chunk, draining.
  destruct x as [|c x]; [done|]. js_unfold. unfold CHUNKSIZE. cbn.
  by destruct (length x <=? 15).
Qed.

Lemma step_ack_draining_none u :
  step (ETx 0 true) (draining u None) = (drained u, finish u).
Proof. destruct u; vm_compute; reflexivity. Qed.

Lemma step_ack_drained u : step (ETx 0 true) (drained u) = (drained u, []).
Proof. destruct u; vm_compute; reflexivity. Qed.

Lemma run_drained u n : run (drained u) (replicate n (ETx 0 true)) = (drained u, []).
Proof.
  induction n as [|n IH]; [done|]. cbn [replicate].
  rewrite run_cons, step_ack_drained. cbn [fst snd]. by rewrite IH.
Qed.

Lemma splitIntoChunks_first d :
  splitIntoChunks d = first_chunk d :: match after_chunk d with
                                       | None => []
                                       | Some x => splitIntoChunks x
                                       end.
Proof.
  unfold first_chunk, after_chunk. destruct (Nat.leb_spec (length d) CHUNKSIZE).
  - by apply splitIntoChunks_short.
  - by apply splitIntoChunks_long.
Qed.

Lemma after_chunk_nonempty d x : after_chunk d = Some x -> x <> [].
Proof.
  unfold after_chunk. destruct (Nat.leb_spec (length d) CHUNKSIZE); [done|].
  intros [= <-]. intros Hx. apply (f_equal length) in Hx. rewrite length_drop in Hx.
  simpl in Hx. lia.
Qed.

Lemma after_chunk_length d x : after_chunk d = Some x -> length x < length d.
Proof.
  unfold after_chunk. destruct (Nat.leb_spec (length d) CHUNKSIZE); [done|].
  intros [= <-]. rewrite length_drop. unfold CHUNKSIZE in *. lia.
Qed.

Lemma after_chunk_not_empty d : after_chunk d <> Some [].
Proof. intros H. by apply after_chunk_nonempty in H. Qed.

(** With enough acknowledgements the rest of the payload is sent, chunk by
    chunk, and the request finishes. *)
Lemma run_draining u n rem :
  rem <> Some [] ->
  match rem with None => 0 | Some x => length x end < n ->
  run (draining u rem) (replicate n (ETx 0 true)) =
  (drained u, sending rem ++ finish u).
Proof.
  revert rem. induction n as [|n IH]; intros rem Hrem Hn; [lia|].
  cbn [replicate]. rewrite run_cons. destruct rem as [x|].
  - rewrite step_ack_draining_some by congruence. cbn [fst snd sending].
    rewrite (splitIntoChunks_first x). cbn [flat_map app].
    rewrite IH.
    + cbn [fst snd]. unfold sending. by destruct (after_chunk x).
    + apply after_chunk_not_empty.
    + destruct (after_chunk x) as [y|] eqn:E.
      * apply after_chunk_length in E. clear -E Hn. lia.
      * destruct x; [done|]. cbn [length] in Hn. clear -Hn. lia.
  - rewrite step_ack_draining_none. cbn [fst snd sending app].
    by rewrite run_drained, app_nil_r.
Qed.

Lemma run_write_opened d u :
  run opened (write_events d u) =
  (drained u,
   OPush 0 d (UserCb <$> u) ::
   OWriteValue 0 (first_chunk d) :: sending (after_chunk d) ++ finish u).
Proof.
  unfold write_events. rewrite run_cons, step_write_opened. cbn [fst snd app].
  rewrite run_draining; [done|apply after_chunk_not_empty|].
  destruct (after_chunk d) as [y|] eqn:E; [|lia].
  apply after_chunk_length in E. lia.
Qed.

Lemma chunks_of_sending rem :
  chunks_of (sending rem) = match rem with None => [] | Some x => splitIntoChunks x end.
Proof.
  destruct rem as [x|]; [|done]. cbn [sending].
  induction (splitIntoChunks x) as [|c cs IH]; [done|].
  cbn [flat_map app chunks_of]. by rewrite IH.
Qed.

Lemma chunks_of_write_opened d u :
  chunks_of (snd (run opened (write_events d u))) = splitIntoChunks d.
Proof.
  rewrite run_write_opened. cbn [snd chunks_of].
  rewrite chunks_of_app, chunks_of_sending, (splitIntoChunks_first d).
  destruct u; cbn; by rewrite app_nil_r.
Qed.

Lemma emitted_split d : emitted d = splitIntoChunks d.
Proof. apply chunks_of_write_opened. Qed.

(** C5. Chunking is lossless and bounded: for every payload [d], the chunks
    handed to the transport when [d] is written on an open connection and
    every write succeeds concatenate, in order of emission, to [d]; every
    chunk has at most 16 code units, hence [str2ab] makes at most 16 bytes
    of it; and every chunk but the last has exactly 16.  The bytes handed
    over concatenate to the bytes of [d]. *)
Theorem chunking_lossless_and_bounded (d : jsstring) :
  concat (emitted d) = d /\
  Forall (fun c => length (str2ab c) <= 16) (emitted d) /\
  (forall i c, emitted d !! i = Some c -> S i < length (emitted d) ->
               length (str2ab c) = 16) /\
  concat (map str2ab (emitted d)) = str2ab d.
Proof.
  rewrite emitted_split. split_and!.
  - apply splitIntoChunks_concat.
  - eapply List.Forall_impl; [|exact (splitIntoChunks_bound d)].
    intros c Hc. unfold str2ab. by rewrite length_map.
  - intros i c Hi Hlt. unfold str2ab. rewrite length_map.
    by eapply splitIntoChunks_full.
  - by rewrite str2ab_concat, splitIntoChunks_concat.
Qed.

(** C9, where the code departs from it.  [connection.write(d)] without
    a callback on an open connection: every chunk of [d] is handed to the
    transport, and when the last one is acknowledged [txItem.callback()]
    throws a TypeError inside the reaction; the [catch] of line 127 takes
    it for a failed write, empties the queue and closes the connection. *)
Theorem write_without_callback_faults (d : jsstring) :
  let w := fst (run opened (write_events d None)) in
  let tr := snd (run opened (write_events d None)) in
  chunks_of tr = splitIntoChunks d /\
  (exists pre, tr = pre ++ [OAck 0 true; OTypeError; ODisconnect; OEmit EvClose None]) /\
  isOpen (conn w) = false /\
  txCharacteristic (conn w) = false.
Proof.
  cbn zeta. split; [apply chunks_of_write_opened|].
  rewrite run_write_opened. cbn [fst snd finish]. split_and!; [|done|done].
  eexists (_ :: _ :: _). cbn [app]. reflexivity.
Qed.

(** ** The quiescence poll *)

Lemma users_app t1 t2 : users (t1 ++ t2) = users t1 ++ users t2.
Proof.
  induction t1 as [|o t1 IH]; [done|]. destruct o; simpl; by rewrite ?IH.
Qed.

Lemma ab2str_id v : ab2str v = v.
Proof. unfold ab2str. apply map_id. Qed.

Lemma step_notify_polling w u buf h m v :
  polling w u buf h m ->
  polling (fst (step (ENotify v) w)) u (buf ++ v) true m /\
  users (snd (step (ENotify v) w)) = [].
Proof.
  intros [Hc Ht Hr Hh Ho Hl].
  apply (wp_step _ w (fun x => polling (fst x) u (buf ++ v) true m /\ users (snd x) = [])).
  unfold handle. wp_run. rewrite ab2str_id. split; [|done].
  constructor; cbn; done.
Qed.

Lemma run_notify_polling w u buf h m vs :
  polling w u buf h m ->
  polling (fst (run w (map ENotify vs))) u (buf ++ concat vs) (heard h vs) m /\
  users (snd (run w (map ENotify vs))) = [].
Proof.
  revert w buf h. induction vs as [|v vs IH]; intros w buf h Hp.
  - simpl. rewrite app_nil_r. unfold heard. rewrite bool_decide_eq_true_2 by done.
    by rewrite orb_false_r.
  - cbn [map concat]. rewrite run_cons. cbn [fst snd].
    destruct (step_notify_polling w u buf h m v Hp) as [Hp' Hu].
    destruct (IH _ _ _ Hp') as [Hp'' Hu']. rewrite users_app, Hu, Hu'. split; [|done].
    rewrite <- app_assoc in Hp''. unfold heard in *.
    rewrite bool_decide_eq_false_2 by done. simpl in *.
    by rewrite orb_true_r.
Qed.

Lemma step_timer_polling w u buf h m :
  polling w u buf h m ->
  if h && negb (m =? 0)%Z
  then polling (fst (step (ETimer 0) w)) u buf false (m - 1) /\
       users (snd (step (ETimer 0) w)) = []
  else delivered (fst (step (ETimer 0) w)) /\
       users (snd (step (ETimer 0) w)) = [(u, Some buf)].
Proof.
  intros [Hc Ht Hr Hh Ho Hl].
  apply (wp_step _ w (fun x =>
    if h && negb (m =? 0)%Z
    then polling (fst x) u buf false (m - 1) /\ users (snd x) = []
    else delivered (fst x) /\ users (snd x) = [(u, Some buf)])).
  unfold handle. wp_run.
  - split; [|done]. constructor; cbn; done.
  - split; [|done]. constructor; cbn; done.
Qed.

(** One window. *)
Lemma run_window_polling w u buf h m vs :
  polling w u buf h m ->
  if heard h vs && negb (m =? 0)%Z
  then polling (fst (run w (window_events vs))) u (buf ++ concat vs) false (m - 1) /\
       users (snd (run w (window_events vs))) = []
  else delivered (fst (run w (window_events vs))) /\
       users (snd (run w (window_events vs))) = [(u, Some (buf ++ concat vs))].
Proof.
  intros Hp. unfold window_events. rewrite run_snoc. simpl.
  destruct (run_notify_polling w u buf h m vs Hp) as [Hp' Hu].
  pose proof (step_timer_polling _ _ _ _ _ Hp') as Ht.
  rewrite users_app, Hu. simpl.
  destruct (heard h vs && negb (m =? 0)%Z); done.
Qed.

Lemma poll_events_cons vs ws :
  poll_events (vs :: ws) = window_events vs ++ poll_events ws.
Proof. reflexivity. Qed.

Lemma poll_events_snoc ws vs :
  poll_events (ws ++ [vs]) = poll_events ws ++ window_events vs.
Proof.
  unfold poll_events. rewrite map_app, concat_app. simpl. by rewrite app_nil_r.
Qed.

(** While every window hears data and [maxTime] is not used up, the timer
    is armed again and nothing is delivered. *)
Lemma run_poll_heard ws : forall w u buf h m,
  polling w u buf h m ->
  heard_all h ws = true ->
  (Z.of_nat (length ws) <= m)%Z ->
  polling (fst (run w (poll_events ws))) u (buf ++ concat (concat ws))
          (flag_after h ws) (m - Z.of_nat (length ws)) /\
  users (snd (run w (poll_events ws))) = [].
Proof.
  induction ws as [|vs ws IH]; intros w u buf h m Hp Hh Hm.
  - cbn. rewrite app_nil_r, Z.sub_0_r. done.
  - cbn [heard_all] in Hh. apply andb_true_iff in Hh as [Hv Hws].
    rewrite poll_events_cons, run_app. cbn [fst snd].
    pose proof (run_window_polling w u buf h m vs Hp) as Hw.
    rewrite Hv in Hw. cbn [length] in Hm.
    destruct (m =? 0)%Z eqn:E; [lia|]. cbn [andb negb] in Hw. destruct Hw as [Hp' Hu].
    destruct (IH _ _ _ _ _ Hp' Hws) as [Hp'' Hu'']; [lia|].
    rewrite users_app, Hu, Hu''. split; [|done].
    rewrite <- app_assoc in Hp''.
    replace (m - Z.of_nat (length (vs :: ws)))%Z with (m - 1 - Z.of_nat (length ws))%Z
      by (cbn [length]; lia).
    cbn [concat flag_after]. rewrite concat_app.
    destruct ws; exact Hp''.
Qed.

(** ** After the end *)

Lemma connecteds_app t1 t2 : connecteds (t1 ++ t2) = connecteds t1 ++ connecteds t2.
Proof.
  induction t1 as [|o t1 IH]; [done|]. destruct o; simpl; by rewrite ?IH.
Qed.

Lemma emits_app evt t1 t2 : emits evt (t1 ++ t2) = emits evt t1 + emits evt t2.
Proof.
  induction t1 as [|o t1 IH]; [done|]. destruct o; simpl; rewrite ?IH; lia.
Qed.

Lemma step_dead e w :
  dead (conn w) ->
  dead (conn (fst (step e w))) /\
  connecteds (snd (step e w)) = [] /\
  emits EvOpen (snd (step e w)) = 0 /\
  emits EvClose (snd (step e w)) = 0.
Proof.
  intros [Hs Hb Ht Ho].
  apply (wp_step e w (fun x => dead (conn (fst x)) /\ connecteds (snd x) = [] /\
    emits EvOpen (snd x) = 0 /\ emits EvClose (snd x) = 0)).
  destruct e; unfold handle; wp_run;
    try match goal with evt : Evt |- _ => destruct evt end;
    (split_and!; [constructor|..]; cbn; done).
Qed.

Lemma run_dead es : forall w,
  dead (conn w) ->
  dead (conn (fst (run w es))) /\
  connecteds (snd (run w es)) = [] /\
  emits EvOpen (snd (run w es)) = 0 /\
  emits EvClose (snd (run w es)) = 0.
Proof.
  induction es as [|e es IH]; intros w Hw; [done|].
  rewrite run_cons. cbn [fst snd].
  destruct (step_dead e w Hw) as (Hd & Hc & Ho & Hcl).
  destruct (IH _ Hd) as (Hd' & Hc' & Ho' & Hcl').
  rewrite connecteds_app, !emits_app, Hc, Hc', Ho, Ho', Hcl, Hcl'. done.
Qed.

(** C4, where the code departs from it.  When the device request is
    rejected (no device selected), or the GATT connect is, [connect] never
    calls [callback]: [close] does nothing without a GATT session.  No
    ['open'] is emitted either. *)
Theorem early_failure_never_calls_back (cb : ConnCb) (p : Puck) (es : list Event) :
  let no_device := snd (run (connect cb p) (EChain false :: es)) in
  let no_gatt := snd (run (connect cb p) (EChain true :: EChain false :: es)) in
  connecteds no_device = [] /\ emits EvOpen no_device = 0 /\
  connecteds no_gatt = [] /\ emits EvOpen no_gatt = 0.
Proof.
  cbn zeta. rewrite !run_cons. cbn [fst snd].
  assert (dead (conn (step (EChain false) (connect cb p)).1)) as H1
    by (constructor; reflexivity).
  assert (dead (conn (step (EChain false) (step (EChain true) (connect cb p)).1).1)) as H2
    by (constructor; reflexivity).
  destruct (run_dead es _ H1) as (_ & Hc1 & Ho1 & _).
  destruct (run_dead es _ H2) as (_ & Hc2 & Ho2 & _).
  rewrite !connecteds_app, !emits_app, Hc1, Ho1, Hc2, Ho2. done.
Qed.

(** ** What the reactions do, one by one *)

Ltac wp_intro_res :=
  lazymatch goal with
  | |- match ?r with Ok _ => _ | Throw => _ end =>
    is_var r; destruct r as [[]|]
  end.

Ltac wp_go := wp_run; repeat (wp_intro_res; wp_run).

Lemma wp_puck_ondata d w Q :
  (forall r p' o, Forall silent o -> Q r {| conn := conn w; puck := p' |} o) ->
  wp (puck_ondata d) w Q.
Proof.
  intros H. destruct w as [c p]. cbn in H. unfold puck_ondata. wp_go; apply H; repeat constructor.
Qed.

Lemma wp_onWritten u w Q :
  (forall r p' o, Forall silent o -> Q r {| conn := conn w; puck := p' |} o) ->
  wp (onWritten u) w Q.
Proof.
  intros H. destruct w as [c p]. cbn in H. unfold onWritten. wp_go; apply H; repeat constructor.
Qed.

Lemma wp_emit evt arg w Q :
  (forall r p' o, Forall silent o ->
     Q r {| conn := conn w; puck := p' |} (OEmit evt arg :: o)) ->
  wp (emit evt arg) w Q.
Proof.
  intros H. destruct w as [c p]. cbn in H. unfold emit. wp_go; apply H; repeat constructor.
Qed.

Lemma wp_call_callback r cb w Q :
  (cb = None -> Q Throw w [OTypeError]) ->
  (forall c, cb = Some c -> forall res p' o, Forall silent o ->
     Q res {| conn := conn w; puck := p' |} (OCallback r c :: o)) ->
  wp (call_callback r cb) w Q.
Proof.
  intros H1 H2. destruct w as [c p]. cbn in H2. unfold call_callback. wp_go.
  all: first [ by apply H1 | eapply H2; [reflexivity|repeat constructor] ].
Qed.

Lemma wp_call_connected_false w Q :
  (forall r p' o, Forall silent o ->
     Q r {| conn := conn w; puck := p' |} (OConnected false :: o)) ->
  wp (call_connected false) w Q.
Proof.
  intros H. destruct w as [c p]. cbn in H. unfold call_connected. wp_go; apply H; repeat constructor.
Qed.

Lemma wp_close w Q :
  (btServer (conn w) = false -> Q (Ok tt) w []) ->
  (btServer (conn w) = true -> forall r p' o, Forall silent o ->
     Q r {| conn := closed_conn (conn w); puck := p' |}
       (ODisconnect ::
        (if isOpen (conn w) then OEmit EvClose None else OConnected false) :: o)) ->
  wp close w Q.
Proof.
  intros H1 H2. destruct w as [c p]. destruct c. cbn in H1, H2.
  unfold close. wp_go.
  all: first [ by apply H1 | apply (H2 eq_refl); repeat constructor ].
Qed.

(** ** Traces of the write queue *)

Lemma pushed_app t1 t2 : pushed (t1 ++ t2) = pushed t1 ++ pushed t2.
Proof.
  induction t1 as [|o t1 IH]; [done|]. destruct o; simpl; by rewrite ?IH.
Qed.

Lemma acks_app r t1 t2 : acks r (t1 ++ t2) = acks r t1 + acks r t2.
Proof.
  induction t1 as [|o t1 IH]; [done|].
  destruct o as [| | |? []| | | | | | | |]; simpl; rewrite ?IH; lia.
Qed.

Lemma nacks_app r t1 t2 : nacks r (t1 ++ t2) = nacks r t1 + nacks r t2.
Proof.
  induction t1 as [|o t1 IH]; [done|].
  destruct o as [| | |? []| | | | | | | |]; simpl; rewrite ?IH; lia.
Qed.

Lemma callbacks_app r t1 t2 : callbacks r (t1 ++ t2) = callbacks r t1 ++ callbacks r t2.
Proof.
  induction t1 as [|o t1 IH]; [done|].
  destruct o; simpl; rewrite ?IH; try done. by destruct (decide _).
Qed.

Lemma elem_of_pushed r d cb tr : OPush r d cb ∈ tr -> r ∈ pushed tr.
Proof.
  induction tr as [|o tr IH]; intros H; [by apply elem_of_nil in H|].
  apply elem_of_cons in H as [<-|H]; [by left|].
  destruct o; simpl; try right; by apply IH.
Qed.

Lemma push_unique tr r d1 cb1 d2 cb2 :
  NoDup (pushed tr) ->
  OPush r d1 cb1 ∈ tr -> OPush r d2 cb2 ∈ tr -> d1 = d2 /\ cb1 = cb2.
Proof.
  induction tr as [|o tr IH]; intros Hnd H1 H2; [by apply elem_of_nil in H1|].
  apply elem_of_cons in H1 as [<-|H1]; apply elem_of_cons in H2 as [E|H2].
  - by inversion E.
  - simpl in Hnd. apply NoDup_cons in Hnd as [Hn _].
    by apply elem_of_pushed in H2.
  - subst o. simpl in Hnd. apply NoDup_cons in Hnd as [Hn _].
    by apply elem_of_pushed in H1.
  - apply IH; [|done|done]. destruct o; simpl in Hnd; try done.
    by apply NoDup_cons in Hnd as [_ ?].
Qed.

Lemma untouched_quiet r o : Forall quiet o -> untouched r o.
Proof.
  unfold untouched. induction 1 as [|x o Hx _ IH]; [done|].
  destruct x; simpl in *; done.
Qed.

Lemma pushed_quiet o : Forall quiet o -> pushed o = [].
Proof.
  induction 1 as [|x o Hx _ IH]; [done|]. destruct x; simpl in *; done.
Qed.

Lemma not_push_quiet o r d cb : Forall quiet o -> OPush r d cb ∉ o.
Proof.
  intros H Hin. apply elem_of_pushed in Hin. rewrite pushed_quiet in Hin by done.
  by apply elem_of_nil in Hin.
Qed.

Lemma monitored_app pre t1 t2 :
  monitored pre (t1 ++ t2) <-> monitored pre t1 /\ monitored (pre ++ t1) t2.
Proof.
  revert pre. induction t1 as [|x t1 IH]; intros pre; simpl.
  - rewrite app_nil_r. tauto.
  - rewrite IH, <- app_assoc. simpl. tauto.
Qed.

Lemma monitored_quiet pre o : Forall quiet o -> monitored pre o.
Proof.
  intros H. revert pre. induction H as [|x o Hx _ IH]; intros pre; [done|].
  split; [|apply IH]. destruct x; simpl in *; done.
Qed.

Lemma monitored_split pre tr a x b :
  monitored pre tr -> tr = a ++ x :: b -> allowed (pre ++ a) x.
Proof.
  intros H ->. apply monitored_app in H as [_ H]. simpl in H. tauto.
Qed.

Lemma untouched_app r o1 o2 : untouched r o1 -> untouched r o2 -> untouched r (o1 ++ o2).
Proof.
  unfold untouched. intros (?&?&?&?) (?&?&?&?).
  rewrite written_app, acks_app, nacks_app, callbacks_app.
  repeat split; try congruence; try lia. by rewrite H, H3. by rewrite H2, H6.
Qed.

Lemma fresh_frame its its' tr o r :
  fresh its tr r -> untouched r o -> its' !! r = its !! r -> fresh its' (tr ++ o) r.
Proof.
  intros (d & cb & Hin & Hl & Hu) Hu' E.
  exists d, cb. rewrite E. split_and!; try done.
  - apply elem_of_app. by left.
  - by apply untouched_app.
Qed.

Lemma heading_frame its its' tr o r :
  heading its tr r -> untouched r o -> its' !! r = its !! r -> heading its' (tr ++ o) r.
Proof.
  intros (d & cb & rem & Hin & Hl & Hr & Hw & Ha & Hn & Hc) (Hw' & Ha' & Hn' & Hc') E.
  exists d, cb, rem. rewrite written_app, acks_app, nacks_app, callbacks_app, E.
  rewrite Hn, Hc, Hw', Ha', Hn', Hc', app_nil_r, Nat.add_0_r. split_and!; try done.
  apply elem_of_app. by left.
Qed.

Lemma finished_frame tr o r d cb :
  finished tr r d cb -> untouched r o -> finished (tr ++ o) r d cb.
Proof.
  intros (Hw & Ha & Hn & Hc) (Hw' & Ha' & Hn' & Hc'). unfold finished.
  rewrite written_app, acks_app, nacks_app, callbacks_app.
  rewrite Hw, Ha, Hn, Hc, Hw', Ha', Hn', Hc', !app_nil_r. split_and!; try done; lia.
Qed.

Lemma abandoned_frame v v' tr o r d :
  abandoned v tr r d -> untouched r o -> vp v' = [] -> vip v' = true ->
  abandoned v' (tr ++ o) r d.
Proof.
  intros (_ & _ & Hw & Ha & Hc) (Hw' & Ha' & Hn' & Hc') Hp Hi. unfold abandoned.
  rewrite written_app, acks_app, callbacks_app.
  rewrite Hc, Hw', Ha', Hc', !app_nil_r. split_and!; try done; lia.
Qed.

Lemma Forall_fresh_frame its its' tr o q :
  Forall (fresh its tr) q ->
  (forall r, r ∈ q -> untouched r o /\ its' !! r = its !! r) ->
  Forall (fresh its' (tr ++ o)) q.
Proof.
  intros H Hq. apply Forall_forall. intros r Hr.
  rewrite Forall_forall in H. destruct (Hq r Hr). by apply fresh_frame with its; auto.
Qed.

Lemma rest_nonempty rem : rem <> None -> rest rem <> [].
Proof. destruct rem; [|done]. intros _. apply splitIntoChunks_nonempty. Qed.

Lemma rest_after d : first_chunk d :: rest (after_chunk d) = splitIntoChunks d.
Proof. symmetry. apply splitIntoChunks_first. Qed.

Lemma StronglySorted_lt_head (r : nat) q x :
  StronglySorted lt (r :: q) -> x ∈ q -> r < x.
Proof.
  intros H Hx. apply StronglySorted_inv in H as [_ H].
  rewrite List.Forall_forall in H. apply H. by apply list_elem_of_In.
Qed.

Lemma StronglySorted_lt_snoc q (n : nat) :
  StronglySorted lt q -> (forall x, x ∈ q -> x < n) -> StronglySorted lt (q ++ [n]).
Proof.
  induction q as [|a q IH]; intros Hs Hb; simpl.
  - repeat constructor.
  - apply StronglySorted_inv in Hs as [Hs Ha]. constructor.
    + apply IH; [done|]. intros x Hx. apply Hb. by right.
    + apply List.Forall_app. split; [done|]. constructor; [|constructor].
      apply Hb. by left.
Qed.

Lemma untouched_cons r x o :
  subject x <> Some r -> untouched r o -> untouched r (x :: o).
Proof.
  intros Hx (Hw & Ha & Hn & Hc). unfold untouched.
  destruct x as [| | |? []| | | | | | | |]; simpl in *; try done;
    destruct (decide _); try done; congruence.
Qed.

Lemma untouched_nil r : untouched r [].
Proof. done. Qed.

Lemma prefix_snoc_app {A} (l : list A) x k : (l ++ [x]) `prefix_of` (l ++ x :: k).
Proof. exists k. by rewrite <- app_assoc. Qed.

(** ** The write queue keeps its invariant *)

Lemma QInv_nodup v tr : QInv v tr -> NoDup (pushed tr).
Proof. intros H. rewrite (q_pushed _ _ H). apply NoDup_seq. Qed.

Lemma QInv_pushed_lt v tr r d cb :
  QInv v tr -> OPush r d cb ∈ tr -> r < length (vitems v).
Proof.
  intros H Hin. apply elem_of_pushed in Hin. rewrite (q_pushed _ _ H) in Hin.
  apply elem_of_seq in Hin. lia.
Qed.

Lemma QInv_unique v tr r d1 cb1 d2 cb2 :
  QInv v tr -> OPush r d1 cb1 ∈ tr -> OPush r d2 cb2 ∈ tr -> d1 = d2 /\ cb1 = cb2.
Proof. intros H. apply push_unique. by eapply QInv_nodup. Qed.

Lemma fresh_lt its tr r : fresh its tr r -> r < length its.
Proof. intros (d & cb & _ & Hl & _). by apply lookup_lt_Some in Hl. Qed.

Lemma heading_lt its tr r : heading its tr r -> r < length its.
Proof. intros (d & cb & rem & _ & Hl & _). by apply lookup_lt_Some in Hl. Qed.

Lemma QInv_queue_lt v tr r : QInv v tr -> r ∈ vq v -> r < length (vitems v).
Proof.
  intros H Hr. destruct (q_shape _ _ H) as [(_ & _ & Hf)|(r0 & q' & _ & Hq & _ & Hh & Hf)].
  - rewrite Forall_forall in Hf. eapply fresh_lt, Hf, Hr.
  - rewrite Hq in Hr. apply elem_of_cons in Hr as [->|Hr].
    + by eapply heading_lt.
    + rewrite Forall_forall in Hf. eapply fresh_lt, Hf, Hr.
Qed.

Lemma QInv_noise v tr o v' :
  QInv v tr ->
  Forall quiet o ->
  vq v' = vq v -> vp v' = vp v -> vip v' = vip v -> vitems v' = vitems v ->
  (vstage v = Settled -> vstage v' = Settled) ->
  (vtx v' = true -> vtx v = true) ->
  QInv v' (tr ++ o).
Proof.
  intros H Ho Eq Ep Ei Eit Es Et.
  pose proof (fun r => untouched_quiet r o Ho) as Hu.
  constructor.
  - intros Hs. destruct (q_pre _ _ H) as (?&?&?&?&?); [by intros ?; apply Hs, Es|].
    rewrite Eq, Ep, Ei, Eit. split_and!; try done.
    destruct (vtx v') eqn:E; [|done]. specialize (Et eq_refl). congruence.
  - rewrite pushed_app, (pushed_quiet _ Ho), app_nil_r, Eit. apply (q_pushed _ _ H).
  - intros r Hr. rewrite Eit in Hr. apply untouched_app; [|done].
    by apply (q_known _ _ H).
  - rewrite Eq. apply (q_sorted _ _ H).
  - unfold shape. rewrite Eq, Ep, Ei, Eit.
    destruct (q_shape _ _ H) as [(?&?&Hf)|(r & q' & ? & ? & ? & Hh & Hf)].
    + left. split_and!; try done. eapply Forall_fresh_frame; [done|]. auto.
    + right. exists r, q'. split_and!; try done.
      * by apply heading_frame with (vitems v).
      * eapply Forall_fresh_frame; [done|]. auto.
  - intros r d cb Hin Hr. rewrite Eq in Hr.
    apply elem_of_app in Hin as [Hin|Hin]; [|by apply not_push_quiet in Hin].
    destruct (q_gone _ _ H r d cb Hin Hr) as [Hf|Ha].
    + left. by apply finished_frame.
    + right. eapply (abandoned_frame v v'); [exact Ha|apply Hu| |];
        destruct Ha as (Hp & Hi & _); congruence.
  - apply monitored_app. split; [apply (q_mon _ _ H)|]. by apply monitored_quiet.
Qed.

Lemma QInv_open v tr :
  QInv v tr ->
  vstage v <> Settled ->
  QInv {| vq := []; vp := vp v; vip := false; vitems := vitems v;
          vstage := Settled; vtx := true |} tr.
Proof.
  intros H Hs. destruct (q_pre _ _ H Hs) as (Ht & Hi & Hq & Hp & Hip).
  assert (forall r d cb, OPush r d cb ∉ tr) as Hno.
  { intros r d cb Hin. eapply QInv_pushed_lt in Hin; [|done]. rewrite Hi in Hin.
    simpl in Hin. lia. }
  constructor; simpl.
  - done.
  - apply (q_pushed _ _ H).
  - apply (q_known _ _ H).
  - constructor.
  - left. rewrite Hp. by split_and!.
  - intros r d cb Hin. by apply Hno in Hin.
  - apply (q_mon _ _ H).
Qed.

Lemma untouched_push r n d cb : untouched r [OPush n d cb].
Proof. by repeat split. Qed.

Lemma QInv_push v tr d cb :
  QInv v tr ->
  vtx v = true -> vip v = true ->
  QInv {| vq := vq v ++ [length (vitems v)]; vp := vp v; vip := true;
          vitems := vitems v ++ [{| data := Some d; callback := cb |}];
          vstage := vstage v; vtx := true |}
       (tr ++ [OPush (length (vitems v)) d cb]).
Proof.
  intros H Ht Hi. set (n := length (vitems v)).
  assert (forall r, r ∈ vq v -> r < n) as Hlt by (intros; by eapply QInv_queue_lt).
  assert (forall r, r ∈ vq v ->
            untouched r [OPush n d cb] /\
            (vitems v ++ [{| data := Some d; callback := cb |}]) !! r = vitems v !! r) as Hfr.
  { intros r Hr. split; [apply untouched_push|]. apply lookup_app_l. by apply Hlt. }
  assert (fresh (vitems v ++ [{| data := Some d; callback := cb |}])
                (tr ++ [OPush n d cb]) n) as Hnew.
  { exists d, cb. split_and!.
    - apply elem_of_app. right. by left.
    - by apply list_lookup_middle.
    - apply untouched_app; [|apply untouched_push]. by apply (q_known _ _ H). }
  constructor; simpl.
  - intros Hs. destruct (q_pre _ _ H Hs) as (?&_). congruence.
  - rewrite pushed_app, length_app, (q_pushed _ _ H). simpl.
    by rewrite Nat.add_1_r, seq_S.
  - intros r Hr. rewrite length_app in Hr. simpl in Hr.
    apply untouched_app; [|apply untouched_push]. apply (q_known _ _ H). fold n. lia.
  - apply StronglySorted_lt_snoc; [apply (q_sorted _ _ H)|done].
  - destruct (q_shape _ _ H) as [(Hp & _ & Hf)|(r & q' & Hp & Hq & _ & Hh & Hf)].
    + left. split_and!; [done|done|]. apply Forall_app. split.
      * by eapply Forall_fresh_frame.
      * by repeat constructor.
    + right. exists r, (q' ++ [n]). rewrite Hq in *. split_and!; try done.
      * destruct (Hfr r) as [? ?]; [by left|]. by apply heading_frame with (vitems v).
      * apply Forall_app. split; [|by repeat constructor].
        eapply Forall_fresh_frame; [done|]. intros r0 Hr0. apply Hfr. by right.
  - intros r0 d0 cb0 Hin Hnot.
    apply not_elem_of_app in Hnot as [Hnot Hn].
    apply elem_of_app in Hin as [Hin|Hin].
    + destruct (q_gone _ _ H r0 d0 cb0 Hin Hnot) as [Hf|Ha].
      * left. apply finished_frame; [done|apply untouched_push].
      * right. eapply abandoned_frame; [exact Ha|apply untouched_push| |done].
        by destruct Ha.
    + apply list_elem_of_singleton in Hin. inversion Hin; subst.
      exfalso. apply Hn. by left.
  - apply monitored_app. split; [apply (q_mon _ _ H)|]. by simpl.
Qed.

Lemma QInv_push_start v tr d cb :
  QInv v tr ->
  vtx v = true -> vip v = false -> vq v = [] -> vp v = [] ->
  QInv {| vq := [length (vitems v)]; vp := [length (vitems v)]; vip := true;
          vitems := vitems v ++ [{| data := after_chunk d; callback := cb |}];
          vstage := vstage v; vtx := true |}
       (tr ++ [OPush (length (vitems v)) d cb;
               OWriteValue (length (vitems v)) (first_chunk d)]).
Proof.
  intros H Ht Hi Hq Hp. set (n := length (vitems v)).
  set (o := [OPush n d cb; OWriteValue n (first_chunk d)]).
  destruct (q_known _ _ H n) as (Hw & Ha & Hn & Hc); [done|].
  assert (forall r, r <> n -> untouched r o) as Hu.
  { intros r Hr. apply untouched_cons; [done|].
    apply untouched_cons; [simpl; congruence|done]. }
  assert (forall r0 d0 cb0, OPush r0 d0 cb0 ∈ tr -> r0 <> n /\ finished tr r0 d0 cb0) as Hold.
  { intros r0 d0 cb0 Hin. split.
    - eapply QInv_pushed_lt in Hin; [|done]. fold n in Hin. lia.
    - destruct (q_gone _ _ H r0 d0 cb0 Hin) as [Hf|(_ & Hi' & _)];
        [rewrite Hq; apply not_elem_of_nil|done|congruence]. }
  constructor; simpl.
  - intros Hs. destruct (q_pre _ _ H Hs) as (?&_). congruence.
  - rewrite pushed_app, length_app, (q_pushed _ _ H). simpl.
    by rewrite Nat.add_1_r, seq_S.
  - intros r Hr. rewrite length_app in Hr. simpl in Hr.
    apply untouched_app; [|apply Hu; fold n; lia]. apply (q_known _ _ H). fold n. lia.
  - repeat constructor.
  - right. exists n, []. split_and!; try done.
    exists d, cb, (after_chunk d). split_and!.
    + apply elem_of_app. right. by left.
    + by apply list_lookup_middle.
    + apply after_chunk_not_empty.
    + rewrite written_app, Hw. simpl. rewrite decide_True by done. apply rest_after.
    + rewrite written_app, acks_app, Hw, Ha. simpl. by rewrite decide_True.
    + rewrite nacks_app, Hn. done.
    + rewrite callbacks_app, Hc. done.
  - intros r0 d0 cb0 Hin Hnot. apply not_elem_of_cons in Hnot as [Hne _].
    apply elem_of_app in Hin as [Hin|Hin].
    + left. destruct (Hold _ _ _ Hin). apply finished_frame; [done|by apply Hu].
    + apply elem_of_cons in Hin as [Hin|Hin]; [by inversion Hin|].
      apply list_elem_of_singleton in Hin. done.
  - apply monitored_app. split; [apply (q_mon _ _ H)|]. simpl. split_and!; try done.
    + exists d, cb. split; [apply elem_of_app; right; by left|].
      rewrite written_app, Hw. simpl. rewrite <- rest_after. apply (prefix_snoc_app []).
    + intros r' d' cb' Hlt Hin. rewrite written_app. simpl. rewrite app_nil_r.
      apply elem_of_app in Hin as [Hin|Hin].
      * by destruct (Hold _ _ _ Hin) as [_ (? & _)].
      * apply list_elem_of_singleton in Hin. inversion Hin. fold n in Hlt. lia.
Qed.

(** With a chunk in flight: the head of the queue is its request, and
    every request that left the queue is finished. *)
Lemma QInv_busy v tr r :
  QInv v tr -> vp v = [r] ->
  exists q', vq v = r :: q' /\ vip v = true /\ vstage v = Settled /\
             heading (vitems v) tr r /\ Forall (fresh (vitems v) tr) q' /\
             (forall x, x ∈ q' -> r < x) /\
             (forall r0 d0 cb0, OPush r0 d0 cb0 ∈ tr -> r0 ∉ vq v ->
                                r0 <> r /\ finished tr r0 d0 cb0).
Proof.
  intros H Hp.
  destruct (q_shape _ _ H) as [(Hp' & _)|(r' & q' & Hp' & Hq & Hi & Hh & Hf)];
    [congruence|].
  assert (r' = r) as -> by congruence. exists q'. split_and!; try done.
  - destruct (vstage v) eqn:E; try done;
      (destruct (q_pre _ _ H) as (_&_&_&?&_); [by rewrite E|congruence]).
  - intros x Hx. eapply StronglySorted_lt_head; [|done]. rewrite <- Hq. apply (q_sorted _ _ H).
  - intros r0 d0 cb0 Hin Hnot. split.
    + intros ->. apply Hnot. rewrite Hq. by left.
    + destruct (q_gone _ _ H r0 d0 cb0 Hin Hnot) as [Hf'|(? & _)]; [done|congruence].
Qed.

Lemma untouched_ack_quiet r0 r ok o :
  r0 <> r -> Forall quiet o -> untouched r0 (OAck r ok :: o).
Proof.
  intros Hne Ho. apply untouched_cons; [simpl; congruence|]. by apply untouched_quiet.
Qed.

Lemma heading_prefix its tr r d cb :
  heading its tr r -> NoDup (pushed tr) -> OPush r d cb ∈ tr ->
  written r tr `prefix_of` splitIntoChunks d /\ acks r tr < length (splitIntoChunks d).
Proof.
  intros (d' & cb' & rem & Hin & _ & _ & Hw & Ha & _) Hnd Hin'.
  destruct (push_unique _ _ _ _ _ _ Hnd Hin Hin') as [-> ->].
  split; [by exists (rest rem)|]. rewrite <- Hw, length_app. lia.
Qed.

Lemma fresh_abandoned its tr r d cb o :
  fresh its tr r -> NoDup (pushed tr) -> OPush r d cb ∈ tr -> untouched r o ->
  written r (tr ++ o) `prefix_of` splitIntoChunks d /\
  acks r (tr ++ o) < length (splitIntoChunks d) /\
  callbacks r (tr ++ o) = [].
Proof.
  intros (d' & cb' & Hin & _ & Hw & Ha & Hn & Hc) Hnd Hin' (Hw' & Ha' & Hn' & Hc').
  rewrite written_app, acks_app, callbacks_app, Hw, Ha, Hc, Hw', Ha', Hc'. simpl.
  split_and!; [apply prefix_nil| |done].
  pose proof (splitIntoChunks_nonempty d). destruct (splitIntoChunks d); [done|simpl; lia].
Qed.

Lemma QInv_abandon v tr r ok o v' :
  QInv v tr ->
  vp v = [r] ->
  ok = false \/
    (exists rem cb, vitems v !! r = Some {| data := rem; callback := cb |} /\
                    (rem <> None \/ cb = None)) ->
  Forall quiet o ->
  vq v' = [] -> vp v' = [] -> vip v' = true ->
  length (vitems v') = length (vitems v) ->
  vstage v' = vstage v ->
  QInv v' (tr ++ OAck r ok :: o).
Proof.
  intros H Hp Hwhy Ho Eq Ep Ei El Es.
  destruct (QInv_busy _ _ _ H Hp) as (q' & Hq & Hi & Hst & Hh & Hf & Hlt & Hgone).
  pose proof (QInv_nodup _ _ H) as Hnd.
  pose proof (untouched_quiet r o Ho) as (Hwo & Hao & Hno & Hco).
  constructor.
  - intros Hs. congruence.
  - rewrite pushed_app. simpl. rewrite (pushed_quiet _ Ho), app_nil_r, El.
    apply (q_pushed _ _ H).
  - intros r0 Hr0. rewrite El in Hr0. apply untouched_app; [by apply (q_known _ _ H)|].
    apply untouched_ack_quiet; [|done]. apply heading_lt in Hh. lia.
  - rewrite Eq. constructor.
  - left. rewrite Eq. by split_and!.
  - intros r0 d0 cb0 Hin _.
    apply elem_of_app in Hin as [Hin|Hin];
      [|apply elem_of_cons in Hin as [Hin|Hin]; [done|by apply not_push_quiet in Hin]].
    destruct (decide (r0 = r)) as [->|Hne].
    + destruct Hh as (d & cb & rem & Hin' & Hl & Hrem & Hw & Ha & Hn & Hc).
      destruct (push_unique _ _ _ _ _ _ Hnd Hin Hin') as [-> ->].
      assert (ok = true -> rem = None -> cb = None) as Hcb.
      { intros -> ->. destruct Hwhy as [?|(rem' & cb' & Hl' & [?|?])]; [done| |];
          rewrite Hl in Hl'; inversion Hl'; subst; done. }
      destruct ok, rem as [x|].
      * right. split_and!; try done.
        -- rewrite written_app. simpl. rewrite Hwo, app_nil_r. by exists (rest (Some x)).
        -- rewrite acks_app. simpl. rewrite decide_True, Hao by done.
           rewrite <- Hw, length_app.
           pose proof (rest_nonempty (Some x)) as Hr. destruct (rest (Some x)); [exfalso; by apply Hr|].
           simpl. lia.
        -- rewrite callbacks_app, Hc. simpl. done.
      * left. rewrite (Hcb eq_refl eq_refl) in *. simpl in Hw. rewrite app_nil_r in Hw.
        unfold finished. rewrite written_app, acks_app, nacks_app, callbacks_app. simpl.
        rewrite decide_True, Hwo, Hao, Hno, Hco, Hn, Hc, Hw, app_nil_r by done.
        split_and!; try done. rewrite <- Hw. lia.
      * right. split_and!; try done.
        -- rewrite written_app. simpl. rewrite Hwo, app_nil_r. by exists (rest (Some x)).
        -- rewrite acks_app. simpl. rewrite Hao. rewrite <- Hw, length_app. lia.
        -- rewrite callbacks_app, Hc. simpl. done.
      * right. split_and!; try done.
        -- rewrite written_app. simpl. rewrite Hwo, app_nil_r. by exists (rest None).
        -- rewrite acks_app. simpl. rewrite Hao. rewrite <- Hw, length_app. lia.
        -- rewrite callbacks_app, Hc. simpl. done.
    + destruct (decide (r0 ∈ q')) as [Hin'|Hnin].
      * right. rewrite Forall_forall in Hf.
        destruct (fresh_abandoned _ _ _ _ _ (OAck r ok :: o) (Hf _ Hin') Hnd Hin) as (?&?&?);
          [by apply untouched_ack_quiet|]. by split_and!.
      * left. destruct (Hgone r0 d0 cb0 Hin) as [_ Hfin].
        { rewrite Hq. by intros [?|?]%elem_of_cons. }
        apply finished_frame; [done|]. by apply untouched_ack_quiet.
  - apply monitored_app. split; [apply (q_mon _ _ H)|]. simpl. split; [done|].
    by apply monitored_quiet.
Qed.

(** The last chunk of the head is acknowledged and its callback called. *)
Lemma head_called v tr r c o :
  QInv v tr ->
  vp v = [r] ->
  vitems v !! r = Some {| data := None; callback := Some c |} ->
  Forall quiet o ->
  monitored [] (tr ++ OAck r true :: OCallback r c :: o) /\
  (forall d cb, OPush r d cb ∈ tr ->
                finished (tr ++ OAck r true :: OCallback r c :: o) r d cb) /\
  (forall r0, r0 <> r -> untouched r0 (OAck r true :: OCallback r c :: o)).
Proof.
  intros H Hp Hl Ho.
  destruct (QInv_busy _ _ _ H Hp) as (q' & Hq & Hi & Hst & Hh & Hf & Hlt & Hgone).
  pose proof (QInv_nodup _ _ H) as Hnd.
  pose proof (untouched_quiet r o Ho) as (Hwo & Hao & Hno & Hco).
  destruct Hh as (d & cb & rem & Hin & Hl' & Hrem & Hw & Ha & Hn & Hc).
  rewrite Hl in Hl'. inversion Hl'; subst rem cb. simpl in Hw. rewrite app_nil_r in Hw.
  split_and!.
  - apply monitored_app. split; [apply (q_mon _ _ H)|]. simpl. split_and!; [done| |].
    + exists d. rewrite written_app, acks_app, nacks_app, callbacks_app. simpl.
      rewrite decide_True, Hw, Hn, Hc, app_nil_r by done. split_and!; try done.
      * apply elem_of_app. by left.
      * rewrite <- Hw. lia.
    + by apply monitored_quiet.
  - intros d0 cb0 Hin0. destruct (push_unique _ _ _ _ _ _ Hnd Hin Hin0) as [<- <-].
    unfold finished. rewrite written_app, acks_app, nacks_app, callbacks_app. simpl.
    rewrite !decide_True, Hwo, Hao, Hno, Hco, Hn, Hc, Hw, app_nil_r by done.
    split_and!; try done. rewrite <- Hw. lia.
  - intros r0 Hne. apply untouched_cons; [simpl; congruence|].
    apply untouched_cons; [simpl; congruence|]. by apply untouched_quiet.
Qed.

Lemma QInv_abandon_cb v tr r c o v' :
  QInv v tr ->
  vp v = [r] ->
  vitems v !! r = Some {| data := None; callback := Some c |} ->
  Forall quiet o ->
  vq v' = [] -> vp v' = [] -> vip v' = true ->
  length (vitems v') = length (vitems v) ->
  vstage v' = vstage v ->
  QInv v' (tr ++ OAck r true :: OCallback r c :: o).
Proof.
  intros H Hp Hl Ho Eq Ep Ei El Es.
  destruct (QInv_busy _ _ _ H Hp) as (q' & Hq & Hi & Hst & Hh & Hf & Hlt & Hgone).
  destruct (head_called _ _ _ _ _ H Hp Hl Ho) as (Hmon & Hfin & Hun).
  pose proof (QInv_nodup _ _ H) as Hnd.
  constructor.
  - intros Hs. congruence.
  - rewrite pushed_app. simpl. rewrite (pushed_quiet _ Ho), app_nil_r, El.
    apply (q_pushed _ _ H).
  - intros r0 Hr0. rewrite El in Hr0. apply untouched_app; [by apply (q_known _ _ H)|].
    apply Hun. apply heading_lt in Hh. lia.
  - rewrite Eq. constructor.
  - left. rewrite Eq. by split_and!.
  - intros r0 d0 cb0 Hin _.
    apply elem_of_app in Hin as [Hin|Hin].
    2:{ apply elem_of_cons in Hin as [Hin|Hin]; [done|].
        apply elem_of_cons in Hin as [Hin|Hin]; [done|by apply not_push_quiet in Hin]. }
    destruct (decide (r0 = r)) as [->|Hne]; [left; by apply Hfin|].
    destruct (decide (r0 ∈ q')) as [Hin'|Hnin].
    + right. rewrite Forall_forall in Hf.
      destruct (fresh_abandoned _ _ _ _ _ (OAck r true :: OCallback r c :: o)
                  (Hf _ Hin') Hnd Hin) as (?&?&?); [by apply Hun|]. by split_and!.
    + left. destruct (Hgone r0 d0 cb0 Hin) as [_ Hfin'].
      { rewrite Hq. by intros [?|?]%elem_of_cons. }
      apply finished_frame; [done|]. by apply Hun.
  - done.
Qed.

Lemma QInv_done v tr r c o :
  QInv v tr ->
  vp v = [r] -> vq v = [r] ->
  vitems v !! r = Some {| data := None; callback := Some c |} ->
  Forall quiet o ->
  QInv {| vq := []; vp := []; vip := false; vitems := vitems v;
          vstage := vstage v; vtx := vtx v |}
       (tr ++ OAck r true :: OCallback r c :: o).
Proof.
  intros H Hp Hq1 Hl Ho.
  destruct (QInv_busy _ _ _ H Hp) as (q' & Hq & Hi & Hst & Hh & Hf & Hlt & Hgone).
  destruct (head_called _ _ _ _ _ H Hp Hl Ho) as (Hmon & Hfin & Hun).
  constructor; simpl.
  - intros Hs. congruence.
  - rewrite pushed_app. simpl. rewrite (pushed_quiet _ Ho), app_nil_r.
    apply (q_pushed _ _ H).
  - intros r0 Hr0. apply untouched_app; [by apply (q_known _ _ H)|].
    apply Hun. apply heading_lt in Hh. lia.
  - constructor.
  - left. by split_and!.
  - intros r0 d0 cb0 Hin _.
    apply elem_of_app in Hin as [Hin|Hin].
    2:{ apply elem_of_cons in Hin as [Hin|Hin]; [done|].
        apply elem_of_cons in Hin as [Hin|Hin]; [done|by apply not_push_quiet in Hin]. }
    left. destruct (decide (r0 = r)) as [->|Hne]; [by apply Hfin|].
    destruct (Hgone r0 d0 cb0 Hin) as [_ Hfin'].
    { rewrite Hq1. by intros ?%list_elem_of_singleton. }
    apply finished_frame; [done|]. by apply Hun.
  - done.
Qed.

Lemma untouched_write r0 r c : r0 <> r -> untouched r0 [OWriteValue r c].
Proof. intros Hne. apply untouched_cons; [simpl; congruence|done]. Qed.

Lemma QInv_next v tr r c o r' q'' d' cb' :
  QInv v tr ->
  vp v = [r] -> vq v = r :: r' :: q'' ->
  vitems v !! r = Some {| data := None; callback := Some c |} ->
  vitems v !! r' = Some {| data := Some d'; callback := cb' |} ->
  vtx v = true ->
  Forall quiet o ->
  QInv {| vq := r' :: q''; vp := [r']; vip := true;
          vitems := <[r' := {| data := after_chunk d'; callback := cb' |}]> (vitems v);
          vstage := vstage v; vtx := true |}
       (tr ++ OAck r true :: OCallback r c :: o ++ [OWriteValue r' (first_chunk d')]).
Proof.
  intros H Hp Hq1 Hl Hl' Ht Ho.
  destruct (QInv_busy _ _ _ H Hp) as (q' & Hq & Hi & Hst & Hh & Hf & Hlt & Hgone).
  destruct (head_called _ _ _ _ _ H Hp Hl Ho) as (Hmon & Hfin & Hun).
  pose proof (QInv_nodup _ _ H) as Hnd.
  assert (q' = r' :: q'') as -> by congruence.
  apply Forall_cons in Hf as [Hfr Hf].
  assert (r < r') as Hrr by (apply Hlt; by left).
  pose proof (q_sorted _ _ H) as Hs. rewrite Hq in Hs.
  apply StronglySorted_inv in Hs as [Hs _].
  assert (forall x, x ∈ q'' -> r' < x) as Hlt' by (intros; by eapply StronglySorted_lt_head).
  change (OAck r true :: OCallback r c :: o ++ [OWriteValue r' (first_chunk d')])
    with ((OAck r true :: OCallback r c :: o) ++ [OWriteValue r' (first_chunk d')]).
  set (o1 := OAck r true :: OCallback r c :: o) in *.
  assert (forall r0, r0 <> r -> r0 <> r' ->
            untouched r0 (o1 ++ [OWriteValue r' (first_chunk d')])) as Hun2.
  { intros r0 ? ?. apply untouched_app; [by apply Hun|by apply untouched_write]. }
  destruct Hfr as (d0 & cb0 & Hin0 & Hl0 & Hu0).
  rewrite Hl' in Hl0. inversion Hl0; subst d0 cb0. clear Hl0.
  destruct (Hun r') as (Hw1 & Ha1 & Hn1 & Hc1); [lia|].
  destruct Hu0 as (Hw0 & Ha0 & Hn0 & Hc0).
  assert (r' < length (vitems v)) as Hr' by (by apply lookup_lt_Some in Hl').
  rewrite app_assoc.
  constructor; simpl.
  - intros ?. congruence.
  - rewrite !pushed_app. simpl. rewrite (pushed_quiet _ Ho), !app_nil_r, length_insert.
    apply (q_pushed _ _ H).
  - intros r0 Hr0. rewrite length_insert in Hr0. rewrite <- app_assoc.
    apply untouched_app; [by apply (q_known _ _ H)|].
    apply Hun2; [apply heading_lt in Hh|]; lia.
  - done.
  - right. exists r', q''. split_and!; try done.
    + exists d', cb', (after_chunk d'). split_and!.
      * apply elem_of_app. left. apply elem_of_app. by left.
      * by apply list_lookup_insert_eq.
      * apply after_chunk_not_empty.
      * rewrite !written_app, Hw0, Hw1. simpl. rewrite decide_True by done. apply rest_after.
      * rewrite !written_app, !acks_app, Hw0, Hw1, Ha0, Ha1. simpl.
        by rewrite decide_True.
      * rewrite !nacks_app, Hn0, Hn1. done.
      * rewrite !callbacks_app, Hc0, Hc1. done.
    + rewrite <- app_assoc. eapply Forall_fresh_frame; [done|]. intros x Hx.
      pose proof (Hlt' x Hx). split; [apply Hun2; lia|].
      apply list_lookup_insert_ne. lia.
  - intros r0 d0 cb0 Hin Hnot.
    assert (OPush r0 d0 cb0 ∈ tr) as Hin'.
    { apply elem_of_app in Hin as [Hin|Hin];
        [|by apply list_elem_of_singleton in Hin].
      apply elem_of_app in Hin as [Hin|Hin]; [done|].
      apply elem_of_cons in Hin as [Hin|Hin]; [done|].
      apply elem_of_cons in Hin as [Hin|Hin]; [done|by apply not_push_quiet in Hin]. }
    left. apply not_elem_of_cons in Hnot as [Hne' Hnot].
    apply finished_frame; [|by apply untouched_write].
    destruct (decide (r0 = r)) as [->|Hne]; [by apply Hfin|].
    destruct (Hgone r0 d0 cb0 Hin') as [_ Hfin'].
    { rewrite Hq. intros [?|[?|?]%elem_of_cons]%elem_of_cons; done. }
    apply finished_frame; [done|by apply Hun].
  - apply monitored_app. split; [done|]. simpl. split_and!; try done.
    + exists d', cb'. split; [apply elem_of_app; by left|].
      rewrite written_app, Hw0, Hw1. simpl. rewrite <- rest_after. apply (prefix_snoc_app []).
    + intros r0 d0 cb0 Hlt0 Hin.
      assert (OPush r0 d0 cb0 ∈ tr) as Hin'.
      { apply elem_of_app in Hin as [Hin|Hin]; [done|].
        apply elem_of_cons in Hin as [Hin|Hin]; [done|].
        apply elem_of_cons in Hin as [Hin|Hin]; [done|by apply not_push_quiet in Hin]. }
      destruct (decide (r0 = r)) as [->|Hne]; [by destruct (Hfin _ _ Hin')|].
      destruct (Hgone r0 d0 cb0 Hin') as [_ Hfin'].
      { rewrite Hq. intros [?|[?|Hx]%elem_of_cons]%elem_of_cons; [done|lia|].
        apply Hlt' in Hx. lia. }
      by destruct (finished_frame _ o1 _ _ _ Hfin' (Hun _ Hne)).
Qed.

Lemma QInv_more v tr r x cb :
  QInv v tr ->
  vp v = [r] ->
  vitems v !! r = Some {| data := Some x; callback := cb |} ->
  x <> [] ->
  vtx v = true ->
  QInv {| vq := vq v; vp := [r]; vip := true;
          vitems := <[r := {| data := after_chunk x; callback := cb |}]> (vitems v);
          vstage := vstage v; vtx := true |}
       (tr ++ [OAck r true; OWriteValue r (first_chunk x)]).
Proof.
  intros H Hp Hl Hx Ht.
  destruct (QInv_busy _ _ _ H Hp) as (q' & Hq & Hi & Hst & Hh & Hf & Hlt & Hgone).
  pose proof (QInv_nodup _ _ H) as Hnd.
  set (o := [OAck r true; OWriteValue r (first_chunk x)]).
  assert (forall r0, r0 <> r -> untouched r0 o) as Hun.
  { intros r0 ?. apply untouched_cons; [simpl; congruence|]. by apply untouched_write. }
  destruct Hh as (d & cb0 & rem & Hin & Hl0 & Hrem & Hw & Ha & Hn & Hc).
  rewrite Hl in Hl0. inversion Hl0; subst rem cb0. clear Hl0. simpl in Hw.
  assert (r < length (vitems v)) as Hr by (by apply lookup_lt_Some in Hl).
  constructor; simpl.
  - intros ?. congruence.
  - rewrite pushed_app. simpl. rewrite app_nil_r, length_insert. apply (q_pushed _ _ H).
  - intros r0 Hr0. rewrite length_insert in Hr0.
    apply untouched_app; [by apply (q_known _ _ H)|]. apply Hun. lia.
  - apply (q_sorted _ _ H).
  - right. exists r, q'. split_and!; try done.
    + exists d, cb, (after_chunk x). split_and!.
      * apply elem_of_app. by left.
      * by apply list_lookup_insert_eq.
      * apply after_chunk_not_empty.
      * rewrite written_app. simpl. rewrite decide_True by done.
        rewrite <- app_assoc. simpl. by rewrite rest_after.
      * rewrite written_app, acks_app, length_app. simpl. rewrite !decide_True by done.
        simpl. lia.
      * rewrite nacks_app, Hn. done.
      * rewrite callbacks_app, Hc. done.
    + eapply Forall_fresh_frame; [done|]. intros y Hy. pose proof (Hlt y Hy).
      split; [apply Hun; lia|]. apply list_lookup_insert_ne. lia.
  - intros r0 d0 cb0 Hin0 Hnot.
    assert (OPush r0 d0 cb0 ∈ tr) as Hin'.
    { apply elem_of_app in Hin0 as [?|Hin0]; [done|].
      apply elem_of_cons in Hin0 as [?|Hin0]; [done|].
      by apply list_elem_of_singleton in Hin0. }
    left. destruct (Hgone r0 d0 cb0 Hin' Hnot) as [Hne Hfin].
    apply finished_frame; [done|by apply Hun].
  - apply monitored_app. split; [apply (q_mon _ _ H)|]. simpl. split_and!; try done.
    + exists d, cb. split; [apply elem_of_app; by left|].
      rewrite written_app. simpl. rewrite app_nil_r, <- Hw, <- rest_after.
      apply prefix_snoc_app.
    + intros r0 d0 cb0 Hlt0 Hin0.
      assert (OPush r0 d0 cb0 ∈ tr) as Hin'.
      { apply elem_of_app in Hin0 as [?|Hin0]; [done|].
        by apply list_elem_of_singleton in Hin0. }
      destruct (Hgone r0 d0 cb0 Hin') as [_ Hfin].
      { rewrite Hq. intros [?|Hy]%elem_of_cons; [lia|]. apply Hlt in Hy. lia. }
      rewrite written_app. simpl. rewrite app_nil_r. by destruct Hfin.
Qed.

(** Every effect a reaction can have on the write queue keeps the
    invariant. *)
Lemma QInv_qtrans v o v' :
  qtrans v o v' -> forall tr, QInv v tr -> QInv v' (tr ++ o).
Proof.
  induction 1; intros tr HI.
  - by eapply QInv_noise.
  - rewrite app_nil_r. by apply QInv_open.
  - by apply QInv_push.
  - by apply QInv_push_start.
  - by eapply QInv_abandon.
  - by eapply QInv_abandon_cb.
  - by apply QInv_done.
  - by eapply QInv_next.
  - destruct (QInv_busy _ _ _ HI H) as (q' & Hq & _).
    by apply QInv_more.
  - rewrite app_assoc. auto.
Qed.

(** ** Every reaction is one of the effects on the write queue *)
Lemma silent_quiet o : Forall silent o -> Forall quiet o.
Proof. intros H. eapply Forall_impl; [exact H|]. by intros []. Qed.

Ltac wp_spec ::=
  lazymatch goal with
  | |- wp (bind close _) _ _ =>
    apply wp_bind; apply wp_close; [intros ?Hbt|intros ?Hbt ?r ?p ?o ?Hsil]
  | |- wp close _ _ =>
    apply wp_close; [intros ?Hbt|intros ?Hbt ?r ?p ?o ?Hsil]
  | |- wp (bind (emit _ _) _) _ _ =>
    apply wp_bind; apply wp_emit; intros ?r ?p ?o ?Hsil
  | |- wp (emit _ _) _ _ =>
    apply wp_emit; intros ?r ?p ?o ?Hsil
  | |- wp (bind (call_callback _ _) _) _ _ =>
    apply wp_bind; apply wp_call_callback; [intros ?Hcb|intros ?c ?Hcb ?r ?p ?o ?Hsil]
  | |- wp (call_callback _ _) _ _ =>
    apply wp_call_callback; [intros ?Hcb|intros ?c ?Hcb ?r ?p ?o ?Hsil]
  end.

Ltac quiet_tac :=
  repeat first [ assumption
               | apply Forall_nil_2
               | apply Forall_cons_2; [done|]
               | apply silent_quiet; assumption
               | apply Forall_app_2 ].

Ltac split_ifs :=
  repeat match goal with
         | |- context [if ?b then _ else _] => destruct b
         end.

Ltac noise_tac := apply qt_noise; cbn; try done; try (split_ifs; quiet_tac); try congruence.

Lemma sim_quiet_events e w :
  match e with
  | EClose | EOn _ _ | EGattDisconnected | ENotify _ | ETimer _ => True
  | _ => False
  end ->
  qtrans (qv (conn w)) (snd (step e w)) (qv (conn (fst (step e w)))).
Proof.
  intros He.
  apply (wp_step _ w (fun x => qtrans (qv (conn w)) (snd x) (qv (conn (fst x))))).
  destruct e; try done; unfold handle; wp_go.
  all: try match goal with evt : Evt |- _ => destruct evt end.
  all: noise_tac.
Qed.
Ltac wp_extra ::= try rewrite list_lookup_middle by reflexivity; rewrite ?lookup_nil.

Lemma insert_snoc {A} (l : list A) x y : <[length l := x]> (l ++ [y]) = l ++ [x].
Proof.
  induction l as [|a l IH]; [done|]. simpl. by rewrite IH.
Qed.

Lemma QInv_idle c tr :
  QInv (qv c) tr -> txInProgress c = false -> txDataQueue c = [] /\ pendingTx c = [].
Proof.
  intros H Hi. destruct (q_shape _ _ H) as [(Hp & Hq & _)|(r & q' & _ & _ & Hi' & _)].
  - split; [by apply Hq|done].
  - simpl in Hi'. congruence.
Qed.

(** Solve [qv c' = {| ... |}] for a [c'] made of field updates. *)
Ltac qv_eq := unfold qv; cbn; wp_rew; cbn; try reflexivity; f_equal; try done; try congruence.

Lemma qt_push_conn c c' d cb :
  txCharacteristic c = true -> txInProgress c = true ->
  qv c' = {| vq := txDataQueue c ++ [length (items c)]; vp := pendingTx c; vip := true;
             vitems := items c ++ [{| data := Some d; callback := cb |}];
             vstage := stage c; vtx := true |} ->
  qtrans (qv c) [OPush (length (items c)) d cb] (qv c').
Proof. intros ? ? ->. by apply (qt_push (qv c)). Qed.

Lemma qt_push_start_conn c c' d cb :
  txCharacteristic c = true -> txInProgress c = false ->
  txDataQueue c = [] -> pendingTx c = [] ->
  qv c' = {| vq := [length (items c)]; vp := [length (items c)]; vip := true;
             vitems := items c ++ [{| data := after_chunk d; callback := cb |}];
             vstage := stage c; vtx := true |} ->
  qtrans (qv c) [OPush (length (items c)) d cb; OWriteValue (length (items c)) (first_chunk d)]
         (qv c').
Proof. intros ? ? ? ? ->. by apply (qt_push_start (qv c)). Qed.

Lemma sim_connection_write w tr d cb Q :
  QInv (qv (conn w)) tr ->
  (forall p' o c',
      qtrans (qv (conn w)) o (qv c') ->
      Q (Ok tt) {| conn := c'; puck := p' |} o) ->
  wp (connection_write d cb) w Q.
Proof.
  intros H HQ. destruct w as [c0 p0]. cbn [conn] in *. unfold connection_write.
  destruct (txCharacteristic c0) eqn:Ht; [|wp_go; apply HQ; noise_tac].
  destruct (txInProgress c0) eqn:Hi.
  - wp_go. apply HQ. apply qt_push_conn; [done|done|qv_eq].
  - destruct (QInv_idle _ _ H Hi) as [Hq Hp]. wp_go.
    apply HQ. apply qt_push_start_conn; try done.
    unfold first_chunk, after_chunk. qv_eq. apply insert_snoc.
Qed.

Lemma qt_done_conn c c' r cb o :
  pendingTx c = [r] -> txDataQueue c = [r] ->
  items c !! r = Some {| data := None; callback := Some cb |} ->
  Forall quiet o ->
  qv c' = {| vq := []; vp := []; vip := false; vitems := items c;
             vstage := stage c; vtx := txCharacteristic c |} ->
  qtrans (qv c) (OAck r true :: OCallback r cb :: o) (qv c').
Proof. intros ? ? ? ? ->. by apply (qt_done (qv c)). Qed.

Lemma qt_next_conn c c' r cb o r' q'' d' cb' :
  pendingTx c = [r] -> txDataQueue c = r :: r' :: q'' ->
  items c !! r = Some {| data := None; callback := Some cb |} ->
  items c !! r' = Some {| data := Some d'; callback := cb' |} ->
  txCharacteristic c = true ->
  Forall quiet o ->
  qv c' = {| vq := r' :: q''; vp := [r']; vip := true;
             vitems := <[r' := {| data := after_chunk d'; callback := cb' |}]> (items c);
             vstage := stage c; vtx := true |} ->
  qtrans (qv c) (OAck r true :: OCallback r cb :: o ++ [OWriteValue r' (first_chunk d')])
         (qv c').
Proof. intros ? ? ? ? ? ? ->. by eapply (qt_next (qv c)). Qed.

Lemma qt_more_conn c c' r x cb q' :
  pendingTx c = [r] -> txDataQueue c = r :: q' ->
  items c !! r = Some {| data := Some x; callback := cb |} ->
  x <> [] ->
  txCharacteristic c = true ->
  qv c' = {| vq := r :: q'; vp := [r]; vip := true;
             vitems := <[r := {| data := after_chunk x; callback := cb |}]> (items c);
             vstage := stage c; vtx := true |} ->
  qtrans (qv c) [OAck r true; OWriteValue r (first_chunk x)] (qv c').
Proof.
  intros Hp Hq ? ? ? ->. rewrite <- Hq.
  apply (qt_more (qv c)); try done. simpl. by rewrite Hq.
Qed.

Lemma falsy_nonempty x : x <> [] -> falsy (Some x) = false.
Proof. by destruct x. Qed.


Arguments falsy : simpl never.

Ltac why_tac :=
  first [ left; reflexivity
        | right; do 2 eexists; split;
          [eassumption|first [left; discriminate|right; reflexivity]] ].

Ltac fields_tac := cbn; rewrite ?length_insert; try reflexivity; try congruence.

Ltac leaf :=
  subst; rewrite ?app_nil_r;
  first
    [ solve [noise_tac]
    | solve [eapply qt_done_conn; [eassumption|eassumption|eassumption|quiet_tac|qv_eq]]
    | solve [eapply qt_next_conn;
             [eassumption|eassumption|eassumption|eassumption|eassumption|quiet_tac|
              unfold after_chunk; qv_eq]]
    | solve [eapply qt_more_conn;
             [eassumption|eassumption|eassumption|eassumption|eassumption|
              unfold after_chunk; qv_eq]]
    | solve [eapply qt_abandon;
             [cbn; eassumption|cbn; why_tac|split_ifs; quiet_tac|fields_tac..]]
    | solve [eapply qt_abandon_cb;
             [cbn; eassumption|cbn; eassumption|split_ifs; quiet_tac|fields_tac..]] ].

Lemma sim_tx w tr k ok :
  QInv (qv (conn w)) tr ->
  qtrans (qv (conn w)) (snd (step (ETx k ok) w)) (qv (conn (fst (step (ETx k ok) w)))).
Proof.
  intros H.
  apply (wp_step _ w (fun x => qtrans (qv (conn w)) (snd x) (qv (conn (fst x))))).
  unfold handle.
  destruct (q_shape _ _ H) as [(Hp & _)|(r & q' & Hp & Hq & Hi & Hh & Hf)]; simpl in *.
  { wp_go. noise_tac. }
  destruct k as [|k]; [|wp_go; noise_tac].
  destruct Hh as (d & cb & rem & Hin & Hl & Hrem & _).
  destruct (txCharacteristic (conn w)) eqn:Ht;
  destruct ok;
  (destruct rem as [x|];
   [assert (x <> []) as Hx by congruence; pose proof (falsy_nonempty x Hx) as Hfx
   |assert (falsy None = true) as Hfn by done]);
  (destruct q' as [|r' q''];
   [|apply Forall_cons in Hf as [(d' & cb' & _ & Hl' & _) _]]).
  all: wp_go.
  all: leaf.
Qed.

Lemma sim_write w tr e :
  QInv (qv (conn w)) tr ->
  match e with EWrite _ _ | EPuck _ _ => True | _ => False end ->
  qtrans (qv (conn w)) (snd (step e w)) (qv (conn (fst (step e w)))).
Proof.
  intros H He.
  apply (wp_step _ w (fun x => qtrans (qv (conn w)) (snd x) (qv (conn (fst x))))).
  destruct e; try done; unfold handle.
  - eapply sim_connection_write; [done|]. intros p' o c' Ht. exact Ht.
  - apply wp_bind_getp, wp_bind_getc.
    destruct (connection (puck w) && isOpen (conn w)).
    + apply wp_bind_modp. eapply sim_connection_write; [done|].
      intros p' o c' Ht. exact Ht.
    + apply wp_ret. noise_tac.
Qed.

Lemma qt_open_quiet v o v' :
  vstage v <> Settled ->
  Forall quiet o ->
  vq v' = [] -> vp v' = vp v -> vip v' = false -> vitems v' = vitems v ->
  vstage v' = Settled ->
  qtrans v o v'.
Proof.
  intros Hs Ho Eq Ep Ei Eit Es.
  apply (qt_seq v [] {| vq := []; vp := vp v; vip := false; vitems := vitems v;
                        vstage := Settled; vtx := true |} o v'); [by apply qt_open|].
  apply qt_noise; simpl; try done.
Qed.

Lemma qt_open_write v d cb o1 o2 v' :
  vstage v <> Settled -> vitems v = [] -> vp v = [] ->
  Forall quiet o1 -> Forall quiet o2 ->
  vq v' = [0] -> vp v' = [0] -> vip v' = true ->
  vitems v' = [{| data := after_chunk d; callback := cb |}] ->
  vstage v' = Settled ->
  qtrans v (o1 ++ [OPush 0 d cb; OWriteValue 0 (first_chunk d)] ++ o2) v'.
Proof.
  intros Hs Hit Hp Ho1 Ho2 Eq Ep Ei Eit Es.
  set (v1 := {| vq := []; vp := vp v; vip := false; vitems := vitems v;
                vstage := Settled; vtx := true |}).
  apply (qt_seq v o1 v1); [apply qt_open_quiet; done|].
  eapply qt_seq.
  - pose proof (qt_push_start v1 d cb) as Hps. simpl in Hps. rewrite Hit in Hps.
    simpl in Hps. apply Hps; done.
  - apply qt_noise; simpl; try done.
Qed.

Lemma qt_open_write' v d cb x o2 v' :
  vstage v <> Settled -> vitems v = [] -> vp v = [] ->
  quiet x -> Forall quiet o2 ->
  vq v' = [0] -> vp v' = [0] -> vip v' = true ->
  vitems v' = [{| data := after_chunk d; callback := cb |}] ->
  vstage v' = Settled ->
  qtrans v (x :: OPush 0 d cb :: OWriteValue 0 (first_chunk d) :: o2) v'.
Proof.
  intros. apply (qt_open_write v d cb [x] o2 v'); try done. by repeat constructor.
Qed.

Ltac open_leaf :=
  rewrite ?app_nil_r;
  first
    [ solve [noise_tac]
    | solve [apply qt_open_quiet; cbn; wp_rew; try done; try (split_ifs; quiet_tac)]
    | solve [eapply qt_open_write'; cbn; wp_rew; try done; try (split_ifs; quiet_tac)] ].

Lemma sim_chain w tr ok :
  QInv (qv (conn w)) tr ->
  qtrans (qv (conn w)) (snd (step (EChain ok) w)) (qv (conn (fst (step (EChain ok) w)))).
Proof.
  intros H.
  apply (wp_step _ w (fun x => qtrans (qv (conn w)) (snd x) (qv (conn (fst x))))).
  unfold handle.
  destruct (stage (conn w)) eqn:Hs.
  7:{ wp_go. noise_tac. }
  all: destruct (q_pre _ _ H) as (Ht & Hit & Hq & Hp & Hi); [simpl; congruence|];
    simpl in Ht, Hit, Hq, Hp, Hi.
  all: unfold chain_settle; wp_go.
  all: open_leaf.
Qed.

Lemma sim_step e w tr :
  QInv (qv (conn w)) tr ->
  qtrans (qv (conn w)) (snd (step e w)) (qv (conn (fst (step e w)))).
Proof.
  intros H. destruct e.
  - by eapply sim_write.
  - by apply sim_quiet_events.
  - by apply sim_quiet_events.
  - by apply sim_quiet_events.
  - by apply sim_quiet_events.
  - by eapply sim_chain.
  - by eapply sim_tx.
  - by eapply sim_write.
  - by apply sim_quiet_events.
Qed.

Lemma QInv_step e w tr :
  QInv (qv (conn w)) tr ->
  QInv (qv (conn (fst (step e w)))) (tr ++ snd (step e w)).
Proof. intros H. eapply QInv_qtrans; [by eapply sim_step|done]. Qed.

Lemma QInv_run es : forall w tr,
  QInv (qv (conn w)) tr ->
  QInv (qv (conn (fst (run w es)))) (tr ++ snd (run w es)).
Proof.
  induction es as [|e es IH]; intros w tr H.
  - rewrite run_nil. simpl. by rewrite app_nil_r.
  - rewrite run_cons. cbn [fst snd]. rewrite app_assoc. apply IH. by apply QInv_step.
Qed.

Lemma QInv_connect cb p : QInv (qv (conn (connect cb p))) [].
Proof.
  constructor; simpl; try done.
  - constructor.
  - left. by split_and!.
  - intros r d cb' Hin. by apply elem_of_nil in Hin.
Qed.

(** The invariant holds in every state a connection can reach. *)
Lemma QInv_reach cb p es :
  QInv (qv (conn (fst (run (connect cb p) es)))) (snd (run (connect cb p) es)).
Proof. apply (QInv_run es (connect cb p) []). apply QInv_connect. Qed.
(** ** Completion and ordering *)

Lemma queued_pending v tr r d cb :
  QInv v tr -> OPush r d cb ∈ tr -> r ∈ vq v ->
  callbacks r tr = [] /\ nacks r tr = 0 /\
  acks r tr < length (splitIntoChunks d) /\
  written r tr `prefix_of` splitIntoChunks d.
Proof.
  intros H Hin Hr. pose proof (QInv_nodup _ _ H) as Hnd.
  assert (fresh (vitems v) tr r \/ heading (vitems v) tr r) as [Hf|Hh].
  { destruct (q_shape _ _ H) as [(_ & _ & Hf)|(r0 & q' & _ & Hq & _ & Hh & Hf)].
    - left. rewrite Forall_forall in Hf. by apply Hf.
    - rewrite Hq in Hr. apply elem_of_cons in Hr as [->|Hr]; [by right|].
      left. rewrite Forall_forall in Hf. by apply Hf. }
  - destruct (fresh_abandoned _ _ _ _ _ [] Hf Hnd Hin) as (Hw & Ha & Hc); [done|].
    rewrite app_nil_r in *. destruct Hf as (? & ? & _ & _ & _ & _ & Hn & _). done.
  - destruct (heading_prefix _ _ _ _ _ Hh Hnd Hin) as [Hw Ha].
    destruct Hh as (? & ? & ? & _ & _ & _ & _ & _ & Hn & Hc). done.
Qed.

(** Where a request stands, whatever happened. *)
Lemma request_status v tr r d cb :
  QInv v tr -> OPush r d cb ∈ tr ->
  written r tr `prefix_of` splitIntoChunks d /\
  (finished tr r d cb \/
   (callbacks r tr = [] /\ acks r tr < length (splitIntoChunks d))).
Proof.
  intros H Hin. destruct (decide (r ∈ vq v)) as [Hr|Hr].
  - destruct (queued_pending _ _ _ _ _ H Hin Hr) as (?&?&?&?). auto.
  - destruct (q_gone _ _ H r d cb Hin Hr) as [Hf|(_ & _ & Hw & Ha & Hc)]; [|auto].
    split; [|by left]. destruct Hf as (-> & _). done.
Qed.

(** C1. Completion-once.  In every run of a connection, for every request
    [r] pushed with payload [d] and callback [c]: the callback is called at
    most once; when it is called, every chunk of [d] has been handed to
    [writeValue], in order, and each of these writes has been reported
    successful, none failed (so it is not called on enqueue); once all
    chunks are acknowledged it has been called, exactly once; and it is
    never called if a write of [r] failed. *)
Theorem completion_once (cb : ConnCb) (p : Puck) (es : list Event)
    (r : nat) (d : jsstring) (c : Cb) :
  let tr := snd (run (connect cb p) es) in
  OPush r d (Some c) ∈ tr ->
  (callbacks r tr = [] \/ callbacks r tr = [c]) /\
  (forall pre c' post, tr = pre ++ OCallback r c' :: post ->
     c' = c /\ OPush r d (Some c) ∈ pre /\
     written r pre = splitIntoChunks d /\
     acks r pre = length (splitIntoChunks d) /\
     nacks r pre = 0 /\ callbacks r pre = []) /\
  (acks r tr = length (splitIntoChunks d) -> callbacks r tr = [c]) /\
  (nacks r tr <> 0 -> callbacks r tr = []).
Proof.
  intros tr Hin. pose proof (QInv_reach cb p es) as H. fold tr in H.
  destruct (request_status _ _ _ _ _ H Hin) as [_ Hst]. split_and!.
  - destruct Hst as [(_ & _ & _ & ->)|[-> _]]; auto.
  - intros pre c' post E.
    destruct (monitored_split _ _ _ _ _ (q_mon _ _ H) E) as (d' & Hin' & Hw & Ha & Hn & Hc).
    simpl in *.
    assert (OPush r d' (Some c') ∈ tr) as Hin'' by (rewrite E; apply elem_of_app; by left).
    destruct (QInv_unique _ _ _ _ _ _ _ H Hin Hin'') as [<- [= <-]]. done.
  - intros Ha. destruct Hst as [(_ & _ & _ & ->)|[_ ?]]; [done|lia].
  - intros Hn. destruct Hst as [(_ & _ & Hn' & _)|[-> _]]; [done|done].
Qed.

Lemma completion_once_witness :
  callbacks 0 (snd (run (connect (UserConnCb 0) idle)
                        (opening ++ [EWrite [104; 105]%N (Some 7); ETx 0 true]))) =
    [UserCb 7].
Proof.
  pose proof (completion_once (UserConnCb 0) idle
                (opening ++ [EWrite [104; 105]%N (Some 7); ETx 0 true])
                0 [104; 105]%N (UserCb 7)) as H.
  cbv zeta in H. destruct H as (_ & _ & H & _).
  - apply list_elem_of_In. vm_compute. tauto.
  - apply H. rewrite splitIntoChunks_short by (simpl; unfold CHUNKSIZE; lia). reflexivity.
Defined.

Lemma seq_split_lt n (l1 l2 l3 : list nat) a b :
  seq 0 n = l1 ++ a :: l2 ++ b :: l3 -> a < b.
Proof.
  intros E.
  assert (seq 0 n !! length l1 = Some a) as Ha.
  { rewrite E. by apply list_lookup_middle. }
  assert (seq 0 n !! (length l1 + S (length l2)) = Some b) as Hb.
  { rewrite E, lookup_app_r by lia.
    replace (length l1 + S (length l2) - length l1) with (S (length l2)) by lia.
    simpl. by apply list_lookup_middle. }
  apply lookup_seq in Ha as [-> _]. apply lookup_seq in Hb as [-> _]. lia.
Qed.

Lemma pushed_cons_push r d cb tr : pushed (OPush r d cb :: tr) = r :: pushed tr.
Proof. done. Qed.
(** ** The session *)

Lemma disconnects_app t1 t2 : disconnects (t1 ++ t2) = disconnects t1 + disconnects t2.
Proof.
  induction t1 as [|o t1 IH]; [done|]. destruct o; simpl; rewrite ?IH; lia.
Qed.

Lemma silent_emits evt o : Forall silent o -> emits evt o = 0.
Proof.
  induction 1 as [|x o Hx _ IH]; [done|]. by destruct x.
Qed.

Lemma silent_disconnects o : Forall silent o -> disconnects o = 0.
Proof.
  induction 1 as [|x o Hx _ IH]; [done|]. by destruct x.
Qed.

Lemma silent_connecteds o : Forall silent o -> connecteds o = [].
Proof.
  induction 1 as [|x o Hx _ IH]; [done|]. by destruct x.
Qed.

Ltac count_tac :=
  repeat (rewrite ?emits_app, ?disconnects_app, ?connecteds_app; cbn);
  rewrite ?decide_True by reflexivity; rewrite ?decide_False by discriminate;
  repeat match goal with
         | H : Forall _ ?o |- _ =>
           try rewrite (silent_emits EvOpen o H);
           try rewrite (silent_emits EvData o H);
           try rewrite (silent_emits EvClose o H);
           try rewrite (silent_disconnects o H);
           try rewrite (silent_connecteds o H);
           clear H
         end;
  cbn; rewrite ?decide_True by reflexivity; rewrite ?decide_False by discriminate;
  cbn; rewrite ?Nat.add_0_r.

Ltac sess_leaf :=
  cbn in *; subst;
  repeat match goal with
         | |- context [if ?b then _ else _] => is_var b; destruct b
         end;
  count_tac;
  try lia;
  try solve [intuition (subst; cbn in *; try congruence; try lia)];
  try solve [match goal with h : bool |- context [?h' && _] => destruct h' end; cbn; intuition (subst; cbn in *; try congruence; try lia)].

Lemma SInv_step h e w tr :
  SInv h (conn w) tr ->
  SInv (h && admissible e (conn w)) (conn (fst (step e w))) (tr ++ snd (step e w)).
Proof.
  intros [H1 H2 H3 H4 H5 H6 H7 H8 H9 H10 H11].
  apply (wp_step e w (fun x => SInv (h && admissible e (conn w)) (conn (fst x)) (tr ++ snd x))).
  destruct w as [c p]. destruct c. cbn in *.
  destruct e; unfold handle.
  all: wp_go.
  all: try match goal with evt : Evt |- _ => destruct evt end.
  all: constructor; sess_leaf.
Qed.
Lemma honest_app es1 : forall w es2,
  honest w (es1 ++ es2) = honest w es1 && honest (fst (run w es1)) es2.
Proof.
  induction es1 as [|e es1 IH]; intros w es2; [done|].
  simpl. rewrite run_cons. cbn [fst]. rewrite IH. by rewrite andb_assoc.
Qed.

Lemma SInv_run es : forall h w tr,
  SInv h (conn w) tr ->
  SInv (h && honest w es) (conn (fst (run w es))) (tr ++ snd (run w es)).
Proof.
  induction es as [|e es IH]; intros h w tr H.
  - rewrite run_nil. simpl. by rewrite app_nil_r, andb_true_r.
  - rewrite run_cons. cbn [fst snd honest]. rewrite app_assoc, andb_assoc.
    apply IH. by apply SInv_step.
Qed.

Lemma SInv_connect cb p : SInv true (conn (connect cb p)) [].
Proof. constructor; simpl; try done; lia. Qed.

Lemma SInv_reach cb p es :
  SInv (honest (connect cb p) es)
       (conn (fst (run (connect cb p) es))) (snd (run (connect cb p) es)).
Proof. apply (SInv_run es true (connect cb p) []). apply SInv_connect. Qed.

(** ** A closed connection *)

Lemma step_Closed e w :
  Closed (conn w) -> admissible e (conn w) = true ->
  Closed (conn (fst (step e w))) /\
  emits EvOpen (snd (step e w)) = 0 /\ emits EvData (snd (step e w)) = 0 /\
  emits EvClose (snd (step e w)) = 0 /\ disconnects (snd (step e w)) = 0 /\
  connecteds (snd (step e w)) = [].
Proof.
  intros [Hb Hs Ho Ht] Ha.
  apply (wp_step e w (fun x => Closed (conn (fst x)) /\
    emits EvOpen (snd x) = 0 /\ emits EvData (snd x) = 0 /\
    emits EvClose (snd x) = 0 /\ disconnects (snd x) = 0 /\ connecteds (snd x) = [])).
  destruct w as [c p]. destruct c. cbn in *. subst.
  destruct e; unfold handle.
  all: wp_go.
  all: try match goal with evt : Evt |- _ => destruct evt end.
  all: try discriminate.
  all: split_and!; [constructor|..]; cbn in *; count_tac; try done.
Qed.

Lemma run_Closed es : forall w,
  Closed (conn w) -> honest w es = true ->
  Closed (conn (fst (run w es))) /\
  emits EvOpen (snd (run w es)) = 0 /\ emits EvData (snd (run w es)) = 0 /\
  emits EvClose (snd (run w es)) = 0 /\ disconnects (snd (run w es)) = 0 /\
  connecteds (snd (run w es)) = [].
Proof.
  induction es as [|e es IH]; intros w Hw Hh; [done|].
  simpl in Hh. apply andb_true_iff in Hh as [Ha Hh].
  rewrite run_cons. cbn [fst snd].
  destruct (step_Closed e w Hw Ha) as (Hc & E1 & E2 & E3 & E4 & E5).
  destruct (IH _ Hc Hh) as (Hc' & E1' & E2' & E3' & E4' & E5').
  rewrite !emits_app, disconnects_app, connecteds_app.
  rewrite E1, E2, E3, E4, E5, E1', E2', E3', E4', E5'. done.
Qed.

(** [close] without a GATT session, called by the caller or by the
    ['gattserverdisconnected'] listener, does nothing. *)
Lemma close_noop w :
  btServer (conn w) = false ->
  step EClose w = (w, []) /\ step EGattDisconnected w = (w, []).
Proof.
  intros Hb. destruct w as [c p]. split.
  - destruct c. cbn in Hb. subst. reflexivity.
  - unfold step, handle. js_unfold. cbn.
    destruct (disconnectListener c); [|done].
    destruct c. cbn in Hb. subst. reflexivity.
Qed.

(** [connection.write] without a TX characteristic does nothing. *)
Lemma write_noop w d u :
  txCharacteristic (conn w) = false -> step (EWrite d u) w = (w, []).
Proof.
  intros Ht. destruct w as [c p]. destruct c. cbn in Ht. subst. reflexivity.
Qed.

Lemma disconnects_elem_of tr : ODisconnect ∈ tr -> disconnects tr <> 0.
Proof.
  induction tr as [|x tr IH]; intros Hin; [by apply elem_of_nil in Hin|].
  apply elem_of_cons in Hin as [<-|Hin]; [done|].
  destruct x; simpl; auto.
Qed.

(** C10.  Over the life of a connection ['close'] is emitted at most
    once; and once [close] has disconnected the GATT session (the trace
    holds [btServer.disconnect()], whoever called [close]), the session
    reference is cleared, and a further [close()], by the caller or by the
    ['gattserverdisconnected'] listener, changes no state and emits
    nothing. *)
Theorem close_once_then_idempotent (cb : ConnCb) (p : Puck) (es : list Event) :
  let w := fst (run (connect cb p) es) in
  let tr := snd (run (connect cb p) es) in
  emits EvClose tr <= 1 /\
  disconnects tr <= 1 /\
  (ODisconnect ∈ tr ->
     btServer (conn w) = false /\
     step EClose w = (w, []) /\
     step EGattDisconnected w = (w, [])).
Proof.
  intros w tr. pose proof (SInv_reach cb p es) as H. fold w tr in H.
  pose proof (s_once _ _ _ H). pose proof (s_close _ _ _ H).
  split_and!; [lia|done|].
  intros Hin. apply disconnects_elem_of in Hin.
  destruct (s_cleared _ _ _ H Hin) as [Hb _].
  split; [done|]. by apply close_noop.
Qed.

(** ** After a failed write *)

Lemma quiet_hush o : Forall quiet o -> Forall hush o.
Proof. intros H. eapply List.Forall_impl; [|exact H]. by intros []. Qed.

Lemma silent_hush o : Forall silent o -> Forall hush o.
Proof. intros H. eapply List.Forall_impl; [|exact H]. by intros []. Qed.

Lemma hush_still r o :
  Forall hush o -> written r o = [] /\ acks r o = 0 /\ nacks r o = 0 /\ callbacks r o = [].
Proof.
  induction 1 as [|x o Hx _ IH]; [done|]. by destruct x.
Qed.

Lemma hush_no_callback r c o : Forall hush o -> OCallback r c ∉ o.
Proof.
  intros H Hin. rewrite Forall_forall in H. by apply H in Hin.
Qed.

Lemma halted_qtrans v o v' :
  qtrans v o v' -> halted v -> halted v' /\ Forall hush o.
Proof.
  induction 1 as [v o v' Ho Eq Ep Ei Eit Es Et|v Hs|v d cb Ht Hi|v d cb Ht Hi Hq Hp
                  |v r ok o v' Hp|v r c o v' Hp|v r c o Hp|v r c o r' q'' d' cb' Hp
                  |v r x cb Hp|v1 o1 v2 o2 v3 _ IH1 _ IH2];
    intros (Hp0 & Hi0 & Hs0); try congruence.
  - split; [|by apply quiet_hush]. unfold halted. rewrite Ep, Ei. auto.
  - split; [done|]. by repeat constructor.
  - destruct IH1 as [Hh1 Ho1]; [done|]. destruct (IH2 Hh1) as [Hh2 Ho2].
    split; [done|]. by apply Forall_app.
Qed.

Lemma halted_run es : forall w tr,
  QInv (qv (conn w)) tr -> halted (qv (conn w)) ->
  halted (qv (conn (fst (run w es)))) /\ Forall hush (snd (run w es)).
Proof.
  induction es as [|e es IH]; intros w tr H Hh; [by split|].
  rewrite run_cons. cbn [fst snd].
  destruct (halted_qtrans _ _ _ (sim_step e w tr H) Hh) as [Hh1 Ho1].
  destruct (IH _ _ (QInv_step e w tr H) Hh1) as [Hh2 Ho2].
  split; [done|]. by apply Forall_app.
Qed.

Lemma queued_uncalled v tr r : QInv v tr -> r ∈ vq v -> callbacks r tr = [].
Proof.
  intros H Hr.
  destruct (q_shape _ _ H) as [(_ & _ & Hf)|(r0 & q' & _ & Hq & _ & Hh & Hf)].
  - rewrite Forall_forall in Hf. destruct (Hf r Hr) as (? & ? & _ & _ & Hu). apply Hu.
  - rewrite Hq in Hr. apply elem_of_cons in Hr as [->|Hr].
    + destruct Hh as (? & ? & ? & _ & _ & _ & _ & _ & _ & Hc). done.
    + rewrite Forall_forall in Hf. destruct (Hf r Hr) as (? & ? & _ & _ & Hu). apply Hu.
Qed.

(** The reaction to a rejected [writeValue] (lines 127 to 131). *)
Lemma step_tx_fail w k r :
  pendingTx (conn w) !! k = Some r ->
  let x := step (ETx k false) w in
  txDataQueue (conn (fst x)) = [] /\
  pendingTx (conn (fst x)) = delete k (pendingTx (conn w)) /\
  txInProgress (conn (fst x)) = txInProgress (conn w) /\
  stage (conn (fst x)) = stage (conn w) /\
  btServer (conn (fst x)) = false /\
  isOpen (conn (fst x)) = isOpen (conn w) && negb (btServer (conn w)) /\
  txCharacteristic (conn (fst x)) = txCharacteristic (conn w) && negb (btServer (conn w)) /\
  exists o, snd x = OAck r false :: o /\ Forall hush o.
Proof.
  intros Hk.
  apply (wp_step (ETx k false) w (fun x =>
    txDataQueue (conn (fst x)) = [] /\
    pendingTx (conn (fst x)) = delete k (pendingTx (conn w)) /\
    txInProgress (conn (fst x)) = txInProgress (conn w) /\
    stage (conn (fst x)) = stage (conn w) /\
    btServer (conn (fst x)) = false /\
    isOpen (conn (fst x)) = isOpen (conn w) && negb (btServer (conn w)) /\
    txCharacteristic (conn (fst x)) = txCharacteristic (conn w) && negb (btServer (conn w)) /\
    exists o, snd x = OAck r false :: o /\ Forall hush o)).
  destruct w as [c p]. destruct c. cbn in *.
  unfold handle. wp_go.
  all: cbn in *; subst; rewrite ?andb_true_r, ?andb_false_r.
  all: split_and!; try done.
  all: eexists; split; [reflexivity|].
  all: repeat first [ apply Forall_nil_2 | apply Forall_cons_2; [by split_ifs|]
                    | apply Forall_app_2 | apply silent_hush; assumption ].
Qed.

(** C3.  When the transport rejects the [writeValue] in flight ([ETx k
    false] for a pending write of request [r]): the queue, in which [r]
    and every other request not yet completed waited, is emptied and
    nothing stays in flight; the GATT session is dropped, and the
    connection is closed if the transport kept its promise so far; the
    callback of none of the queued requests has been called or is called
    by this or any later event; and no chunk is handed to [writeValue]
    again, whatever follows. *)
Theorem write_failure_abandons (cb : ConnCb) (p : Puck) (es : list Event)
    (k r : nat) (es' : list Event) :
  let w := fst (run (connect cb p) es) in
  let tr := snd (run (connect cb p) es) in
  let w1 := fst (step (ETx k false) w) in
  let o1 := snd (step (ETx k false) w) in
  let o2 := snd (run w1 es') in
  pendingTx (conn w) !! k = Some r ->
  r ∈ txDataQueue (conn w) /\
  txDataQueue (conn w1) = [] /\ pendingTx (conn w1) = [] /\
  btServer (conn w1) = false /\
  (honest (connect cb p) es = true -> Closed (conn w1)) /\
  (forall r', r' ∈ txDataQueue (conn w) -> callbacks r' (tr ++ o1 ++ o2) = []) /\
  (forall r' c, OCallback r' c ∉ o1 ++ o2) /\
  chunks_of (o1 ++ o2) = [].
Proof.
  intros w tr w1 o1 o2 Hk.
  pose proof (QInv_reach cb p es) as H. fold w tr in H.
  pose proof (SInv_reach cb p es) as HS. fold w tr in HS.
  destruct (step_tx_fail w k r Hk) as (Eq & Ep & Ei & Es & Eb & Eo & Et & o & Eo1 & Ho).
  fold w1 o1 in Eq, Ep, Ei, Es, Eb, Eo, Et, Eo1.
  destruct (q_shape _ _ H) as [(Hp & _)|(r0 & q' & Hp & Hq & Hi & _)]; simpl in *.
  { rewrite Hp in Hk. by destruct k. }
  rewrite Hp in Hk, Ep. destruct k as [|k]; [|by destruct k].
  injection Hk as ->. simpl in Ep.
  assert (stage (conn w) = Settled) as Hst.
  { destruct (stage (conn w)) eqn:Hn; try done.
    all: destruct (q_pre _ _ H) as (_ & _ & _ & Hp' & _); simpl in *; congruence. }
  assert (Forall hush o2) as Ho2.
  { eapply (halted_run es' w1 (tr ++ o1)).
    - by apply QInv_step.
    - split_and!; simpl; congruence. }
  assert (Forall hush (o ++ o2)) as Ho12 by by apply Forall_app.
  assert (o1 ++ o2 = OAck r false :: (o ++ o2)) as E12 by by rewrite Eo1.
  split_and!; try done.
  - rewrite Hq. by left.
  - intros Hh. rewrite Hh in HS.
    constructor; [done|by rewrite Es, Hst| |].
    + rewrite Eo. destruct (isOpen (conn w)) eqn:E; [|done].
      by rewrite (s_session _ _ _ HS eq_refl E).
    + rewrite Et, (s_tx _ _ _ HS). destruct (isOpen (conn w)) eqn:E; [|done].
      by rewrite (s_session _ _ _ HS eq_refl E).
  - intros r' Hr'. rewrite callbacks_app, E12. simpl.
    rewrite (queued_uncalled _ _ _ H Hr'). by destruct (hush_still r' _ Ho12) as (_ & _ & _ & ->).
  - intros r' c. rewrite E12. intros Hin. apply elem_of_cons in Hin as [?|Hin]; [done|].
    by apply hush_no_callback in Hin.
  - rewrite E12. simpl. clear -Ho12. induction Ho12 as [|x l Hx _ IH]; [done|]. by destruct x.
Qed.

Lemma write_failure_abandons_witness :
  let w := fst (run (connect (UserConnCb 0) idle)
                    (opening ++ [EWrite [104; 105]%N (Some 1); EWrite [33]%N (Some 2)])) in
  let w1 := fst (step (ETx 0 false) w) in
  txDataQueue (conn w) = [0; 1] /\
  txDataQueue (conn w1) = [] /\ pendingTx (conn w1) = [] /\
  Closed (conn w1) /\
  (forall r' c, OCallback r' c ∉ snd (step (ETx 0 false) w) ++ snd (run w1 [ETx 0 true; EClose])).
Proof.
  pose proof (write_failure_abandons (UserConnCb 0) idle
    (opening ++ [EWrite [104; 105]%N (Some 1); EWrite [33]%N (Some 2)]) 0 0
    [ETx 0 true; EClose] eq_refl) as (_ & H1 & H2 & _ & H3 & _ & H4 & _).
  split_and!; [reflexivity|exact H1|exact H2|exact (H3 eq_refl)|exact H4].
Defined.
(** ** The façade's [write] when the negotiation fails *)

(** C8, where the code departs from it.  [Puck.write(d, callback)] with no
    connection, the negotiation failing.  After the GATT connect ([n] from
    2 to 5 requests fulfilled): [close] disconnects and calls the
    function given to [connect] with [null]; without a [callback] that
    function throws a [TypeError] at [callback(null)]; with one it calls
    [callback(null)] and then throws at [connection.received], the façade's
    [connection] being [undefined]; either way the exception escapes the
    handler of the rejection.  Before the GATT connect ([n] 0 or 1)
    nothing happens at all: [callback] is never called. *)
Theorem failed_write_faults (d : jsstring) (u : nat) :
  Forall (fun n =>
    snd (failed_write n d None) =
      [ODisconnect; OConnected false; OTypeError; OUncaught] /\
    snd (failed_write n d (Some u)) =
      [ODisconnect; OConnected false; OUser u None; OTypeError; OUncaught])
    [2; 3; 4; 5] /\
  Forall (fun n =>
    snd (failed_write n d None) = [] /\ snd (failed_write n d (Some u)) = [])
    [0; 1].
Proof.
  split; repeat constructor; vm_compute; reflexivity.
Qed.
(** * Further properties of the code *)

(** ** Bytes and strings *)

(** X1.  [str2ab] makes one byte of each code unit. *)
Theorem str2ab_bytes (s : jsstring) :
  length (str2ab s) = length s /\ Forall (fun b => (b < 256)%N) (str2ab s).
Proof.
  unfold str2ab. split; [by rewrite length_map|].
  apply Forall_forall. intros b Hb. apply list_elem_of_fmap in Hb as (c & -> & _).
  by apply N.mod_lt.
Qed.

(** X2.  Bytes survive the way through [ab2str] and back through [str2ab]. *)
Theorem str2ab_ab2str (buf : list N) :
  Forall (fun b => (b < 256)%N) buf -> str2ab (ab2str buf) = buf.
Proof.
  unfold str2ab, ab2str. induction 1 as [|b buf Hb _ IH]; [done|].
  simpl in *. rewrite IH. f_equal. by apply N.mod_small.
Qed.

Lemma str2ab_ab2str_witness : str2ab (ab2str [0; 13; 255]%N) = [0; 13; 255]%N.
Proof. apply str2ab_ab2str. repeat constructor. Defined.

(** X3.  A string survives [str2ab] exactly when each of its code units is
    below 256; the others are cut down to their low byte. *)
Theorem ab2str_str2ab_iff (s : jsstring) :
  ab2str (str2ab s) = s <-> Forall (fun c => (c < 256)%N) s.
Proof.
  unfold str2ab, ab2str. induction s as [|c s IH]; [by split|].
  simpl. split.
  - intros [= Hc Hs]. constructor; [|by apply IH].
    rewrite <- Hc. by apply N.mod_lt.
  - intros H. apply Forall_cons in H as [Hc Hs]. f_equal; [by apply N.mod_small|by apply IH].
Qed.

(** ** The number of chunks *)

Lemma splitIntoChunks_length d :
  length (splitIntoChunks d) = Nat.max 1 ((length d + 15) / 16).
Proof.
  remember (length d) as n eqn:Hn. revert d Hn.
  induction n as [n IH] using lt_wf_ind. intros d ->.
  destruct (Nat.leb_spec (length d) CHUNKSIZE) as [Hle|Hgt]; unfold CHUNKSIZE in *.
  - rewrite splitIntoChunks_short by done. cbn [length].
    assert ((length d + 15) / 16 < 2); [|lia].
    apply Nat.Div0.div_lt_upper_bound. lia.
  - rewrite splitIntoChunks_long by done. cbn [length].
    rewrite (IH (length (drop CHUNKSIZE d))); [|rewrite length_drop; unfold CHUNKSIZE; lia|done].
    rewrite length_drop. unfold CHUNKSIZE.
    replace (length d + 15) with (length d - 16 + 15 + 1 * 16) by lia.
    rewrite Nat.div_add by done.
    assert (1 <= (length d - 16 + 15) / 16); [|lia].
    apply Nat.div_le_lower_bound; lia.
Qed.

(** X4.  [writeChunk] takes one chunk for every 16 code units of the payload,
    rounded up, and one (empty) chunk of the empty payload. *)
Theorem chunk_count (d : jsstring) :
  length (splitIntoChunks d) = Nat.max 1 ((length d + 15) / 16) /\
  splitIntoChunks [] = [[]] /\
  Forall (fun c => d <> [] -> c <> []) (splitIntoChunks d).
Proof.
  split_and!; [apply splitIntoChunks_length|by rewrite splitIntoChunks_short by (simpl; lia)|].
  apply Forall_forall. intros c Hc Hd ->.
  remember (length d) as n eqn:Hn. revert d Hn Hc Hd.
  induction n as [n IH] using lt_wf_ind. intros d -> Hc Hd.
  destruct (Nat.leb_spec (length d) CHUNKSIZE) as [Hle|Hgt].
  - rewrite splitIntoChunks_short in Hc by done. apply list_elem_of_singleton in Hc. congruence.
  - rewrite splitIntoChunks_long in Hc by done. apply elem_of_cons in Hc as [Hc|Hc].
    + symmetry in Hc. apply (f_equal length) in Hc. rewrite length_take in Hc.
      unfold CHUNKSIZE in *. cbn [length] in Hc. lia.
    + eapply (IH (length (drop CHUNKSIZE d))); [|done|done|].
      * rewrite length_drop. unfold CHUNKSIZE. lia.
      * intros E. apply (f_equal length) in E. rewrite length_drop in E.
        unfold CHUNKSIZE in *. cbn [length] in E. lia.
Qed.

(** ** [Puck.eval] *)

(** X5.  Whatever the expression, the first two chunks [Puck.eval] has sent
    are ['\x10Bluetooth.print'] and ['(JSON.stringify('], of 16 code units
    each; the chunks of the expression followed by ['))\n'] come after. *)
Theorem eval_chunks (expr : jsstring) :
  splitIntoChunks (eval_prefix ++ expr ++ eval_suffix) =
    take 16 eval_prefix :: drop 16 eval_prefix :: splitIntoChunks (expr ++ eval_suffix) /\
  3 <= length (splitIntoChunks (eval_prefix ++ expr ++ eval_suffix)).
Proof.
  assert (splitIntoChunks (eval_prefix ++ expr ++ eval_suffix) =
    take 16 eval_prefix :: drop 16 eval_prefix :: splitIntoChunks (expr ++ eval_suffix)) as E.
  { rewrite splitIntoChunks_long by (rewrite length_app; simpl; unfold CHUNKSIZE; lia).
    f_equal. unfold CHUNKSIZE, eval_prefix. cbn [app take drop].
    rewrite splitIntoChunks_long by (simpl; rewrite length_app; simpl; unfold CHUNKSIZE; lia).
    reflexivity. }
  split; [done|]. rewrite E. simpl.
  pose proof (splitIntoChunks_nonempty (expr ++ eval_suffix)) as Hn.
  destruct (splitIntoChunks (expr ++ eval_suffix)); [done|simpl; lia].
Qed.
(** ** What holds of every run of a connection *)

(** X6.  Every chunk ever handed to [writeValue] is one of the chunks of the
    payload of a request pushed before, and makes at most 16 bytes. *)
Theorem wire_chunks_bounded (cb : ConnCb) (p : Puck) (es : list Event)
    (r : nat) (c : jsstring) :
  let tr := snd (run (connect cb p) es) in
  OWriteValue r c ∈ tr ->
  length (str2ab c) <= 16 /\
  exists d u, OPush r d u ∈ tr /\ c ∈ splitIntoChunks d.
Proof.
  intros tr Hin. pose proof (QInv_reach cb p es) as H. fold tr in H.
  apply list_elem_of_split in Hin as (a & b & E).
  destruct (monitored_split _ _ _ _ _ (q_mon _ _ H) E) as [(d & u & Hp & [k Hk]) _].
  simpl in Hp.
  assert (c ∈ splitIntoChunks d) as Hc.
  { rewrite Hk. apply elem_of_app. left. apply elem_of_app. right. by left. }
  split.
  - pose proof (splitIntoChunks_bound d) as Hb. rewrite Forall_forall in Hb.
    unfold str2ab. rewrite length_map. by apply Hb.
  - exists d, u. split; [|done]. rewrite E. apply elem_of_app. by left.
Qed.

Lemma wire_chunks_bounded_witness :
  length (str2ab [104; 105]%N) <= 16.
Proof.
  pose proof (wire_chunks_bounded (UserConnCb 0) idle
                (opening ++ [EWrite [104; 105]%N None]) 0 [104; 105]%N) as H.
  cbv zeta in H. destruct H as [H _]; [|exact H].
  apply list_elem_of_In. vm_compute. tauto.
Defined.

(** X7.  When the callback of a request is called, the chunks handed over for
    it make up its payload, byte for byte. *)
Theorem callback_after_whole_payload (cb : ConnCb) (p : Puck) (es : list Event)
    (pre post : list Obs) (r : nat) (c : Cb) :
  snd (run (connect cb p) es) = pre ++ OCallback r c :: post ->
  exists d, OPush r d (Some c) ∈ pre /\
            concat (written r pre) = d /\
            concat (map str2ab (written r pre)) = str2ab d.
Proof.
  intros E. pose proof (QInv_reach cb p es) as H.
  destruct (monitored_split _ _ _ _ _ (q_mon _ _ H) E) as (d & Hin & Hw & _).
  simpl in *. exists d. split; [done|]. rewrite Hw.
  split; [apply splitIntoChunks_concat|].
  by rewrite str2ab_concat, splitIntoChunks_concat.
Qed.

Lemma callback_after_whole_payload_witness :
  exists d, OPush 0 d (Some (UserCb 7)) ∈
              [OConnected true; OEmit EvOpen None; OPush 0 [104; 105]%N (Some (UserCb 7));
               OWriteValue 0 [104; 105]%N; OAck 0 true] /\
            concat (written 0 [OConnected true; OEmit EvOpen None;
                               OPush 0 [104; 105]%N (Some (UserCb 7));
                               OWriteValue 0 [104; 105]%N; OAck 0 true]) = d /\
            concat (map str2ab (written 0 [OConnected true; OEmit EvOpen None;
                               OPush 0 [104; 105]%N (Some (UserCb 7));
                               OWriteValue 0 [104; 105]%N; OAck 0 true])) = str2ab d.
Proof.
  apply (callback_after_whole_payload (UserConnCb 0) idle
           (opening ++ [EWrite [104; 105]%N (Some 7); ETx 0 true]) _ [] 0 (UserCb 7)).
  vm_compute. reflexivity.
Defined.

(** X8.  When [txInProgress] is unset the queue is empty and nothing is in
    flight; what is in flight is one chunk, of the request at the head of
    the queue; the queue holds the requests in the order they were
    pushed; and it is empty as long as the negotiation lasts. *)
Theorem in_flight_is_head (cb : ConnCb) (p : Puck) (es : list Event) :
  let c := conn (fst (run (connect cb p) es)) in
  (txInProgress c = false -> txDataQueue c = [] /\ pendingTx c = []) /\
  (forall r, r ∈ pendingTx c ->
     pendingTx c = [r] /\ hd_error (txDataQueue c) = Some r /\ txInProgress c = true) /\
  StronglySorted lt (txDataQueue c) /\
  (stage c <> Settled -> txDataQueue c = [] /\ pendingTx c = [] /\ items c = []).
Proof.
  intros c. pose proof (QInv_reach cb p es) as H. fold c in H. split_and!.
  - by eapply QInv_idle.
  - intros r Hr.
    destruct (q_shape _ _ H) as [(Hp & _)|(r0 & q' & Hp & Hq & Hi & _)]; simpl in *.
    + rewrite Hp in Hr. by apply elem_of_nil in Hr.
    + rewrite Hp in Hr. apply list_elem_of_singleton in Hr as ->.
      by rewrite Hp, Hq.
  - apply (q_sorted _ _ H).
  - intros Hs. destruct (q_pre _ _ H Hs) as (_ & ? & ? & ? & _). done.
Qed.

Lemma write_accepted w tr d u :
  QInv (qv (conn w)) tr -> txCharacteristic (conn w) = true ->
  exists o,
    snd (step (EWrite d u) w) = OPush (length (items (conn w))) d (UserCb <$> u) :: o /\
    txDataQueue (conn (fst (step (EWrite d u) w))) =
      txDataQueue (conn w) ++ [length (items (conn w))].
Proof.
  intros H Ht.
  apply (wp_step (EWrite d u) w (fun x => exists o,
    snd x = OPush (length (items (conn w))) d (UserCb <$> u) :: o /\
    txDataQueue (conn (fst x)) = txDataQueue (conn w) ++ [length (items (conn w))])).
  unfold handle.
  destruct (txInProgress (conn w)) eqn:Hi.
  - destruct w as [c p]. cbn [conn] in *. unfold connection_write. wp_go.
    eexists. split; reflexivity.
  - destruct (QInv_idle _ _ H Hi) as [Hq Hp].
    destruct w as [c p]. cbn [conn] in *. unfold connection_write. wp_go.
    all: eexists; split; reflexivity.
Qed.

(** X9.  [connection.write] is accepted exactly on an open connection: before
    the negotiation has finished and after the connection was closed it
    returns having done nothing, the request is not kept for later; on an
    open connection the request is pushed at the end of the queue. *)
Theorem write_accepted_iff_open (cb : ConnCb) (p : Puck) (es : list Event)
    (d : jsstring) (u : option nat) :
  let w := fst (run (connect cb p) es) in
  (isOpen (conn w) = false -> step (EWrite d u) w = (w, [])) /\
  (isOpen (conn w) = true ->
     exists o,
       snd (step (EWrite d u) w) = OPush (length (items (conn w))) d (UserCb <$> u) :: o /\
       txDataQueue (conn (fst (step (EWrite d u) w))) =
         txDataQueue (conn w) ++ [length (items (conn w))]).
Proof.
  intros w. pose proof (SInv_reach cb p es) as HS. pose proof (QInv_reach cb p es) as H.
  fold w in HS, H. split; intros Ho.
  - apply write_noop. by rewrite (s_tx _ _ _ HS).
  - eapply write_accepted; [done|]. by rewrite (s_tx _ _ _ HS).
Qed.

(** X10.  ['open'] is emitted at most once; while the negotiation lasts the
    connection is not open and has emitted neither ['open'] nor
    ['close']; and no ['data'] is emitted before the listener for
    ['characteristicvaluechanged'] is registered. *)
Theorem events_follow_negotiation (cb : ConnCb) (p : Puck) (es : list Event) :
  let c := conn (fst (run (connect cb p) es)) in
  let tr := snd (run (connect cb p) es) in
  emits EvOpen tr <= 1 /\
  (stage c <> Settled ->
     isOpen c = false /\ emits EvOpen tr = 0 /\ emits EvClose tr = 0) /\
  (valueListener c = false -> emits EvData tr = 0).
Proof.
  intros c tr. pose proof (SInv_reach cb p es) as HS. fold c tr in HS. split_and!.
  - apply (s_opened _ _ _ HS).
  - intros Hs. destruct (s_negotiating _ _ _ HS Hs) as [? ?]. split_and!; try done.
    destruct (isOpen c) eqn:E; [|done]. by apply (s_open _ _ _ HS) in E.
  - apply (s_data _ _ _ HS).
Qed.
(** ** The calls of [connect]'s callback *)

Lemma handed_app t1 t2 : handed (t1 ++ t2) = handed t1 + handed t2.
Proof.
  induction t1 as [|o t1 IH]; [done|]. destruct o as [| | | | |[]| | | | | |]; simpl; rewrite ?IH; lia.
Qed.

Lemma refused_app t1 t2 : refused (t1 ++ t2) = refused t1 + refused t2.
Proof.
  induction t1 as [|o t1 IH]; [done|]. destruct o as [| | | | |[]| | | | | |]; simpl; rewrite ?IH; lia.
Qed.

Lemma silent_handed o : Forall silent o -> handed o = 0.
Proof.
  induction 1 as [|x o Hx _ IH]; [done|]. by destruct x.
Qed.

Lemma silent_refused o : Forall silent o -> refused o = 0.
Proof.
  induction 1 as [|x o Hx _ IH]; [done|]. by destruct x.
Qed.

Ltac call_tac :=
  repeat (rewrite ?emits_app, ?disconnects_app, ?handed_app, ?refused_app; cbn);
  rewrite ?decide_True by reflexivity; rewrite ?decide_False by discriminate;
  repeat match goal with
         | H : Forall _ ?o |- _ =>
           try rewrite (silent_emits EvOpen o H);
           try rewrite (silent_emits EvData o H);
           try rewrite (silent_emits EvClose o H);
           try rewrite (silent_disconnects o H);
           try rewrite (silent_handed o H);
           try rewrite (silent_refused o H);
           clear H
         end;
  cbn; rewrite ?decide_True by reflexivity; rewrite ?decide_False by discriminate;
  cbn; rewrite ?Nat.add_0_r.

Ltac call_leaf :=
  cbn in *; subst;
  repeat match goal with
         | |- context [if ?b then _ else _] => is_var b; destruct b
         end;
  call_tac;
  try lia;
  try solve [intuition (subst; cbn in *; try congruence; try lia)];
  try solve [match goal with h : bool |- context [?h' && _] => destruct h' end; cbn;
             intuition (subst; cbn in *; try congruence; try lia)].

Lemma NInv_step h e w tr :
  SInv h (conn w) tr -> NInv h (conn w) tr ->
  NInv (h && admissible e (conn w)) (conn (fst (step e w))) (tr ++ snd (step e w)).
Proof.
  intros [H1 H2 H3 _ H5 H6 H7 _ _ _ H11] [N1 N2 N3 N4 N5 N6 N7 N8].
  apply (wp_step e w (fun x => NInv (h && admissible e (conn w)) (conn (fst x)) (tr ++ snd x))).
  destruct w as [c p]. destruct c. cbn in *.
  destruct e; unfold handle.
  all: wp_go.
  all: try match goal with evt : Evt |- _ => destruct evt end.
  all: constructor; call_leaf.
Qed.

Lemma NInv_run es : forall h w tr,
  SInv h (conn w) tr -> NInv h (conn w) tr ->
  NInv (h && honest w es) (conn (fst (run w es))) (tr ++ snd (run w es)).
Proof.
  induction es as [|e es IH]; intros h w tr HS HN.
  - rewrite run_nil. simpl. by rewrite app_nil_r, andb_true_r.
  - rewrite run_cons. cbn [fst snd honest]. rewrite app_assoc, andb_assoc.
    apply IH; [by apply SInv_step|by apply NInv_step].
Qed.

Lemma NInv_reach cb p es :
  NInv (honest (connect cb p) es)
       (conn (fst (run (connect cb p) es))) (snd (run (connect cb p) es)).
Proof.
  apply (NInv_run es true (connect cb p) []); [apply SInv_connect|].
  constructor; simpl; try done; lia.
Qed.

(** X11.  The function given to [connect] is called at most once with the
    connection and at most once with [null]; and at most once in all if
    the transport keeps its promise about a session that is down. *)
Theorem connect_callback_at_most_once (cb : ConnCb) (p : Puck) (es : list Event) :
  let tr := snd (run (connect cb p) es) in
  handed tr <= 1 /\ refused tr <= 1 /\
  (honest (connect cb p) es = true -> handed tr + refused tr <= 1).
Proof.
  intros tr. pose proof (NInv_reach cb p es) as HN. pose proof (SInv_reach cb p es) as HS.
  fold tr in HN, HS. split_and!.
  - apply (n_handed _ _ _ HN).
  - pose proof (n_reported _ _ _ HN). pose proof (s_once _ _ _ HS). lia.
  - intros Hh. rewrite Hh in HN. by apply (n_honest _ _ _ HN).
Qed.

(** X12.  Each [btServer.disconnect()] is reported exactly once, by ['close']
    or by [callback(null)]; ['open'] and ['close'] are only emitted on a
    connection that was given to [callback]; and a connection that is
    open was given to it. *)
Theorem disconnect_reported_once (cb : ConnCb) (p : Puck) (es : list Event) :
  let c := conn (fst (run (connect cb p) es)) in
  let tr := snd (run (connect cb p) es) in
  refused tr + emits EvClose tr = disconnects tr /\
  emits EvOpen tr <= handed tr /\
  emits EvClose tr <= handed tr /\
  (isOpen c = true -> handed tr = 1).
Proof.
  intros c tr. pose proof (NInv_reach cb p es) as HN. fold c tr in HN.
  split_and!; [apply (n_reported _ _ _ HN)|apply (n_open _ _ _ HN)|
               apply (n_close _ _ _ HN)|apply (n_isOpen _ _ _ HN)].
Qed.
(** ** A negotiation that fails with the GATT session up *)

Lemma connecteds_nil tr : handed tr = 0 -> refused tr = 0 -> connecteds tr = [].
Proof.
  induction tr as [|x tr IH]; [done|]. destruct x as [| | | | |[]| | | | | |]; simpl; auto; lia.
Qed.

Lemma step_late_failure w :
  btServer (conn w) = true -> isOpen (conn w) = false -> stage (conn w) <> Settled ->
  dead (conn (fst (step (EChain false) w))) /\
  connecteds (snd (step (EChain false) w)) = [false] /\
  emits EvOpen (snd (step (EChain false) w)) = 0 /\
  emits EvClose (snd (step (EChain false) w)) = 0 /\
  disconnects (snd (step (EChain false) w)) = 1.
Proof.
  intros Hb Ho Hs.
  apply (wp_step (EChain false) w (fun x => dead (conn (fst x)) /\
    connecteds (snd x) = [false] /\ emits EvOpen (snd x) = 0 /\
    emits EvClose (snd x) = 0 /\ disconnects (snd x) = 1)).
  destruct w as [c p]. destruct c. cbn in *. subst.
  unfold handle, chain_settle. wp_go.
  all: try done.
  all: split_and!; [constructor; reflexivity|..]; count_tac; done.
Qed.

(** X13.  When a request of the negotiation is rejected while the GATT session
    is up (service, characteristics, notifications), the session is
    disconnected and [callback(null)] is called, exactly once, whatever
    follows; neither ['open'] nor ['close'] is ever emitted. *)
Theorem late_failure_calls_back_once (cb : ConnCb) (p : Puck) (es es' : list Event) :
  let w := fst (run (connect cb p) es) in
  let tr := snd (run (connect cb p) (es ++ EChain false :: es')) in
  stage (conn w) <> Settled -> btServer (conn w) = true ->
  connecteds tr = [false] /\ emits EvOpen tr = 0 /\ emits EvClose tr = 0 /\
  disconnects tr = 1.
Proof.
  intros w tr Hs Hb. subst tr. rewrite run_app, run_cons. cbn [fst snd]. fold w.
  pose proof (SInv_reach cb p es) as HS. pose proof (NInv_reach cb p es) as HN.
  fold w in HS, HN.
  assert (isOpen (conn w) = false) as Ho.
  { destruct (isOpen (conn w)) eqn:E; [|done]. by apply (s_open _ _ _ HS) in E. }
  assert (disconnects (snd (run (connect cb p) es)) = 0) as Hd.
  { destruct (disconnects (snd (run (connect cb p) es))) eqn:E; [done|].
    destruct (s_cleared _ _ _ HS) as [Hb' _]; [lia|congruence]. }
  destruct (s_negotiating _ _ _ HS Hs) as [Eo Ec].
  pose proof (n_negotiating _ _ _ HN Hs) as Hh.
  pose proof (n_reported _ _ _ HN) as Hr.
  destruct (step_late_failure w Hb Ho Hs) as (Hdead & E1 & E2 & E3 & E4).
  destruct (run_dead es' _ Hdead) as (_ & F1 & F2 & F3).
  assert (disconnects (snd (run (fst (step (EChain false) w)) es')) = 0) as F4.
  { pose proof (SInv_step _ (EChain false) w _ HS) as HS1.
    pose proof (SInv_run es' _ _ _ HS1) as HS2.
    pose proof (s_once _ _ _ HS2) as H1. rewrite !disconnects_app in H1. lia. }
  rewrite !connecteds_app, !emits_app, !disconnects_app.
  rewrite (connecteds_nil _ Hh) by lia.
  rewrite E1, E2, E3, E4, F1, F2, F3, F4, Eo, Ec, Hd. done.
Qed.

Lemma late_failure_calls_back_once_witness :
  connecteds (snd (run (connect (UserConnCb 0) idle)
                       ([EChain true; EChain true; EChain true] ++
                        EChain false :: [EClose; EChain true]))) = [false].
Proof.
  pose proof (late_failure_calls_back_once (UserConnCb 0) idle
                [EChain true; EChain true; EChain true] [EClose; EChain true]) as H.
  cbv zeta in H. destruct H as (H & _); [discriminate|reflexivity|exact H].
Defined.
(** ** Handlers *)

(** X14.  [connection.on(evt, f)] replaces the handler of [evt] and no other:
    an [emit] of [evt] that follows calls [f] with the argument, and
    nothing else; an [emit] with no handler calls nothing. *)
Theorem on_replaces_handler (w : World) (evt : Evt) (id : nat) (arg : option jsstring) :
  let w' := fst (step (EOn evt id) w) in
  snd (step (EOn evt id) w) = [] /\
  handler_of evt (conn w') = Some (UserHandler id) /\
  (forall evt', evt' <> evt -> handler_of evt' (conn w') = handler_of evt' (conn w)) /\
  emit evt arg w' = (Ok tt, w', [OEmit evt arg; OHandler id evt arg]) /\
  (handler_of evt (conn w) = None -> emit evt arg w = (Ok tt, w, [OEmit evt arg])).
Proof.
  destruct w as [c p]. destruct c. split_and!.
  - by destruct evt.
  - by destruct evt.
  - intros evt' Hne. by destruct evt, evt'.
  - by destruct evt.
  - intros Hn. destruct evt; cbn in Hn; subst; reflexivity.
Qed.

(** X15.  The listener for ['characteristicvaluechanged'] gives the bytes of a
    notification to the ['data'] handler as they are, and it does so
    whether the connection is open or not: it has no guard of its own. *)
Theorem notification_forwarded (w : World) (value : list N) (id : nat) :
  valueListener (conn w) = true -> ondata (conn w) = Some (UserHandler id) ->
  step (ENotify value) w =
    (w, [OEmit EvData (Some (ab2str value)); OHandler id EvData (Some (ab2str value))]) /\
  (Forall (fun b => (b < 256)%N) value -> str2ab (ab2str value) = value).
Proof.
  intros Hl Hd. split.
  - destruct w as [c p]. destruct c. cbn in Hl, Hd. subst. reflexivity.
  - unfold str2ab, ab2str. induction 1 as [|b l Hb _ IH]; [done|].
    simpl in *. rewrite IH. f_equal. by apply N.mod_small.
Qed.

Lemma notification_forwarded_witness :
  isOpen (conn (fst (run (connect (UserConnCb 0) idle)
                         (opening ++ [EOn EvData 3; EClose])))) = false /\
  step (ENotify [52; 50]%N)
       (fst (run (connect (UserConnCb 0) idle) (opening ++ [EOn EvData 3; EClose]))) =
    (fst (run (connect (UserConnCb 0) idle) (opening ++ [EOn EvData 3; EClose])),
     [OEmit EvData (Some (ab2str [52; 50]%N)); OHandler 3 EvData (Some (ab2str [52; 50]%N))]).
Proof.
  split; [vm_compute; reflexivity|].
  destruct (notification_forwarded
              (fst (run (connect (UserConnCb 0) idle) (opening ++ [EOn EvData 3; EClose])))
              [52; 50]%N 3) as [H _];
    [vm_compute; reflexivity|vm_compute; reflexivity|exact H].
Defined.

(** ** Reactions followed to the letter *)

(** From here on the reactions are unfolded down to the monad. *)
Ltac wp_spec ::= fail.

Lemma run_negotiated d u :
  run (deferred d u) (replicate 5 (EChain true)) = (negotiated d u, []).
Proof. vm_compute. reflexivity. Qed.

Lemma step_negotiated d u :
  let x := step (EChain true) (negotiated d u) in
  snd x = [OConnected true; OPush 0 d (Some (OnWritten u)); OWriteValue 0 (first_chunk d);
           OEmit EvOpen None] /\
  flying (fst x) 0 (after_chunk d) (Some (OnWritten u)) /\
  around (conn (fst x)) =
    set_ondata (Some PuckData) (set_isOpen true (set_txCharacteristic true
      (set_stage Settled (conn (negotiated d u))))) /\
  puck (fst x) = set_received (Some []) (puck (negotiated d u)).
Proof.
  apply (wp_step (EChain true) (negotiated d u) (fun x =>
    snd x = [OConnected true; OPush 0 d (Some (OnWritten u)); OWriteValue 0 (first_chunk d);
           OEmit EvOpen None] /\
    flying (fst x) 0 (after_chunk d) (Some (OnWritten u)) /\
    around (conn (fst x)) =
      set_ondata (Some PuckData) (set_isOpen true (set_txCharacteristic true
        (set_stage Settled (conn (negotiated d u))))) /\
    puck (fst x) = set_received (Some []) (puck (negotiated d u)))).
  unfold negotiated, handle, chain_settle. unfold first_chunk, after_chunk.
  wp_go.
  all: split_and!; [reflexivity|constructor; reflexivity|reflexivity|reflexivity].
Qed.

(** ** A request, from the push to the callback *)

Lemma step_write_resting w d u :
  txCharacteristic (conn w) = true -> resting w ->
  let y := step (EWrite d u) w in
  snd y = [OPush (length (items (conn w))) d (UserCb <$> u);
           OWriteValue (length (items (conn w))) (first_chunk d)] /\
  flying (fst y) (length (items (conn w))) (after_chunk d) (UserCb <$> u) /\
  around (conn (fst y)) = around (conn w) /\ puck (fst y) = puck w.
Proof.
  intros Ht [Hi Hp Hq].
  apply (wp_step (EWrite d u) w (fun y =>
    snd y = [OPush (length (items (conn w))) d (UserCb <$> u);
             OWriteValue (length (items (conn w))) (first_chunk d)] /\
    flying (fst y) (length (items (conn w))) (after_chunk d) (UserCb <$> u) /\
    around (conn (fst y)) = around (conn w) /\ puck (fst y) = puck w)).
  destruct w as [c p]. destruct c. cbn in *. subst.
  unfold handle, first_chunk, after_chunk. wp_go.
  all: split_and!; [reflexivity| |reflexivity|reflexivity].
  all: constructor; cbn; try reflexivity.
  all: rewrite insert_snoc; by apply list_lookup_middle.
Qed.

Lemma step_ack_more w r x cbk :
  flying w r (Some x) cbk -> x <> [] ->
  let y := step (ETx 0 true) w in
  snd y = [OAck r true; OWriteValue r (first_chunk x)] /\
  flying (fst y) r (after_chunk x) cbk /\
  around (conn (fst y)) = around (conn w) /\ puck (fst y) = puck w.
Proof.
  intros [Ht Hp Hq Hi] Hx. pose proof (falsy_nonempty x Hx) as Hf.
  pose proof (lookup_lt_Some _ _ _ Hi) as Hlt.
  apply (wp_step (ETx 0 true) w (fun y =>
    snd y = [OAck r true; OWriteValue r (first_chunk x)] /\
    flying (fst y) r (after_chunk x) cbk /\
    around (conn (fst y)) = around (conn w) /\ puck (fst y) = puck w)).
  destruct w as [c p]. destruct c. cbn in *. subst.
  unfold handle, first_chunk, after_chunk. wp_go.
  all: split_and!; [reflexivity| |reflexivity|reflexivity].
  all: constructor; cbn; try reflexivity.
  all: by apply list_lookup_insert_eq.
Qed.

Lemma step_ack_last_user w r i :
  flying w r None (Some (UserCb i)) ->
  let y := step (ETx 0 true) w in
  snd y = [OAck r true; OCallback r (UserCb i)] /\
  resting (fst y) /\
  around (conn (fst y)) = around (conn w) /\ puck (fst y) = puck w.
Proof.
  intros [Ht Hp Hq Hi]. assert (falsy None = true) as Hf by done.
  apply (wp_step (ETx 0 true) w (fun y =>
    snd y = [OAck r true; OCallback r (UserCb i)] /\
    resting (fst y) /\
    around (conn (fst y)) = around (conn w) /\ puck (fst y) = puck w)).
  destruct w as [c p]. destruct c. cbn in *. subst.
  unfold handle. wp_go.
  split_and!; [reflexivity|constructor; reflexivity|reflexivity|reflexivity].
Qed.

Lemma step_ack_last_facade w r u :
  flying w r None (Some (OnWritten u)) -> connection (puck w) = true ->
  let y := step (ETx 0 true) w in
  snd y = OAck r true :: OCallback r (OnWritten u) ::
          match u with Some _ => [OSetTimeout 250] | None => [] end /\
  resting (fst y) /\
  around (conn (fst y)) = around (conn w) /\
  puck (fst y) =
    match u with
    | Some i => set_timers (timers (puck w) ++ [{| maxTime := 10; timer_callback := i |}])
                           (puck w)
    | None => set_received (Some []) (puck w)
    end.
Proof.
  intros [Ht Hp Hq Hi] Hc. assert (falsy None = true) as Hf by done.
  apply (wp_step (ETx 0 true) w (fun y =>
    snd y = OAck r true :: OCallback r (OnWritten u) ::
            match u with Some _ => [OSetTimeout 250] | None => [] end /\
    resting (fst y) /\
    around (conn (fst y)) = around (conn w) /\
    puck (fst y) =
      match u with
      | Some i => set_timers (timers (puck w) ++ [{| maxTime := 10; timer_callback := i |}])
                             (puck w)
      | None => set_received (Some []) (puck w)
      end)).
  destruct w as [c p]. destruct c. destruct p. cbn in *. subst.
  unfold handle. destruct u; wp_go.
  all: split_and!; [reflexivity|constructor; reflexivity|reflexivity|reflexivity].
Qed.

Lemma rest_first x : splitIntoChunks x = first_chunk x :: rest (after_chunk x).
Proof. rewrite (splitIntoChunks_first x). by destruct (after_chunk x). Qed.

Lemma run_flying n : forall w r rem cbk,
  flying w r rem cbk -> rem <> Some [] -> length (rest rem) = n ->
  let y := run w (replicate n (ETx 0 true)) in
  snd y = flat_map (fun c => [OAck r true; OWriteValue r c]) (rest rem) /\
  flying (fst y) r None cbk /\
  around (conn (fst y)) = around (conn w) /\ puck (fst y) = puck w.
Proof.
  induction n as [|n IH]; intros w r rem cbk Hf Hrem Hn.
  - destruct rem as [x|].
    + simpl in Hn. pose proof (splitIntoChunks_nonempty x). by destruct (splitIntoChunks x).
    + by rewrite run_nil.
  - destruct rem as [x|]; [|done].
    assert (x <> []) as Hx by congruence.
    destruct (step_ack_more w r x cbk Hf Hx) as (E1 & Hf1 & Ha1 & Hp1).
    cbn [rest] in *. rewrite rest_first in Hn |- *. cbn [length] in Hn.
    destruct (IH _ r (after_chunk x) cbk Hf1) as (E2 & Hf2 & Ha2 & Hp2);
      [apply after_chunk_not_empty|lia|].
    cbn [replicate]. rewrite run_cons. cbn [fst snd flat_map].
    rewrite E1, E2. split_and!; [done|done|congruence|congruence].
Qed.

Lemma chunks_of_transfer r d : chunks_of (transfer r d) = splitIntoChunks d.
Proof.
  unfold transfer. rewrite (rest_first d). cbn [chunks_of]. f_equal.
  rewrite chunks_of_app. simpl. rewrite app_nil_r.
  induction (rest (after_chunk d)) as [|c cs IH]; [done|].
  cbn [flat_map app chunks_of]. by rewrite IH.
Qed.

Lemma run_transfer w r d cbk :
  flying w r (after_chunk d) cbk ->
  let y := run w (replicate (length (rest (after_chunk d))) (ETx 0 true)) in
  OWriteValue r (first_chunk d) :: snd y ++ [OAck r true] = transfer r d /\
  flying (fst y) r None cbk /\
  around (conn (fst y)) = around (conn w) /\ puck (fst y) = puck w.
Proof.
  intros Hf.
  destruct (run_flying _ w r (after_chunk d) cbk Hf (after_chunk_not_empty d) eq_refl)
    as (E & Hf' & Ha & Hp).
  cbn zeta. rewrite E. done.
Qed.

Lemma acknowledgements_snoc d :
  acknowledgements d = replicate (length (rest (after_chunk d))) (ETx 0 true) ++ [ETx 0 true].
Proof.
  unfold acknowledgements. rewrite (rest_first d). cbn [length].
  induction (length (rest (after_chunk d))) as [|n IH]; [done|].
  cbn [replicate app]. by rewrite <- IH.
Qed.
Lemma around_isOpen c : isOpen (around c) = isOpen c.
Proof. by destruct c. Qed.

Lemma around_ondata c : ondata (around c) = ondata c.
Proof. by destruct c. Qed.

Lemma around_valueListener c : valueListener (around c) = valueListener c.
Proof. by destruct c. Qed.

Lemma around_txCharacteristic c : txCharacteristic (around c) = txCharacteristic c.
Proof. by destruct c. Qed.

(** X16.  On an open connection whose queue is idle, whatever led there, a
    [connection.write(d, f)] whose chunks the transport acknowledges one
    by one hands over the chunks of [d] in order, each after the
    acknowledgement of the one before, then calls [f], once; the queue is
    idle again and the connection open. *)
Theorem write_completes (cb : ConnCb) (p : Puck) (es : list Event)
    (d : jsstring) (i : nat) :
  let w := fst (run (connect cb p) es) in
  let r := length (items (conn w)) in
  let y := run w (EWrite d (Some i) :: acknowledgements d) in
  isOpen (conn w) = true -> txInProgress (conn w) = false ->
  snd y = OPush r d (Some (UserCb i)) :: transfer r d ++ [OCallback r (UserCb i)] /\
  chunks_of (snd y) = splitIntoChunks d /\
  resting (fst y) /\ isOpen (conn (fst y)) = true /\
  around (conn (fst y)) = around (conn w) /\ puck (fst y) = puck w.
Proof.
  intros w r y Ho Hi.
  pose proof (QInv_reach cb p es) as H. pose proof (SInv_reach cb p es) as HS.
  fold w in H, HS.
  destruct (QInv_idle _ _ H Hi) as [Hq Hp].
  assert (txCharacteristic (conn w) = true) as Ht by by rewrite (s_tx _ _ _ HS).
  destruct (step_write_resting w d (Some i) Ht) as (E1 & Hf1 & Ha1 & Hp1); [done|].
  fold r in E1, Hf1.
  destruct (run_transfer _ r d _ Hf1) as (E2 & Hf2 & Ha2 & Hp2).
  destruct (step_ack_last_user _ r i Hf2) as (E3 & Hr3 & Ha3 & Hp3).
  assert (snd y = OPush r d (Some (UserCb i)) :: transfer r d ++ [OCallback r (UserCb i)]) as E.
  { subst y. rewrite run_cons, acknowledgements_snoc, run_app, run_cons, run_nil.
    cbn [fst snd]. rewrite E1, E3, app_nil_r, <- E2. cbn [fmap option_fmap option_map app].
    by rewrite <- !app_assoc. }
  assert (fst y = fst (step (ETx 0 true)
            (fst (run (fst (step (EWrite d (Some i)) w))
                      (replicate (length (rest (after_chunk d))) (ETx 0 true)))))) as Ey.
  { subst y. by rewrite run_cons, acknowledgements_snoc, run_app, run_cons, run_nil. }
  split_and!.
  - done.
  - rewrite E. cbn [chunks_of]. rewrite chunks_of_app, chunks_of_transfer. simpl.
    by rewrite app_nil_r.
  - by rewrite Ey.
  - rewrite Ey, <- around_isOpen, Ha3, Ha2, Ha1, around_isOpen. done.
  - rewrite Ey. congruence.
  - rewrite Ey. congruence.
Qed.

Lemma write_completes_witness :
  chunks_of (snd (run (fst (run (connect (UserConnCb 0) idle) opening))
                      (EWrite [104; 105]%N (Some 7) :: acknowledgements [104; 105]%N))) =
    splitIntoChunks [104; 105]%N.
Proof.
  destruct (write_completes (UserConnCb 0) idle opening [104; 105]%N 7) as (_ & H & _);
    [vm_compute; reflexivity|vm_compute; reflexivity|exact H].
Defined.

(** [Puck.write(d, callback)] with no connection, the negotiation
    succeeding and every chunk acknowledged. *)
Lemma run_deferred d u :
  let y := run (deferred d u) (opening ++ acknowledgements d) in
  snd y = [OConnected true; OPush 0 d (Some (OnWritten u))] ++
          [OWriteValue 0 (first_chunk d); OEmit EvOpen None] ++
          flat_map (fun c => [OAck 0 true; OWriteValue 0 c]) (rest (after_chunk d)) ++
          OAck 0 true :: OCallback 0 (OnWritten u) ::
          match u with Some _ => [OSetTimeout 250] | None => [] end /\
  resting (fst y) /\
  isOpen (conn (fst y)) = true /\ ondata (conn (fst y)) = Some PuckData /\
  valueListener (conn (fst y)) = true /\
  puck (fst y) =
    {| connection := true; received := Some []; hadData := false;
       timers := match u with
                 | Some i => [{| maxTime := 10; timer_callback := i |}]
                 | None => []
                 end |}.
Proof.
  cbn zeta. unfold opening.
  change (replicate 6 (EChain true)) with (replicate 5 (EChain true) ++ [EChain true]).
  rewrite <- (app_assoc (replicate 5 (EChain true))), run_app, run_negotiated.
  cbn [fst snd app].
  rewrite run_cons.
  destruct (step_negotiated d u) as (E1 & Hf1 & Ha1 & Hp1).
  destruct (run_flying _ _ 0 (after_chunk d) _ Hf1 (after_chunk_not_empty d) eq_refl)
    as (E2 & Hf2 & Ha2 & Hp2).
  assert (connection (puck (fst (run (fst (step (EChain true) (negotiated d u)))
            (replicate (length (rest (after_chunk d))) (ETx 0 true))))) = true) as Hc
    by by rewrite Hp2, Hp1.
  destruct (step_ack_last_facade _ 0 u Hf2 Hc) as (E3 & Hr3 & Ha3 & Hp3).
  rewrite acknowledgements_snoc, run_app, run_cons, run_nil. cbn [fst snd].
  rewrite E1, E2, E3, app_nil_r. split_and!.
  - cbn [app]. by rewrite <- ?app_assoc.
  - done.
  - by rewrite <- around_isOpen, Ha3, Ha2, Ha1.
  - by rewrite <- around_ondata, Ha3, Ha2, Ha1.
  - by rewrite <- around_valueListener, Ha3, Ha2, Ha1.
  - rewrite Hp3, Hp2, Hp1. by destruct u.
Qed.

Lemma chunks_of_flat r cs :
  chunks_of (flat_map (fun c => [OAck r true; OWriteValue r c]) cs) = cs.
Proof.
  induction cs as [|c cs IH]; [done|]. cbn [flat_map app chunks_of]. by rewrite IH.
Qed.

Lemma callbacks_flat r r' cs :
  callbacks r' (flat_map (fun c => [OAck r true; OWriteValue r c]) cs) = [].
Proof.
  induction cs as [|c cs IH]; [done|]. cbn [flat_map app callbacks]. exact IH.
Qed.

Lemma connecteds_flat r cs :
  connecteds (flat_map (fun c => [OAck r true; OWriteValue r c]) cs) = [].
Proof.
  induction cs as [|c cs IH]; [done|]. cbn [flat_map app connecteds]. exact IH.
Qed.

(** X17.  [Puck.write(d, callback)] with no connection, when the negotiation
    succeeds and the transport acknowledges every chunk: all of [d] is
    sent, in order; [onWritten] is called once and nothing throws, with a
    [callback] or without; the connection stays open, its queue idle. *)
Theorem facade_write_flushes (d : jsstring) (u : option nat) :
  let y := run (deferred d u) (opening ++ acknowledgements d) in
  chunks_of (snd y) = splitIntoChunks d /\
  callbacks 0 (snd y) = [OnWritten u] /\
  (OTypeError ∉ snd y) /\
  connecteds (snd y) = [true] /\
  resting (fst y) /\ isOpen (conn (fst y)) = true /\ received (puck (fst y)) = Some [].
Proof.
  destruct (run_deferred d u) as (E & Hr & Ho & _ & _ & Hp).
  cbn zeta. rewrite E, Hp. split_and!; try done.
  - cbn [app chunks_of]. rewrite chunks_of_app, chunks_of_flat, (rest_first d).
    destruct u; cbn; by rewrite app_nil_r.
  - cbn [app callbacks]. rewrite callbacks_app.
    rewrite callbacks_flat.
    by destruct u.
  - intros Hin. cbn [app] in Hin.
    repeat (apply elem_of_cons in Hin as [?|Hin]; [done|]).
    apply elem_of_app in Hin as [Hin|Hin].
    + apply list_elem_of_In, in_flat_map in Hin as (c & _ & Hin).
      simpl in Hin. by destruct Hin as [?|[?|[]]].
    + destruct u; repeat (apply elem_of_cons in Hin as [?|Hin]; [done|]);
        by apply elem_of_nil in Hin.
  - cbn [app connecteds]. rewrite connecteds_app.
    rewrite connecteds_flat.
    by destruct u.
Qed.

(** Notifications and timers leave the connection as it is and hand
    nothing to the transport. *)
Lemma step_poll_frame e w :
  match e with ENotify _ | ETimer _ => True | _ => False end ->
  conn (fst (step e w)) = conn w /\ Forall quiet (snd (step e w)).
Proof.
  intros He.
  apply (wp_step e w (fun x => conn (fst x) = conn w /\ Forall quiet (snd x))).
  destruct w as [c p]. destruct e; try done; unfold handle; wp_go.
  all: split; [reflexivity|repeat constructor].
Qed.

Lemma run_poll_frame ws : forall w,
  conn (fst (run w (poll_events ws))) = conn w /\
  Forall quiet (snd (run w (poll_events ws))).
Proof.
  assert (forall es w,
    Forall (fun e => match e with ENotify _ | ETimer _ => True | _ => False end) es ->
    conn (fst (run w es)) = conn w /\ Forall quiet (snd (run w es))) as Hes.
  { induction es as [|e es IH]; intros w Hes; [by split|].
    apply Forall_cons in Hes as [He Hes]. rewrite run_cons. cbn [fst snd].
    destruct (step_poll_frame e w He) as [E1 Hq1].
    destruct (IH (fst (step e w)) Hes) as [E2 Hq2].
    split; [congruence|by apply Forall_app]. }
  intros w. apply Hes. unfold poll_events, window_events.
  apply Forall_concat, Forall_fmap, Forall_forall. intros vs _. cbn.
  apply Forall_app. split; [|by repeat constructor].
  apply Forall_fmap, Forall_forall. by intros v _.
Qed.

Lemma quiet_chunks_of o : Forall quiet o -> chunks_of o = [].
Proof.
  induction 1 as [|x o Hx _ IH]; [done|]. by destruct x.
Qed.

(** X18.  The whole of [Puck.write(d, callback)] with a callback and no
    connection: negotiation, transfer and the wait for the response.
    Whatever arrives in the windows of the poll is given to [callback],
    once, in order of arrival, and nothing else is sent meanwhile. *)
Theorem facade_write_round_trip (d : jsstring) (u : nat)
    (noisy : list (list (list N))) (last : list (list N)) :
  heard_all false noisy = true ->
  length noisy <= 10 ->
  length noisy = 10 \/ heard (flag_after false noisy) last = false ->
  let y := run (deferred d (Some u))
               ((opening ++ acknowledgements d) ++ poll_events (noisy ++ [last])) in
  chunks_of (snd y) = splitIntoChunks d /\
  users (snd y) = [(u, Some (concat (concat (noisy ++ [last]))))] /\
  delivered (fst y) /\ isOpen (conn (fst y)) = true.
Proof.
  intros Hh Hlen Hlast.
  destruct (run_deferred d (Some u)) as (E & Hr & Ho & Hd & Hl & Hp).
  cbn zeta. rewrite run_app. cbn [fst snd].
  set (w := fst (run (deferred d (Some u)) (opening ++ acknowledgements d))) in *.
  assert (polling w u [] false 10) as Hpoll.
  { constructor; try done; by rewrite Hp. }
  destruct (run_poll_frame (noisy ++ [last]) w) as [Ec Hq].
  destruct (run_poll_heard noisy w u [] false 10 Hpoll Hh) as [Hp' Hu]; [lia|].
  pose proof (run_window_polling _ _ _ _ _ last Hp') as Hw.
  assert (heard (flag_after false noisy) last &&
          negb (10 - Z.of_nat (length noisy) =? 0)%Z = false) as Eb.
  { destruct Hlast as [Hl'|Hl'].
    - rewrite Hl'. simpl. by rewrite andb_false_r.
    - by rewrite Hl'. }
  rewrite Eb in Hw. destruct Hw as [Hdel Hu'].
  assert (delivered (fst (run w (poll_events (noisy ++ [last])))) /\
          users (snd (run w (poll_events (noisy ++ [last])))) =
            [(u, Some (concat (concat (noisy ++ [last]))))]) as [Hfin Hus].
  { rewrite poll_events_snoc, run_app. cbn [fst snd]. split; [done|].
    rewrite users_app, Hu, Hu', !concat_app. simpl. by rewrite !app_nil_r. }
  split_and!.
  - rewrite chunks_of_app, (quiet_chunks_of _ Hq), app_nil_r, E.
    cbn [app chunks_of]. rewrite chunks_of_app, chunks_of_flat, (rest_first d).
    cbn. by rewrite app_nil_r.
  - rewrite users_app, E, Hus.
    assert (users ([OConnected true; OPush 0 d (Some (OnWritten (Some u)))] ++
                   [OWriteValue 0 (first_chunk d); OEmit EvOpen None] ++
                   flat_map (fun c => [OAck 0 true; OWriteValue 0 c]) (rest (after_chunk d)) ++
                   [OAck 0 true; OCallback 0 (OnWritten (Some u)); OSetTimeout 250]) = []) as ->.
    { cbn [app users]. rewrite users_app.
      assert (forall cs, users (flat_map (fun c => [OAck 0 true; OWriteValue 0 c]) cs) = [])
        as -> by (induction cs as [|c cs IH]; [done|exact IH]).
      done. }
    done.
  - done.
  - by rewrite Ec.
Qed.

Lemma facade_write_round_trip_witness :
  users (snd (run (deferred [49; 43; 49; 10]%N (Some 0))
                  ((opening ++ acknowledgements [49; 43; 49; 10]%N) ++
                   poll_events ([[[50]%N]] ++ [[]])))) =
    [(0, Some (concat (concat ([[[50]%N]] ++ [[]]))))].
Proof.
  destruct (facade_write_round_trip [49; 43; 49; 10]%N 0 [[[50]%N]] []) as (_ & H & _);
    [reflexivity|simpl; lia|by right|exact H].
Defined.
Lemma opening_snoc : opening = replicate 5 (EChain true) ++ [EChain true].
Proof. reflexivity. Qed.

Lemma fst_pair {A B} (a : A) (b : B) : fst (a, b) = a.
Proof. reflexivity. Qed.

Lemma snd_pair {A B} (a : A) (b : B) : snd (a, b) = b.
Proof. reflexivity. Qed.

(** X19.  [Puck.write(d, callback)] with no connection waits for the
    negotiation: when it succeeds the function given to [connect] takes
    the ['data'] handler and writes [d], so the first chunk of [d] is on
    its way before ['open'] is emitted; the connection is open, the
    receive buffer empty. *)
Theorem deferred_write_sent_on_open (d : jsstring) (u : option nat) :
  let y := run (deferred d u) opening in
  snd y = [OConnected true; OPush 0 d (Some (OnWritten u)); OWriteValue 0 (first_chunk d);
           OEmit EvOpen None] /\
  flying (fst y) 0 (after_chunk d) (Some (OnWritten u)) /\
  isOpen (conn (fst y)) = true /\ ondata (conn (fst y)) = Some PuckData /\
  connection (puck (fst y)) = true /\ received (puck (fst y)) = Some [].
Proof.
  cbn zeta. rewrite opening_snoc, run_snoc, run_negotiated, !fst_pair, !snd_pair, app_nil_l.
  destruct (step_negotiated d u) as (E1 & Hf1 & Ha1 & Hp1).
  split_and!.
  - exact E1.
  - exact Hf1.
  - rewrite <- around_isOpen, Ha1. reflexivity.
  - rewrite <- around_ondata, Ha1. reflexivity.
  - rewrite Hp1. reflexivity.
  - rewrite Hp1. reflexivity.
Qed.

Lemma step_puck_resting w d u :
  connection (puck w) = true -> isOpen (conn w) = true ->
  txCharacteristic (conn w) = true -> resting w ->
  let y := step (EPuck d u) w in
  snd y = [OPush (length (items (conn w))) d (Some (OnWritten u));
           OWriteValue (length (items (conn w))) (first_chunk d)] /\
  flying (fst y) (length (items (conn w))) (after_chunk d) (Some (OnWritten u)) /\
  around (conn (fst y)) = around (conn w) /\ puck (fst y) = set_received (Some []) (puck w).
Proof.
  intros Hc Ho Ht [Hi Hp Hq].
  apply (wp_step (EPuck d u) w (fun y =>
    snd y = [OPush (length (items (conn w))) d (Some (OnWritten u));
             OWriteValue (length (items (conn w))) (first_chunk d)] /\
    flying (fst y) (length (items (conn w))) (after_chunk d) (Some (OnWritten u)) /\
    around (conn (fst y)) = around (conn w) /\ puck (fst y) = set_received (Some []) (puck w))).
  destruct w as [c p]. destruct c. destruct p. cbn in *. subst.
  unfold handle, first_chunk, after_chunk. wp_go.
  all: split_and!; [reflexivity| |reflexivity|reflexivity].
  all: constructor; cbn; try reflexivity.
  all: rewrite insert_snoc; by apply list_lookup_middle.
Qed.

(** X20.  [Puck.eval(expr, cb)] on the façade's open connection, its queue
    idle: no negotiation is started; the receive buffer is emptied and
    one request is pushed, whose payload is [expr] wrapped in
    ['\x10Bluetooth.print(JSON.stringify('] and ['))\n'], and whose first
    chunk, ['\x10Bluetooth.print'], is handed to the transport. *)
Theorem eval_on_open_connection (w : World) (expr : jsstring) (u : option nat) :
  connection (puck w) = true -> isOpen (conn w) = true ->
  txCharacteristic (conn w) = true -> resting w ->
  let r := length (items (conn w)) in
  let y := Puck_eval expr u w in
  snd y = [OPush r (eval_prefix ++ expr ++ eval_suffix) (Some (OnWritten u));
           OWriteValue r (take 16 eval_prefix)] /\
  flying (fst y) r (Some (drop 16 eval_prefix ++ expr ++ eval_suffix))
         (Some (OnWritten u)) /\
  around (conn (fst y)) = around (conn w) /\
  puck (fst y) = set_received (Some []) (puck w).
Proof.
  intros Hc Ho Ht Hr. cbn zeta. unfold Puck_eval, Puck_write. rewrite Hc, Ho. cbn [andb].
  destruct (step_puck_resting w (eval_prefix ++ expr ++ eval_suffix) u Hc Ho Ht Hr)
    as (E & Hf & Ha & Hp).
  assert (first_chunk (eval_prefix ++ expr ++ eval_suffix) = take 16 eval_prefix) as E1
    by reflexivity.
  assert (after_chunk (eval_prefix ++ expr ++ eval_suffix) =
          Some (drop 16 eval_prefix ++ expr ++ eval_suffix)) as E2 by reflexivity.
  rewrite E1 in E. rewrite E2 in Hf. done.
Qed.

Lemma eval_on_open_connection_witness :
  snd (Puck_eval [49]%N (Some 0) (fst (run (deferred [] None) (opening ++ acknowledgements [])))) =
    [OPush 1 (eval_prefix ++ [49]%N ++ eval_suffix) (Some (OnWritten (Some 0)));
     OWriteValue 1 (take 16 eval_prefix)].
Proof.
  destruct (eval_on_open_connection
              (fst (run (deferred [] None) (opening ++ acknowledgements [])))
              [49]%N (Some 0)) as (H & _);
    [vm_compute; reflexivity|vm_compute; reflexivity|vm_compute; reflexivity|
     constructor; vm_compute; reflexivity|].
  exact H.
Defined.
(** ** [close] *)

Lemma step_close_session w :
  btServer (conn w) = true ->
  exists p' o, Forall silent o /\
    step EClose w =
      ({| conn := closed_conn (conn w); puck := p' |},
       ODisconnect :: (if isOpen (conn w) then OEmit EvClose None else OConnected false) :: o).
Proof.
  intros Hb.
  apply (wp_step EClose w (fun y => exists p' o, Forall silent o /\
    y = ({| conn := closed_conn (conn w); puck := p' |},
         ODisconnect :: (if isOpen (conn w) then OEmit EvClose None else OConnected false) :: o))).
  unfold handle. apply wp_close; [congruence|].
  intros _ r p' o Ho. destruct r as [[]|].
  - by exists p', o.
  - exists p', (o ++ [OUncaught]). split; [|done].
    apply Forall_app. split; [done|by repeat constructor].
Qed.

(** X21.  [connection.close()] while the GATT session is up: the session is
    disconnected, once, and the connection is closed; if it was open
    ['close'] is emitted, if it was still negotiating [callback(null)] is
    called instead; and the write queue is left as it was, requests and
    all. *)
Theorem close_closes (cb : ConnCb) (p : Puck) (es : list Event) :
  let w := fst (run (connect cb p) es) in
  let y := step EClose w in
  btServer (conn w) = true ->
  Closed (conn (fst y)) /\
  disconnects (snd y) = 1 /\
  emits EvClose (snd y) = (if isOpen (conn w) then 1 else 0) /\
  refused (snd y) = (if isOpen (conn w) then 0 else 1) /\
  handed (snd y) = 0 /\
  qv (conn (fst y)) =
    {| vq := txDataQueue (conn w); vp := pendingTx (conn w); vip := txInProgress (conn w);
       vitems := items (conn w); vstage := stage (conn w); vtx := false |}.
Proof.
  intros w y Hb. pose proof (SInv_reach cb p es) as HS. fold w in HS.
  destruct (step_close_session w Hb) as (p' & o & Ho & E). subst y. rewrite E.
  cbn [fst snd conn]. split_and!.
  - constructor; try by destruct (conn w). 
    rewrite <- (s_server _ _ _ HS Hb). by destruct (conn w).
  - destruct (isOpen (conn w)); cbn; by rewrite (silent_disconnects o Ho).
  - destruct (isOpen (conn w)); cbn; by rewrite (silent_emits _ o Ho).
  - destruct (isOpen (conn w)); cbn; by rewrite (silent_refused o Ho).
  - destruct (isOpen (conn w)); cbn; by rewrite (silent_handed o Ho).
  - by destruct (conn w).
Qed.

Lemma close_closes_witness :
  Closed (conn (fst (step EClose (fst (run (connect (UserConnCb 0) idle)
                                           (opening ++ [EWrite [49]%N (Some 1)])))))).
Proof.
  destruct (close_closes (UserConnCb 0) idle (opening ++ [EWrite [49]%N (Some 1)]))
    as (H & _); [vm_compute; reflexivity|exact H].
Defined.

(** X22.  If the transport keeps its promise, an open connection has its GATT
    session and its TX characteristic, the negotiation is over, and the
    function given to [connect] was called with the connection and never
    with [null]. *)
Theorem open_connection_has_session (cb : ConnCb) (p : Puck) (es : list Event) :
  let c := conn (fst (run (connect cb p) es)) in
  let tr := snd (run (connect cb p) es) in
  honest (connect cb p) es = true -> isOpen c = true ->
  btServer c = true /\ txCharacteristic c = true /\ stage c = Settled /\
  disconnects tr = 0 /\ handed tr = 1 /\ refused tr = 0 /\ emits EvClose tr = 0.
Proof.
  intros c tr Hh Ho.
  pose proof (SInv_reach cb p es) as HS. pose proof (NInv_reach cb p es) as HN.
  fold c tr in HS, HN. rewrite Hh in HS, HN.
  pose proof (s_session _ _ _ HS eq_refl Ho) as Hb.
  assert (disconnects tr = 0) as Hd.
  { destruct (disconnects tr) eqn:E; [done|].
    destruct (s_cleared _ _ _ HS) as [Hb' _]; [lia|congruence]. }
  pose proof (n_isOpen _ _ _ HN Ho). pose proof (n_reported _ _ _ HN).
  split_and!; try done; try lia.
  - by rewrite (s_tx _ _ _ HS).
  - by apply (s_open _ _ _ HS).
Qed.

Lemma open_connection_has_session_witness :
  btServer (conn (fst (run (connect (UserConnCb 0) idle) (opening ++ [EWrite [49]%N None])))) =
    true.
Proof.
  destruct (open_connection_has_session (UserConnCb 0) idle (opening ++ [EWrite [49]%N None]))
    as (H & _); [vm_compute; reflexivity|vm_compute; reflexivity|exact H].
Defined.

(** ** A second [Puck.write] during the wait *)

(** X23.  While the façade waits for the response to a [write], a second
    [Puck.write] on the open connection empties the receive buffer: what
    had arrived for the first is lost to its callback, whose timer stays
    armed. *)
Theorem second_write_discards_response
    (w : World) (u : nat) (buf : jsstring) (h : bool) (m : Z)
    (d : jsstring) (u' : option nat) :
  polling w u buf h m -> isOpen (conn w) = true ->
  txCharacteristic (conn w) = true -> resting w ->
  polling (fst (Puck_write d u' w)) u [] h m /\
  users (snd (Puck_write d u' w)) = [].
Proof.
  intros [Hc Ht Hr Hh Hd Hl] Ho Htx Hrest.
  unfold Puck_write. rewrite Hc, Ho. cbn [andb].
  destruct (step_puck_resting w d u' Hc Ho Htx Hrest) as (E & Hf & Ha & Hp).
  split; [|by rewrite E].
  constructor.
  - rewrite Hp. clear -Hc. by destruct (puck w).
  - rewrite Hp. clear -Ht. by destruct (puck w).
  - rewrite Hp. clear. by destruct (puck w).
  - rewrite Hp. clear -Hh. by destruct (puck w).
  - by rewrite <- around_ondata, Ha, around_ondata.
  - by rewrite <- around_valueListener, Ha, around_valueListener.
Qed.

Lemma second_write_discards_response_witness :
  received (puck (fst (run (deferred [49; 10]%N (Some 0))
                           ((opening ++ acknowledgements [49; 10]%N) ++ [ENotify [50]%N])))) =
    Some [50]%N /\
  received (puck (fst (Puck_write [49]%N None
    (fst (run (deferred [49; 10]%N (Some 0))
              ((opening ++ acknowledgements [49; 10]%N) ++ [ENotify [50]%N])))))) = Some [].
Proof.
  split; [vm_compute; reflexivity|].
  destruct (second_write_discards_response
              (fst (run (deferred [49; 10]%N (Some 0))
                        ((opening ++ acknowledgements [49; 10]%N) ++ [ENotify [50]%N])))
              0 [50]%N true 10 [49]%N None) as [H _];
    [constructor; vm_compute; reflexivity|vm_compute; reflexivity|vm_compute; reflexivity|
     constructor; vm_compute; reflexivity|].
  exact (polling_received _ _ _ _ _ H).
Defined.
(** ** The steps of the negotiation *)

Lemma fulfilled_app es1 es2 : fulfilled (es1 ++ es2) = fulfilled es1 + fulfilled es2.
Proof.
  induction es1 as [|e es1 IH]; [done|].
  destruct e as [| | | | |[]| | |]; simpl; rewrite ?IH; lia.
Qed.

Lemma step_stage e w :
  (stage (conn (fst (step e w))) <> Settled ->
     stage (conn w) <> Settled /\
     stage_index (stage (conn (fst (step e w)))) =
       stage_index (stage (conn w)) + fulfilled [e]) /\
  (isOpen (conn (fst (step e w))) = true ->
     isOpen (conn w) = true \/ (stage (conn w) = AwaitTx /\ fulfilled [e] = 1)).
Proof.
  apply (wp_step e w (fun y =>
    (stage (conn (fst y)) <> Settled ->
       stage (conn w) <> Settled /\
       stage_index (stage (conn (fst y))) = stage_index (stage (conn w)) + fulfilled [e]) /\
    (isOpen (conn (fst y)) = true ->
       isOpen (conn w) = true \/ (stage (conn w) = AwaitTx /\ fulfilled [e] = 1)))).
  destruct w as [c p]. destruct c. cbn.
  destruct e; unfold handle.
  all: wp_go.
  all: try match goal with evt : Evt |- _ => destruct evt end.
  all: cbn; split; intros; try done; try (split; [done|lia]); auto.
Qed.

(** X24.  The connection opens only when all six requests of the negotiation
    were fulfilled (device, GATT connect, service, RX characteristic,
    notifications, TX characteristic); and while the negotiation lasts
    its stage is the number of requests fulfilled, no other event moves
    it. *)
Theorem open_needs_six_fulfilments (cb : ConnCb) (p : Puck) (es : list Event) :
  let c := conn (fst (run (connect cb p) es)) in
  (stage c <> Settled -> stage_index (stage c) = fulfilled es) /\
  (isOpen c = true -> 6 <= fulfilled es).
Proof.
  induction es as [|e es IH] using rev_ind; [by split|].
  cbn zeta in *. rewrite run_snoc, fulfilled_app. cbn [fst].
  destruct IH as [IH1 IH2].
  destruct (step_stage e (fst (run (connect cb p) es))) as [H1 H2].
  split.
  - intros Hs. destruct (H1 Hs) as [Hs' ->]. rewrite (IH1 Hs'). done.
  - intros Ho. destruct (H2 Ho) as [Ho'|[Hs He]].
    + apply IH2 in Ho'. lia.
    + assert (stage (conn (fst (run (connect cb p) es))) <> Settled) as Hs' by congruence.
      rewrite <- (IH1 Hs'), Hs, He. simpl. lia.
Qed.

(** ** The order of the callbacks *)

Lemma called_app t1 t2 : called (t1 ++ t2) = called t1 ++ called t2.
Proof.
  induction t1 as [|o t1 IH]; [done|]. destruct o; simpl; by rewrite ?IH.
Qed.

Lemma quiet_called o : Forall quiet o -> called o = [].
Proof.
  induction 1 as [|x o Hx _ IH]; [done|]. by destruct x.
Qed.

Lemma called_pushed tr r : monitored [] tr -> r ∈ called tr -> r ∈ pushed tr.
Proof.
  intros Hm Hr.
  assert (exists c, OCallback r c ∈ tr) as [c Hc].
  { clear Hm. induction tr as [|x tr IH]; [by apply elem_of_nil in Hr|].
    destruct x; simpl in Hr;
      try (destruct (IH Hr) as [? ?]; eexists; by right).
    apply elem_of_cons in Hr as [->|Hr]; [eexists; by left|].
    destruct (IH Hr) as [c' Hc]. exists c'. by right. }
  apply list_elem_of_split in Hc as (a & b & E).
  destruct (monitored_split _ _ _ _ _ Hm E) as (d & Hin & _). simpl in Hin.
  apply elem_of_pushed in Hin. rewrite E, pushed_app. apply elem_of_app. by left.
Qed.

Lemma KInv_same v v' tr o :
  KInv v tr -> Forall quiet o -> vq v' = vq v -> KInv v' (tr ++ o).
Proof.
  intros [H1 H2] Ho Eq. unfold KInv. by rewrite called_app, (quiet_called _ Ho), app_nil_r, Eq.
Qed.

Lemma KInv_drop v v' tr o :
  KInv v tr -> called o = [] -> vq v' = [] -> KInv v' (tr ++ o).
Proof.
  intros [H1 H2] Ho Eq. unfold KInv. rewrite called_app, Ho, app_nil_r, Eq. split; [done|].
  apply Forall_forall. intros r _. constructor.
Qed.

Lemma KInv_call v v' tr r c o1 o2 q' :
  KInv v tr -> StronglySorted lt (vq v) -> vq v = r :: q' ->
  called o1 = [] -> called o2 = [] ->
  (vq v' = q' \/ vq v' = []) ->
  KInv v' (tr ++ o1 ++ OCallback r c :: o2).
Proof.
  intros [H1 H2] Hs Eq Ho1 Ho2 Eq'. unfold KInv.
  rewrite !called_app, Ho1. cbn [app called]. rewrite Ho2.
  rewrite Eq in H2, Hs. apply StronglySorted_inv in Hs as [Hs Hr].
  split.
  - apply StronglySorted_lt_snoc; [done|].
    intros x Hx. rewrite Forall_forall in H2. specialize (H2 x Hx).
    by apply Forall_cons in H2 as [? _].
  - apply Forall_app. split.
    + eapply List.Forall_impl; [|exact H2]. intros r' Hr'.
      apply Forall_cons in Hr' as [_ Hr']. destruct Eq' as [->| ->]; [done|constructor].
    + constructor; [|constructor]. destruct Eq' as [->| ->]; [done|constructor].
Qed.

Lemma KInv_qtrans v o v' :
  qtrans v o v' -> forall tr, QInv v tr -> KInv v tr -> KInv v' (tr ++ o).
Proof.
  induction 1 as [v o v' Ho Eq Ep Ei Eit Es Et|v Hs|v d cb Ht Hi|v d cb Ht Hi Hq Hp
                  |v r ok o v' Hp Hwhy Ho Eq|v r c o v' Hp Hl Ho Eq|v r c o Hp Hq Hl Ho
                  |v r c o r' q'' d' cb' Hp Hq Hl Hl' Ht Ho
                  |v r x cb Hp Hq|v1 o1 v2 o2 v3 H12 IH1 H23 IH2];
    intros tr HQ HK.
  - by apply (KInv_same v).
  - apply (KInv_drop v); done.
  - destruct HK as [K1 K2]. unfold KInv. rewrite called_app. cbn. rewrite app_nil_r.
    split; [done|]. apply Forall_forall. intros r Hr. apply Forall_app. split.
    + rewrite Forall_forall in K2. by apply K2.
    + constructor; [|constructor].
      apply (called_pushed _ _ (q_mon _ _ HQ)) in Hr.
      rewrite (q_pushed _ _ HQ) in Hr. by apply elem_of_seq in Hr as [_ ?].
  - destruct HK as [K1 K2]. unfold KInv. rewrite called_app. cbn. rewrite app_nil_r.
    split; [done|]. apply Forall_forall. intros r Hr. constructor; [|constructor].
    apply (called_pushed _ _ (q_mon _ _ HQ)) in Hr.
    rewrite (q_pushed _ _ HQ) in Hr. by apply elem_of_seq in Hr as [_ ?].
  - apply (KInv_drop v); [done| |done]. cbn. destruct ok; by apply quiet_called.
  - destruct (q_shape _ _ HQ) as [(Hp' & _)|(r0 & q' & Hp' & Hq' & _)]; [congruence|].
    assert (r0 = r) as -> by congruence.
    apply (KInv_call v v' tr r c [OAck r true] o q'); try done.
    + apply (q_sorted _ _ HQ).
    + by apply quiet_called.
    + by right.
  - apply (KInv_call v _ tr r c [OAck r true] o []); try done.
    + apply (q_sorted _ _ HQ).
    + by apply quiet_called.
    + by left.
  - replace (OAck r true :: OCallback r c :: o ++ [OWriteValue r' (first_chunk d')])
      with ([OAck r true] ++ OCallback r c :: (o ++ [OWriteValue r' (first_chunk d')])) by done.
    apply (KInv_call v _ tr r c [OAck r true] _ (r' :: q'')); try done.
    + apply (q_sorted _ _ HQ).
    + rewrite called_app, (quiet_called _ Ho). done.
    + by left.
  - destruct HK as [K1 K2]. unfold KInv. rewrite called_app. cbn. by rewrite app_nil_r.
  - rewrite app_assoc. apply IH2; [by eapply QInv_qtrans|by apply IH1].
Qed.

Lemma KInv_reach cb p es :
  KInv (qv (conn (fst (run (connect cb p) es)))) (snd (run (connect cb p) es)).
Proof.
  induction es as [|e es IH] using rev_ind.
  - split; constructor.
  - rewrite run_snoc. cbn [fst snd].
    eapply KInv_qtrans; [|apply QInv_reach|exact IH].
    eapply sim_step. apply QInv_reach.
Qed.

(** X25.  The callbacks of the requests are called in the order in which the
    requests were pushed: the requests are numbered as they are pushed,
    and of two calls the earlier one is for the request with the smaller
    number. *)
Theorem callbacks_in_push_order (cb : ConnCb) (p : Puck) (es : list Event) :
  let tr := snd (run (connect cb p) es) in
  pushed tr = seq 0 (length (pushed tr)) /\
  StronglySorted lt (called tr) /\
  (forall a r1 c1 b r2 c2 c,
     tr = a ++ OCallback r1 c1 :: b ++ OCallback r2 c2 :: c -> r1 < r2).
Proof.
  intros tr. pose proof (QInv_reach cb p es) as H. pose proof (KInv_reach cb p es) as [HK _].
  fold tr in H, HK. split_and!.
  - rewrite (q_pushed _ _ H) at 1. by rewrite (q_pushed _ _ H), length_seq.
  - done.
  - intros a r1 c1 b r2 c2 c E. rewrite E in HK.
    rewrite called_app in HK. cbn [called] in HK. rewrite called_app in HK. cbn [called] in HK.
    clear -HK. induction (called a) as [|x l IH]; simpl in HK.
    + apply StronglySorted_inv in HK as [_ HK]. rewrite List.Forall_forall in HK.
      apply HK. apply in_or_app. right. by left.
    + apply StronglySorted_inv in HK as [HK _]. by apply IH.
Qed.

(** ** Closed for good *)

(** X26.  If the transport keeps its promise: once [btServer.disconnect()] was
    called the connection is closed, and it stays closed whatever
    follows, emitting neither ['open'] nor ['data'] nor a second
    ['close'], and calling [connect]'s callback no more. *)
Theorem disconnected_is_closed_for_good (cb : ConnCb) (p : Puck) (es es' : list Event) :
  let w := fst (run (connect cb p) es) in
  let tr := snd (run (connect cb p) es) in
  let tr' := snd (run w es') in
  honest (connect cb p) (es ++ es') = true -> ODisconnect ∈ tr ->
  Closed (conn w) /\ Closed (conn (fst (run w es'))) /\
  emits EvOpen tr' = 0 /\ emits EvData tr' = 0 /\ emits EvClose tr' = 0 /\
  connecteds tr' = [].
Proof.
  intros w tr tr' Hh Hin. rewrite honest_app in Hh. apply andb_true_iff in Hh as [Hh Hh'].
  fold w in Hh'.
  pose proof (SInv_reach cb p es) as HS. fold w tr in HS. rewrite Hh in HS.
  apply disconnects_elem_of in Hin.
  destruct (s_cleared _ _ _ HS Hin) as [Hb Hs].
  assert (isOpen (conn w) = false) as Ho.
  { destruct (isOpen (conn w)) eqn:E; [|done].
    pose proof (s_session _ _ _ HS eq_refl E). congruence. }
  assert (Closed (conn w)) as Hc.
  { constructor; try done. by rewrite (s_tx _ _ _ HS). }
  destruct (run_Closed es' w Hc Hh') as (Hc' & E1 & E2 & E3 & _ & E5).
  done.
Qed.

Lemma disconnected_is_closed_for_good_witness :
  Closed (conn (fst (run (connect (UserConnCb 0) idle) (opening ++ [EGattDisconnected])))).
Proof.
  destruct (disconnected_is_closed_for_good (UserConnCb 0) idle
              (opening ++ [EGattDisconnected]) [EChain false; EClose]) as (H & _);
    [vm_compute; reflexivity|apply list_elem_of_In; vm_compute; tauto|exact H].
Defined.
(** ** A write while another is in flight *)

(** X27.  [connection.write] while a chunk is in flight only queues the
    request: nothing is handed to the transport, what is in flight stays
    in flight, and the requests queued before stay ahead of it. *)
Theorem write_in_flight_only_queues (cb : ConnCb) (p : Puck) (es : list Event)
    (d : jsstring) (u : option nat) :
  let w := fst (run (connect cb p) es) in
  let y := step (EWrite d u) w in
  isOpen (conn w) = true -> txInProgress (conn w) = true ->
  snd y = [OPush (length (items (conn w))) d (UserCb <$> u)] /\
  txDataQueue (conn (fst y)) = txDataQueue (conn w) ++ [length (items (conn w))] /\
  pendingTx (conn (fst y)) = pendingTx (conn w) /\
  txInProgress (conn (fst y)) = true /\
  around (conn (fst y)) = around (conn w) /\ puck (fst y) = puck w.
Proof.
  intros w y Ho Hi. pose proof (SInv_reach cb p es) as HS. fold w in HS.
  assert (txCharacteristic (conn w) = true) as Ht by by rewrite (s_tx _ _ _ HS).
  subst y. clear HS.
  apply (wp_step (EWrite d u) w (fun y =>
    snd y = [OPush (length (items (conn w))) d (UserCb <$> u)] /\
    txDataQueue (conn (fst y)) = txDataQueue (conn w) ++ [length (items (conn w))] /\
    pendingTx (conn (fst y)) = pendingTx (conn w) /\
    txInProgress (conn (fst y)) = true /\
    around (conn (fst y)) = around (conn w) /\ puck (fst y) = puck w)).
  generalize dependent w. intros w. destruct w as [c q]. destruct c. cbn. intros Ho Hi Ht. subst.
  unfold handle. wp_go. done.
Qed.

Lemma write_in_flight_only_queues_witness :
  snd (step (EWrite [50]%N None)
            (fst (run (connect (UserConnCb 0) idle) (opening ++ [EWrite [49]%N (Some 1)])))) =
    [OPush 1 [50]%N None].
Proof.
  destruct (write_in_flight_only_queues (UserConnCb 0) idle
              (opening ++ [EWrite [49]%N (Some 1)]) [50]%N None) as (H & _);
    [vm_compute; reflexivity|vm_compute; reflexivity|exact H].
Defined.

(** ** The façade after a failed negotiation *)

(** X28.  Wherever the negotiation of a [Puck.write] failed, the façade is left
    without an open connection, so the next [Puck.write] sends nothing
    and starts a negotiation of its own. *)
Theorem facade_reconnects_after_failure (d d' : jsstring) (u u' : option nat) :
  Forall (fun n =>
    let w := fst (failed_write n d u) in
    connection (puck w) && isOpen (conn w) = false /\
    snd (Puck_write d' u' w) = [] /\
    conn (fst (Puck_write d' u' w)) = conn (connect (PuckConnected d' u') idle) /\
    connection (puck (fst (Puck_write d' u' w))) = true)
    [0; 1; 2; 3; 4; 5].
Proof.
  repeat constructor; destruct u; vm_compute; reflexivity.
Qed.
(** * Back-to-back requests, closed connections and the poll *)

(** ** Two requests, one behind the other *)

Lemma step_write_flying w d u :
  txCharacteristic (conn w) = true -> resting w ->
  let y := step (EWrite d u) w in
  txInProgress (conn (fst y)) = true /\
  length (items (conn (fst y))) = S (length (items (conn w))).
Proof.
  intros Ht [Hi Hp Hq].
  apply (wp_step (EWrite d u) w (fun y =>
    txInProgress (conn (fst y)) = true /\
    length (items (conn (fst y))) = S (length (items (conn w))))).
  destruct w as [c p]. destruct c. cbn in *. subst.
  unfold handle. wp_go.
  all: cbn; rewrite length_insert, length_app; cbn; split; [done|lia].
Qed.

Lemma step_write_behind w r rem cbk d u :
  flying w r rem cbk -> txInProgress (conn w) = true ->
  let y := step (EWrite d u) w in
  snd y = [OPush (length (items (conn w))) d (UserCb <$> u)] /\
  queued_behind (fst y) r rem cbk (length (items (conn w))) d (UserCb <$> u) /\
  around (conn (fst y)) = around (conn w) /\ puck (fst y) = puck w.
Proof.
  intros [Ht Hp Hq Hl] Hi. pose proof (lookup_lt_Some _ _ _ Hl) as Hlt.
  apply (wp_step (EWrite d u) w (fun y =>
    snd y = [OPush (length (items (conn w))) d (UserCb <$> u)] /\
    queued_behind (fst y) r rem cbk (length (items (conn w))) d (UserCb <$> u) /\
    around (conn (fst y)) = around (conn w) /\ puck (fst y) = puck w)).
  destruct w as [c p]. destruct c. cbn in *. subst.
  unfold handle. wp_go.
  split_and!; [reflexivity| |reflexivity|reflexivity].
  constructor; cbn; try reflexivity.
  - by rewrite lookup_app_l.
  - by apply list_lookup_middle.
  - lia.
Qed.

Lemma step_ack_more_behind w r x cbk r' d' cbk' :
  queued_behind w r (Some x) cbk r' d' cbk' -> x <> [] ->
  let y := step (ETx 0 true) w in
  snd y = [OAck r true; OWriteValue r (first_chunk x)] /\
  queued_behind (fst y) r (after_chunk x) cbk r' d' cbk' /\
  around (conn (fst y)) = around (conn w) /\ puck (fst y) = puck w.
Proof.
  intros [Ht Hi Hp Hq Hl Hl' Hne] Hx. pose proof (falsy_nonempty x Hx) as Hf.
  pose proof (lookup_lt_Some _ _ _ Hl) as Hlt.
  apply (wp_step (ETx 0 true) w (fun y =>
    snd y = [OAck r true; OWriteValue r (first_chunk x)] /\
    queued_behind (fst y) r (after_chunk x) cbk r' d' cbk' /\
    around (conn (fst y)) = around (conn w) /\ puck (fst y) = puck w)).
  destruct w as [c p]. destruct c. cbn in *. subst.
  unfold handle, first_chunk, after_chunk. wp_go.
  all: split_and!; [reflexivity| |reflexivity|reflexivity].
  all: constructor; cbn; try reflexivity; try done.
  all: first [by apply list_lookup_insert_eq|by rewrite list_lookup_insert_ne].
Qed.

Lemma step_ack_last_behind w r i r' d' cbk' :
  queued_behind w r None (Some (UserCb i)) r' d' cbk' ->
  let y := step (ETx 0 true) w in
  snd y = [OAck r true; OCallback r (UserCb i); OWriteValue r' (first_chunk d')] /\
  flying (fst y) r' (after_chunk d') cbk' /\
  around (conn (fst y)) = around (conn w) /\ puck (fst y) = puck w.
Proof.
  intros [Ht Hi Hp Hq Hl Hl' Hne]. assert (falsy None = true) as Hf by done.
  pose proof (lookup_lt_Some _ _ _ Hl') as Hlt.
  apply (wp_step (ETx 0 true) w (fun y =>
    snd y = [OAck r true; OCallback r (UserCb i); OWriteValue r' (first_chunk d')] /\
    flying (fst y) r' (after_chunk d') cbk' /\
    around (conn (fst y)) = around (conn w) /\ puck (fst y) = puck w)).
  destruct w as [c p]. destruct c. cbn in *. subst.
  unfold handle, first_chunk, after_chunk. wp_go.
  all: split_and!; [reflexivity| |reflexivity|reflexivity].
  all: constructor; cbn; try reflexivity.
  all: by apply list_lookup_insert_eq.
Qed.

Lemma run_queued_behind n : forall w r rem cbk r' d' cbk',
  queued_behind w r rem cbk r' d' cbk' -> rem <> Some [] -> length (rest rem) = n ->
  let y := run w (replicate n (ETx 0 true)) in
  snd y = flat_map (fun c => [OAck r true; OWriteValue r c]) (rest rem) /\
  queued_behind (fst y) r None cbk r' d' cbk' /\
  around (conn (fst y)) = around (conn w) /\ puck (fst y) = puck w.
Proof.
  induction n as [|n IH]; intros w r rem cbk r' d' cbk' Hf Hrem Hn.
  - destruct rem as [x|].
    + simpl in Hn. pose proof (splitIntoChunks_nonempty x). by destruct (splitIntoChunks x).
    + by rewrite run_nil.
  - destruct rem as [x|]; [|done].
    assert (x <> []) as Hx by congruence.
    destruct (step_ack_more_behind w r x cbk r' d' cbk' Hf Hx) as (E1 & Hf1 & Ha1 & Hp1).
    cbn [rest] in *. rewrite rest_first in Hn |- *. cbn [length] in Hn.
    destruct (IH _ r (after_chunk x) cbk r' d' cbk' Hf1) as (E2 & Hf2 & Ha2 & Hp2);
      [apply after_chunk_not_empty|lia|].
    cbn [replicate]. rewrite run_cons, !fst_pair, !snd_pair. cbn [flat_map].
    rewrite E1, E2. split_and!; [done|done|congruence|congruence].
Qed.

Lemma run_two_requests w dA iA dB iB :
  txCharacteristic (conn w) = true -> resting w ->
  let rA := length (items (conn w)) in
  let y := run w (EWrite dA (Some iA) :: EWrite dB (Some iB) ::
                  acknowledgements dA ++ acknowledgements dB) in
  snd y =
    [OPush rA dA (Some (UserCb iA)); OWriteValue rA (first_chunk dA);
     OPush (S rA) dB (Some (UserCb iB))] ++
    flat_map (fun c => [OAck rA true; OWriteValue rA c]) (rest (after_chunk dA)) ++
    [OAck rA true; OCallback rA (UserCb iA); OWriteValue (S rA) (first_chunk dB)] ++
    flat_map (fun c => [OAck (S rA) true; OWriteValue (S rA) c]) (rest (after_chunk dB)) ++
    [OAck (S rA) true; OCallback (S rA) (UserCb iB)] /\
  resting (fst y) /\
  around (conn (fst y)) = around (conn w) /\ puck (fst y) = puck w.
Proof.
  intros Ht Hr. cbn zeta.
  destruct (step_write_resting w dA (Some iA) Ht Hr) as (E1 & Hf1 & Ha1 & Hp1).
  destruct (step_write_flying w dA (Some iA) Ht Hr) as (Hi1 & Hlen).
  set (w1 := fst (step (EWrite dA (Some iA)) w)) in *.
  destruct (step_write_behind w1 _ _ _ dB (Some iB) Hf1 Hi1) as (E2 & Hf2 & Ha2 & Hp2).
  rewrite Hlen in E2, Hf2.
  set (w2 := fst (step (EWrite dB (Some iB)) w1)) in *.
  destruct (run_queued_behind _ w2 _ _ _ _ _ _ Hf2 (after_chunk_not_empty dA) eq_refl)
    as (E3 & Hf3 & Ha3 & Hp3).
  set (w3 := fst (run w2 (replicate (length (rest (after_chunk dA))) (ETx 0 true)))) in *.
  destruct (step_ack_last_behind w3 _ iA _ _ _ Hf3) as (E4 & Hf4 & Ha4 & Hp4).
  set (w4 := fst (step (ETx 0 true) w3)) in *.
  destruct (run_flying _ w4 _ _ _ Hf4 (after_chunk_not_empty dB) eq_refl)
    as (E5 & Hf5 & Ha5 & Hp5).
  set (w5 := fst (run w4 (replicate (length (rest (after_chunk dB))) (ETx 0 true)))) in *.
  destruct (step_ack_last_user w5 _ iB Hf5) as (E6 & Hr6 & Ha6 & Hp6).
  rewrite (run_cons w), (run_cons (fst (step (EWrite dA (Some iA)) w))), !fst_pair, !snd_pair.
  fold w1. fold w2.
  rewrite run_app, !fst_pair, !snd_pair.
  rewrite (acknowledgements_snoc dA), (run_snoc w2), !fst_pair, !snd_pair. fold w3. fold w4.
  rewrite (acknowledgements_snoc dB), (run_snoc w4), !fst_pair, !snd_pair. fold w5.
  rewrite E1, E2, E3, E4, E5, E6. split_and!.
  - cbn [fmap option_fmap option_map app]. rewrite <- !app_assoc. reflexivity.
  - exact Hr6.
  - congruence.
  - congruence.
Qed.

Lemma written_flat r r' cs :
  written r' (flat_map (fun c => [OAck r true; OWriteValue r c]) cs) =
  if decide (r = r') then cs else [].
Proof.
  induction cs as [|c cs IH]; [by destruct (decide (r = r'))|].
  cbn [flat_map app written]. rewrite IH. by destruct (decide (r = r')).
Qed.

(** C2.  Writes are serialized.  In every state a connection reaches at
    most one [writeValue] is in flight; the chunks handed over for a
    request are an initial part of the chunks of its payload, in order;
    when request B was pushed after request A, each chunk of B is handed
    over only after all chunks of A were, and no chunk of A follows it.
    And the requests do get through: on an open connection, its queue
    idle, [write(dA, fA)] directly followed by [write(dB, fB)], each
    [writeValue] being fulfilled, makes the transport see the chunks of
    [dA] in order, then [fA] called, then the chunks of [dB] in order,
    then [fB] called, every chunk but the first handed over only when the
    one before was acknowledged; the queue is idle again. *)
Theorem writes_serialized (cb : ConnCb) (p : Puck) (es : list Event)
    (dA dB : jsstring) (iA iB : nat) :
  let w := fst (run (connect cb p) es) in
  let tr := snd (run (connect cb p) es) in
  let rA := length (items (conn w)) in
  let y := run w (EWrite dA (Some iA) :: EWrite dB (Some iB) ::
                  acknowledgements dA ++ acknowledgements dB) in
  length (pendingTx (conn w)) <= 1 /\
  (forall r d c, OPush r d c ∈ tr -> written r tr `prefix_of` splitIntoChunks d) /\
  (forall t1 rA dA cA t2 rB dB cB t3 pre c post,
     tr = t1 ++ OPush rA dA cA :: t2 ++ OPush rB dB cB :: t3 ->
     tr = pre ++ OWriteValue rB c :: post ->
     written rA pre = splitIntoChunks dA /\ written rA post = []) /\
  (isOpen (conn w) = true -> txInProgress (conn w) = false ->
     snd y =
       [OPush rA dA (Some (UserCb iA)); OWriteValue rA (first_chunk dA);
        OPush (S rA) dB (Some (UserCb iB))] ++
       flat_map (fun c => [OAck rA true; OWriteValue rA c]) (rest (after_chunk dA)) ++
       [OAck rA true; OCallback rA (UserCb iA); OWriteValue (S rA) (first_chunk dB)] ++
       flat_map (fun c => [OAck (S rA) true; OWriteValue (S rA) c]) (rest (after_chunk dB)) ++
       [OAck (S rA) true; OCallback (S rA) (UserCb iB)] /\
     chunks_of (snd y) = splitIntoChunks dA ++ splitIntoChunks dB /\
     written rA (snd y) = splitIntoChunks dA /\
     written (S rA) (snd y) = splitIntoChunks dB /\
     resting (fst y) /\ isOpen (conn (fst y)) = true).
Proof.
  intros w tr rA y. pose proof (QInv_reach cb p es) as H. fold w tr in H. split_and!.
  - destruct (q_shape _ _ H) as [(Hp & _)|(r & q' & Hp & _)]; simpl in Hp;
      rewrite Hp; simpl; lia.
  - intros r d c Hin. by destruct (request_status _ _ _ _ _ H Hin).
  - clear dA dB iA iB rA y.
    intros t1 rA dA cA t2 rB dB cB t3 pre c post E1 E2.
    pose proof (QInv_nodup _ _ H) as Hnd.
    assert (rA < rB) as Hlt.
    { pose proof (q_pushed _ _ H) as Hp. rewrite E1 in Hp.
      rewrite pushed_app, pushed_cons_push, pushed_app, pushed_cons_push in Hp.
      symmetry in Hp. by apply seq_split_lt in Hp. }
    assert (OPush rA dA cA ∈ tr) as HinA.
    { rewrite E1. apply elem_of_app. right. by left. }
    destruct (monitored_split _ _ _ _ _ (q_mon _ _ H) E2) as [(d' & c' & Hin' & _) Hall].
    simpl in *.
    assert (OPush rA dA cA ∈ pre) as HinA'.
    { assert (t1 ++ OPush rA dA cA :: t2 ++ OPush rB dB cB :: t3 =
              pre ++ OWriteValue rB c :: post) as E by congruence.
      rewrite (app_comm_cons t2), app_assoc in E.
      apply app_eq_app in E as [k [[E3 E4]|[E3 E4]]].
      - exfalso. assert (rB ∈ pushed (t1 ++ OPush rA dA cA :: t2)) as Hdup.
        { rewrite E3, pushed_app. apply elem_of_app. left. by eapply elem_of_pushed. }
        rewrite E1 in Hnd. rewrite (app_comm_cons t2), app_assoc, pushed_app in Hnd.
        rewrite pushed_cons_push in Hnd. apply NoDup_app in Hnd as (_ & Hnd & _).
        apply (Hnd rB); [done|by left].
      - rewrite E3. apply elem_of_app. left. apply elem_of_app. right. by left. }
    pose proof (Hall rA dA cA Hlt HinA') as Hw. split; [done|].
    destruct (request_status _ _ _ _ _ H HinA) as [[k Hk] _].
    rewrite E2, written_app, Hw in Hk. simpl in Hk.
    rewrite decide_False in Hk by lia.
    apply (f_equal length) in Hk. rewrite !length_app in Hk.
    destruct (written rA post); [done|simpl in Hk; lia].
  - intros Ho Hi. pose proof (SInv_reach cb p es) as HS. fold w in HS.
    assert (txCharacteristic (conn w) = true) as Ht by by rewrite (s_tx _ _ _ HS).
    destruct (QInv_idle _ _ H Hi) as [Hq Hp].
    destruct (run_two_requests w dA iA dB iB Ht) as (E & Hr & Ha & _); [done|].
    fold rA y in E, Hr, Ha. rewrite E. split_and!; try done.
    + cbn [app chunks_of].
      repeat (rewrite ?chunks_of_app, ?chunks_of_flat; cbn [app chunks_of]).
      rewrite (rest_first dA), (rest_first dB), ?app_nil_r. cbn [app].
      by rewrite <- ?app_assoc.
    + cbn [app written].
      repeat (rewrite ?written_app, ?written_flat; cbn [app written];
              repeat first [rewrite decide_True by lia|rewrite decide_False by lia]).
      rewrite (rest_first dA), ?app_nil_r. reflexivity.
    + cbn [app written].
      repeat (rewrite ?written_app, ?written_flat; cbn [app written];
              repeat first [rewrite decide_True by lia|rewrite decide_False by lia]).
      rewrite (rest_first dB), ?app_nil_r. reflexivity.
    + by rewrite <- around_isOpen, Ha, around_isOpen.
Qed.

Lemma writes_serialized_witness :
  chunks_of (snd (run (fst (run (connect (UserConnCb 0) idle) opening))
    (EWrite (replicate 17 97%N) (Some 1) :: EWrite [98; 99]%N (Some 2) ::
     acknowledgements (replicate 17 97%N) ++ acknowledgements [98; 99]%N))) =
  splitIntoChunks (replicate 17 97%N) ++ splitIntoChunks [98; 99]%N.
Proof.
  destruct (writes_serialized (UserConnCb 0) idle opening (replicate 17 97%N) [98; 99]%N 1 2)
    as (_ & _ & _ & H).
  destruct H as (_ & H & _); [vm_compute; reflexivity|vm_compute; reflexivity|exact H].
Defined.

(** ** A closed connection, whatever the transport does *)

Lemma notified_app es1 es2 : notified (es1 ++ es2) = notified es1 + notified es2.
Proof.
  induction es1 as [|e es1 IH]; [done|]. destruct e; simpl; rewrite ?IH; lia.
Qed.

Lemma step_Closed_exact e w :
  Closed (conn w) -> (stage (conn w) <> Settled -> fulfilled [e] = 0) ->
  Closed (conn (fst (step e w))) /\
  (stage (conn w) = Settled -> stage (conn (fst (step e w))) = Settled) /\
  valueListener (conn (fst (step e w))) = valueListener (conn w) /\
  emits EvOpen (snd (step e w)) = 0 /\ emits EvClose (snd (step e w)) = 0 /\
  connecteds (snd (step e w)) = [] /\ disconnects (snd (step e w)) = 0 /\
  emits EvData (snd (step e w)) = (if valueListener (conn w) then notified [e] else 0).
Proof.
  intros [Hb Hs Ho Ht] Hf.
  apply (wp_step e w (fun x =>
    Closed (conn (fst x)) /\
    (stage (conn w) = Settled -> stage (conn (fst x)) = Settled) /\
    valueListener (conn (fst x)) = valueListener (conn w) /\
    emits EvOpen (snd x) = 0 /\ emits EvClose (snd x) = 0 /\
    connecteds (snd x) = [] /\ disconnects (snd x) = 0 /\
    emits EvData (snd x) = (if valueListener (conn w) then notified [e] else 0))).
  destruct w as [c p]. destruct c. cbn in *. subst.
  destruct e; unfold handle.
  all: wp_go.
  all: try match goal with evt : Evt |- _ => destruct evt end.
  all: try discriminate.
  all: try (exfalso; cbn in Hf; by discriminate Hf).
  all: split_and!; [constructor|..]; cbn in *; count_tac; try done.
  all: repeat match goal with
              | |- context [if ?b then _ else _] => is_var b; destruct b
              end; try done.
  all: exfalso; cbn in Hf; by discriminate Hf.
Qed.

Lemma run_Closed_exact es : forall w,
  Closed (conn w) -> (stage (conn w) <> Settled -> fulfilled es = 0) ->
  Closed (conn (fst (run w es))) /\
  emits EvOpen (snd (run w es)) = 0 /\ emits EvClose (snd (run w es)) = 0 /\
  connecteds (snd (run w es)) = [] /\ disconnects (snd (run w es)) = 0 /\
  emits EvData (snd (run w es)) = (if valueListener (conn w) then notified es else 0).
Proof.
  induction es as [|e es IH]; intros w Hc Hf.
  - rewrite run_nil. cbn. split_and!; try done. by destruct (valueListener (conn w)).
  - change (e :: es) with ([e] ++ es) in Hf. rewrite fulfilled_app in Hf.
    destruct (step_Closed_exact e w Hc) as (Hc1 & Hs1 & Hl1 & E1 & E2 & E3 & E4 & E5);
      [intros Hn; specialize (Hf Hn); lia|].
    destruct (IH (fst (step e w)) Hc1) as (Hc2 & F1 & F2 & F3 & F4 & F5).
    { intros Hn. assert (stage (conn w) <> Settled) as Hn' by (intros E; by apply Hn, Hs1).
      specialize (Hf Hn'). lia. }
    rewrite run_cons, !fst_pair, !snd_pair.
    rewrite !emits_app, connecteds_app, disconnects_app.
    rewrite E1, E2, E3, E4, E5, F1, F2, F3, F4, F5, Hl1.
    split_and!; try done.
    change (e :: es) with ([e] ++ es). rewrite notified_app.
    by destruct (valueListener (conn w)).
Qed.

(** [chain_open] with a callback that leaves the connection alone is the
    last reaction of the chain as [step] runs it. *)
Lemma chain_open_plain w id :
  connect_callback (conn w) = UserConnCb id ->
  chain_open (ret tt) w = chain_then AwaitTx w.
Proof.
  intros E. destruct w as [c p]. destruct c. cbn in E. subst.
  unfold chain_open, chain_then, call_connected, bind, modc, getc, out, ret. cbn.
  by destruct (emit EvOpen None _) as [[[] ?] ?].
Qed.

(** C6, as the code has it.  A connection that is closed when a reaction
    has returned stays closed under every event, provided no request of a
    negotiation that was still running when it was closed is fulfilled
    afterwards (none can be once the negotiation has settled): no
    ['open'] and no ['close'] is emitted, [connect]'s callback is not
    called, nothing is disconnected again, and [connection.write] and
    [connection.close] return having changed nothing.  It is not silent:
    the listener for ['characteristicvaluechanged'] stays registered and
    has no guard, so ['data'] is emitted once for every notification
    dispatched. *)
Theorem closed_is_terminal (w : World) (es : list Event) :
  Closed (conn w) ->
  (stage (conn w) <> Settled -> fulfilled es = 0) ->
  let w' := fst (run w es) in
  let tr := snd (run w es) in
  Closed (conn w') /\
  emits EvOpen tr = 0 /\ emits EvClose tr = 0 /\
  connecteds tr = [] /\ disconnects tr = 0 /\
  emits EvData tr = (if valueListener (conn w) then notified es else 0) /\
  (forall d u, step (EWrite d u) w' = (w', [])) /\
  step EClose w' = (w', []).
Proof.
  intros Hc Hf w' tr.
  destruct (run_Closed_exact es w Hc Hf) as (Hc' & E1 & E2 & E3 & E4 & E5).
  split_and!; try done.
  - intros d u. apply write_noop. by destruct Hc'.
  - apply close_noop. by destruct Hc'.
Qed.

Lemma closed_is_terminal_witness :
  emits EvData (snd (run (fst (run (connect (UserConnCb 0) idle)
                                   (opening ++ [EOn EvData 1; EClose])))
                         [EWrite [104; 105]%N (Some 2); ENotify [52]%N; EChain true;
                          EGattDisconnected; ENotify [50]%N; EClose])) = 2 /\
  emits EvOpen (snd (run (fst (run (connect (UserConnCb 0) idle)
                                   (opening ++ [EOn EvData 1; EClose])))
                         [EWrite [104; 105]%N (Some 2); ENotify [52]%N; EChain true;
                          EGattDisconnected; ENotify [50]%N; EClose])) = 0.
Proof.
  destruct (closed_is_terminal
              (fst (run (connect (UserConnCb 0) idle) (opening ++ [EOn EvData 1; EClose])))
              [EWrite [104; 105]%N (Some 2); ENotify [52]%N; EChain true;
               EGattDisconnected; ENotify [50]%N; EClose])
    as (_ & H1 & _ & _ & _ & H2 & _);
    [constructor; vm_compute; reflexivity|intros Hn; exfalso; apply Hn; vm_compute; reflexivity|].
  split; [exact H2|exact H1].
Defined.

(** C6 as stated fails.  After [close()] on an open connection a
    notification still reaches the ['data'] handler.  A connection closed
    by [close()] during the negotiation opens all the same, emits
    ['open'] and accepts writes, when the remaining requests of the
    negotiation are fulfilled.  And when the function passed to
    [connect] calls [connection.close()], ['open'] is emitted on the
    connection it has just closed (line 170 follows line 169 whatever the
    callback did). *)
Lemma closed_not_terminal :
  (let w := fst (run (connect (UserConnCb 0) idle) (opening ++ [EOn EvData 3; EClose])) in
   Closed (conn w) /\
   snd (step (ENotify [52; 50]%N) w) =
     [OEmit EvData (Some [52; 50]%N); OHandler 3 EvData (Some [52; 50]%N)]) /\
  (let w := fst (run (connect (UserConnCb 0) idle)
                     [EChain true; EChain true; EChain true; EClose]) in
   let y := run w [EChain true; EChain true; EChain true] in
   Closed (conn w) /\
   snd y = [OConnected true; OEmit EvOpen None] /\
   isOpen (conn (fst y)) = true /\
   snd (step (EWrite [49]%N None) (fst y)) = [OPush 0 [49]%N None; OWriteValue 0 [49]%N]) /\
  (let w := fst (run (connect (UserConnCb 0) idle)
                     (EOn EvOpen 7 :: replicate 5 (EChain true))) in
   let y := chain_open close w in
   stage (conn w) = AwaitTx /\
   chain_open (ret tt) w = chain_then AwaitTx w /\
   snd y = [OConnected true; ODisconnect; OEmit EvClose None;
            OEmit EvOpen None; OHandler 7 EvOpen None] /\
   Closed (conn (snd (fst y)))).
Proof.
  split_and!; cbn zeta.
  - split; [constructor; vm_compute; reflexivity|]. vm_compute. done.
  - split; [constructor; vm_compute; reflexivity|]. vm_compute. done.
  - split_and!; [vm_compute; reflexivity|by apply (chain_open_plain _ 0)|
                 vm_compute; reflexivity|constructor; vm_compute; reflexivity].
Qed.

(** ** The time the poll takes *)

Lemma armed_ms_app t1 t2 : armed_ms (t1 ++ t2) = (armed_ms t1 + armed_ms t2)%Z.
Proof.
  induction t1 as [|o t1 IH]; [done|]. destruct o; simpl; rewrite ?IH; lia.
Qed.

Lemma step_notify_armed w u buf h m v :
  polling w u buf h m -> armed_ms (snd (step (ENotify v) w)) = 0%Z.
Proof.
  intros [Hc Ht Hr Hh Ho Hl].
  apply (wp_step _ w (fun x => armed_ms (snd x) = 0%Z)).
  unfold handle. wp_run. done.
Qed.

Lemma run_notify_armed vs : forall w u buf h m,
  polling w u buf h m -> armed_ms (snd (run w (map ENotify vs))) = 0%Z.
Proof.
  induction vs as [|v vs IH]; intros w u buf h m Hp; [done|].
  cbn [map]. rewrite run_cons, snd_pair, armed_ms_app.
  rewrite (step_notify_armed w u buf h m v Hp).
  destruct (step_notify_polling w u buf h m v Hp) as [Hp' _].
  by rewrite (IH _ _ _ _ _ Hp').
Qed.

Lemma step_timer_armed w u buf h m :
  polling w u buf h m ->
  armed_ms (snd (step (ETimer 0) w)) = (if h && negb (m =? 0)%Z then 250 else 0)%Z.
Proof.
  intros [Hc Ht Hr Hh Ho Hl].
  apply (wp_step _ w (fun x =>
    armed_ms (snd x) = (if h && negb (m =? 0)%Z then 250 else 0)%Z)).
  unfold handle. wp_run; done.
Qed.

Lemma run_window_armed w u buf h m vs :
  polling w u buf h m ->
  armed_ms (snd (run w (window_events vs))) =
    (if heard h vs && negb (m =? 0)%Z then 250 else 0)%Z.
Proof.
  intros Hp. unfold window_events. rewrite run_snoc, snd_pair, armed_ms_app.
  rewrite (run_notify_armed vs w u buf h m Hp).
  destruct (run_notify_polling w u buf h m vs Hp) as [Hp' _].
  by rewrite (step_timer_armed _ _ _ _ _ Hp').
Qed.

Lemma run_poll_armed ws : forall w u buf h m,
  polling w u buf h m ->
  heard_all h ws = true ->
  (Z.of_nat (length ws) <= m)%Z ->
  armed_ms (snd (run w (poll_events ws))) = (250 * Z.of_nat (length ws))%Z.
Proof.
  induction ws as [|vs ws IH]; intros w u buf h m Hp Hh Hm; [done|].
  cbn [heard_all] in Hh. apply andb_true_iff in Hh as [Hv Hws].
  rewrite poll_events_cons, run_app, snd_pair, armed_ms_app.
  pose proof (run_window_polling w u buf h m vs Hp) as Hw.
  pose proof (run_window_armed w u buf h m vs Hp) as Ha.
  rewrite Hv in Hw, Ha. cbn [length] in Hm.
  destruct (m =? 0)%Z eqn:E; [lia|]. cbn [andb negb] in Hw, Ha. destruct Hw as [Hp' _].
  rewrite Ha, (IH _ _ _ _ _ Hp' Hws) by lia. cbn [length]. lia.
Qed.

(** The reaction to the acknowledgement of the last chunk arms the first
    timer. *)
Lemma step_flushing w r u buf h :
  flushing w r u buf h ->
  snd (step (ETx 0 true) w) =
    [OAck r true; OCallback r (OnWritten (Some u)); OSetTimeout 250] /\
  polling (fst (step (ETx 0 true) w)) u buf h 10.
Proof.
  intros [Hf Hc Ht Hr Hh Ho Hl].
  destruct (step_ack_last_facade w r (Some u) Hf Hc) as (E & _ & Ha & Hp).
  split; [exact E|].
  constructor; rewrite ?Hp.
  - clear -Hc. by destruct (puck w).
  - clear -Ht. destruct (puck w). cbn in *. by subst.
  - clear -Hr. by destruct (puck w).
  - clear -Hh. by destruct (puck w).
  - by rewrite <- around_ondata, Ha, around_ondata.
  - by rewrite <- around_valueListener, Ha, around_valueListener.
Qed.

(** C7, as the code has it.  The acknowledgement of the last chunk of a
    [Puck.write(data, callback)] arms a timer of 250 ms ([maxTime] is
    10).  A timer that fires with the had-data flag set and [maxTime] not
    used up clears the flag and arms the next timer; the flag is set by
    any data received, in the window or before the flush.  So while every
    window hears data (the first also counts what came before the flush)
    and fewer than ten timers were armed again, nothing is delivered.
    The first timer that finds the flag unset, or the eleventh, calls
    [callback], exactly once, with all that was received; buffer and flag
    are cleared and no timer is armed.  The delays of the timers armed
    add up to 250 ms for each window, at most 2750 ms. *)
Theorem poll_delivers_once
  (w : World) (r u : nat) (buf : jsstring) (h : bool)
  (noisy : list (list (list N))) (last : list (list N)) :
  flushing w r u buf h ->
  heard_all h noisy = true ->
  length noisy <= 10 ->
  length noisy = 10 \/ heard (flag_after h noisy) last = false ->
  let before := run w (ETx 0 true :: poll_events noisy) in
  let after := run w (ETx 0 true :: poll_events (noisy ++ [last])) in
  users (snd before) = [] /\
  polling (fst before) u (buf ++ concat (concat noisy)) (flag_after h noisy)
          (10 - Z.of_nat (length noisy)) /\
  users (snd after) = [(u, Some (buf ++ concat (concat (noisy ++ [last]))))] /\
  delivered (fst after) /\
  armed_ms (snd after) = (250 * Z.of_nat (length noisy + 1))%Z /\
  (armed_ms (snd after) <= 2750)%Z.
Proof.
  intros Hfl Hh Hlen Hlast. cbn zeta.
  destruct (step_flushing w r u buf h Hfl) as [E0 Hp0].
  set (w0 := fst (step (ETx 0 true) w)) in *.
  destruct (run_poll_heard noisy w0 u buf h 10 Hp0 Hh) as [Hp' Hu]; [lia|].
  pose proof (run_poll_armed noisy w0 u buf h 10 Hp0 Hh) as Ha.
  pose proof (run_window_polling _ _ _ _ _ last Hp') as Hw.
  pose proof (run_window_armed _ _ _ _ _ last Hp') as Ha'.
  assert (heard (flag_after h noisy) last && negb (10 - Z.of_nat (length noisy) =? 0)%Z = false)
    as E.
  { destruct Hlast as [Hl|Hl].
    - rewrite Hl. simpl. by rewrite andb_false_r.
    - by rewrite Hl. }
  rewrite E in Hw, Ha'. destruct Hw as [Hd Hu'].
  rewrite !(run_cons w), !fst_pair, !snd_pair. fold w0.
  rewrite poll_events_snoc, run_app, !fst_pair, !snd_pair.
  rewrite E0, !users_app, Hu, Hu', !armed_ms_app, Ha, Ha' by lia.
  split_and!; try done.
  - cbn. rewrite !concat_app. cbn. by rewrite !app_nil_r, app_assoc.
  - cbn. lia.
  - cbn. lia.
Qed.

Lemma poll_delivers_once_witness :
  let w := fst (run (deferred [49; 43; 49; 10]%N (Some 0)) opening) in
  users (snd (run w (ETx 0 true :: poll_events ([[[50]%N]; [[13; 10]%N]] ++ [[]])))) =
    [(0, Some ([] ++ concat (concat ([[[50]%N]; [[13; 10]%N]] ++ [[]]))))] /\
  armed_ms (snd (run w (ETx 0 true :: poll_events ([[[50]%N]; [[13; 10]%N]] ++ [[]])))) =
    (250 * Z.of_nat (length [[[50]%N]; [[13; 10]%N]] + 1))%Z.
Proof.
  assert (flushing (fst (run (deferred [49; 43; 49; 10]%N (Some 0)) opening)) 0 0 [] false)
    as Hf by (constructor; [constructor|..]; reflexivity).
  pose proof (poll_delivers_once _ 0 0 [] false [[[50]%N]; [[13; 10]%N]] [] Hf eq_refl) as H.
  destruct H as (_ & _ & H & _ & Ha & _); [simpl; lia|by right|].
  split; [exact H|exact Ha].
Defined.

(** C7 as stated fails, twice.  With data in each of the first ten windows
    the timers armed by the time the tenth fires add up to 2500 ms and
    nothing has been delivered; [callback] is called when the eleventh
    timer fires, 2750 ms after the flush.  And a window in which nothing
    arrives does not end the wait when the flag was set by data that came
    before the flush: the first silent window arms the timer again, the
    second delivers. *)
Lemma poll_not_within_2500ms :
  (let w := fst (run (deferred [49; 43; 49; 10]%N (Some 0)) opening) in
   let ten := run w (ETx 0 true :: poll_events (replicate 10 [[49]%N])) in
   let eleven := run w (ETx 0 true :: poll_events (replicate 11 [[49]%N])) in
   flushing w 0 0 [] false /\
   armed_ms (snd (run w (ETx 0 true :: poll_events (replicate 9 [[49]%N])))) = 2500%Z /\
   users (snd ten) = [] /\
   timers (puck (fst ten)) = [{| maxTime := 0; timer_callback := 0 |}] /\
   users (snd eleven) = [(0, Some (replicate 11 49%N))] /\
   armed_ms (snd eleven) = 2750%Z) /\
  (let w := fst (run (deferred [49; 43; 49; 10]%N (Some 0)) (opening ++ [ENotify [97]%N])) in
   let one := run w (ETx 0 true :: window_events []) in
   let two := run w (ETx 0 true :: window_events [] ++ window_events []) in
   flushing w 0 0 [97]%N true /\
   users (snd one) = [] /\
   timers (puck (fst one)) = [{| maxTime := 9; timer_callback := 0 |}] /\
   users (snd two) = [(0, Some [97]%N)]).
Proof.
  split; cbv zeta.
  - split; [constructor; [constructor|..]; reflexivity|]. vm_compute. done.
  - split; [constructor; [constructor|..]; reflexivity|]. vm_compute. done.
Qed.

(** ** A timer that outlives its connection *)

(** X29.  A timer armed for an earlier [Puck.write] is still armed when a
    later [Puck.write] finds the connection not open and replaces it.
    When it fires, [connection] is the new object, on which neither
    [hadData] nor [received] is assigned: the timer is not armed again,
    and the callback of the earlier write is called with [undefined], not
    with what the old connection had received. *)
Theorem stale_timer_after_reconnect
  (w : World) (d : jsstring) (cb : option nat) (k : nat) (t : Timer) :
  connection (puck w) && isOpen (conn w) = false ->
  timers (puck w) !! k = Some t ->
  let y := step (ETimer k) (fst (Puck_write d cb w)) in
  snd y = [OUser (timer_callback t) None] /\
  received (puck (fst y)) = Some [] /\
  hadData (puck (fst y)) = false /\
  timers (puck (fst y)) = delete k (timers (puck w)) /\
  conn (fst y) = conn (connect (PuckConnected d cb) idle).
Proof.
  intros Hn Hk. unfold Puck_write. rewrite Hn. cbn [fst].
  destruct w as [c p]. destruct p as [g rx hd ts]. cbn in Hk |- *.
  unfold step, handle, bind, getp, modp, timeout, out. cbn. rewrite Hk. cbn. done.
Qed.

Lemma stale_timer_after_reconnect_witness :
  let w := fst (run (deferred [49; 43; 49; 10]%N (Some 5))
                    (opening ++ [ENotify [50]%N; ETx 0 true; EGattDisconnected])) in
  received (puck w) = Some [50]%N /\
  timers (puck w) = [{| maxTime := 10; timer_callback := 5 |}] /\
  snd (step (ETimer 0) (fst (Puck_write [50; 10]%N None w))) = [OUser 5 None].
Proof.
  split; [vm_compute; reflexivity|]. split; [vm_compute; reflexivity|].
  destruct (stale_timer_after_reconnect
              (fst (run (deferred [49; 43; 49; 10]%N (Some 5))
                        (opening ++ [ENotify [50]%N; ETx 0 true; EGattDisconnected])))
              [50; 10]%N None 0 {| maxTime := 10; timer_callback := 5 |})
    as (H & _); [vm_compute; reflexivity|vm_compute; reflexivity|exact H].
Defined.
